(** * Parametric CRC-8 / CRC-16 / CRC-32 / CRC-64

    A shallow embedding of [parametric_crc.h] and [parametric_crc_mini.h],
    with the codeword check of [test.cpp], and the properties of the CRC
    engines they define.

    Unsigned integers of the C++ source are values of [Z].  A conversion
    to an unsigned type of [n] bits is a reduction modulo [2 ^ n]; it is
    written out wherever a value can leave the range of its type, that is
    after every left shift ([uint8] and [uint16] operands are promoted to
    [int], where nothing overflows, and converted back by the assignment;
    [uint32] and [uint64] wrap on the spot, with the same result).  Xor,
    and, or and right shifts of values of a type stay in the type.

    Arrays are lists, read with [!!!] and written with [<[_:=_]>]; the
    loops of the source only use indices inside their arrays.  Template
    parameters are ordinary parameters; an instance of a class is a record
    that the methods take and, when they change it, return. *)

From Stdlib Require Import ZArith Lia Bool List.
From stdpp Require Import base list.
Import ListNotations.

Local Open Scope Z_scope.

(** ** Unsigned integer types *)

(** [_uint<WIDTH>] is only specialised for the four widths below. *)
Inductive width : Set := W8 | W16 | W32 | W64.

Definition bits (w : width) : Z :=
  match w with W8 => 8 | W16 => 16 | W32 => 32 | W64 => 64 end.

(** sizeof(T) == 1 *)
Definition IS_UINT8 (w : width) : bool :=
  match w with W8 => true | _ => false end.

(** Conversion of a value to an unsigned integer of [n] bits. *)
Definition wrap (n : Z) (x : Z) : Z := x mod 2 ^ n.

(** Conversion to [uint<WIDTH>]: what an assignment to a [T] does. *)
Definition to_uint (w : width) (x : Z) : Z := wrap (bits w) x.

(** Conversion to [uint8]. *)
Definition to_uint8 (x : Z) : Z := wrap 8 x.

(** The values of [uint<WIDTH>]. *)
Definition is_uint (w : width) (x : Z) : Prop := 0 <= x < 2 ^ bits w.

Definition is_uintb (w : width) (x : Z) : bool :=
  (0 <=? x) && (x <? 2 ^ bits w).

(** ** Control structures *)

(** [for (i = lo; i < hi; i++) body], for a body that leaves [i] alone. *)
Fixpoint for_loop {S : Type} (trips : nat) (i : Z) (body : Z -> S -> S) (s : S) : S :=
  match trips with
  | O => s
  | Datatypes.S trips' => for_loop trips' (i + 1) body (body i s)
  end.

Definition for_range {S : Type} (lo hi : Z) (body : Z -> S -> S) (s : S) : S :=
  for_loop (Z.to_nat (hi - lo)) lo body s.

(** A loop [for (p = begin; p < end; ++p)] over a byte range, the body
    reading the byte under [p]. *)
Definition for_bytes {S : Type} (body : Z -> S -> S) (data : list Z) (s : S) : S :=
  fold_left (fun s b => body b s) data s.

(** ** Bit reversal *)

Definition reverse_bits64 (v : Z) : Z :=
  let v := wrap 64 (Z.lor (Z.land (Z.shiftr v 1) 0x5555555555555555)
                          (Z.shiftl (Z.land v 0x5555555555555555) 1)) in
  let v := wrap 64 (Z.lor (Z.land (Z.shiftr v 2) 0x3333333333333333)
                          (Z.shiftl (Z.land v 0x3333333333333333) 2)) in
  let v := wrap 64 (Z.lor (Z.land (Z.shiftr v 4) 0x0F0F0F0F0F0F0F0F)
                          (Z.shiftl (Z.land v 0x0F0F0F0F0F0F0F0F) 4)) in
  let v := wrap 64 (Z.lor (Z.land (Z.shiftr v 8) 0x00FF00FF00FF00FF)
                          (Z.shiftl (Z.land v 0x00FF00FF00FF00FF) 8)) in
  let v := wrap 64 (Z.lor (Z.land (Z.shiftr v 16) 0x0000FFFF0000FFFF)
                          (Z.shiftl (Z.land v 0x0000FFFF0000FFFF) 16)) in
  let v := wrap 64 (Z.lor (Z.shiftr v 32) (Z.shiftl v 32)) in
  v.

Definition reverse_bits32 (v : Z) : Z :=
  let v := wrap 32 (Z.lor (Z.land (Z.shiftr v 1) 0x55555555)
                          (Z.shiftl (Z.land v 0x55555555) 1)) in
  let v := wrap 32 (Z.lor (Z.land (Z.shiftr v 2) 0x33333333)
                          (Z.shiftl (Z.land v 0x33333333) 2)) in
  let v := wrap 32 (Z.lor (Z.land (Z.shiftr v 4) 0x0F0F0F0F)
                          (Z.shiftl (Z.land v 0x0F0F0F0F) 4)) in
  let v := wrap 32 (Z.lor (Z.land (Z.shiftr v 8) 0x00FF00FF)
                          (Z.shiftl (Z.land v 0x00FF00FF) 8)) in
  let v := wrap 32 (Z.lor (Z.shiftr v 16) (Z.shiftl v 16)) in
  v.

(** The operands of a [uint16] are promoted to [int]; the assignments to
    [v] convert back. *)
Definition reverse_bits16 (v : Z) : Z :=
  let v := wrap 16 (Z.lor (Z.land (Z.shiftr v 1) 0x5555)
                          (Z.shiftl (Z.land v 0x5555) 1)) in
  let v := wrap 16 (Z.lor (Z.land (Z.shiftr v 2) 0x3333)
                          (Z.shiftl (Z.land v 0x3333) 2)) in
  let v := wrap 16 (Z.lor (Z.land (Z.shiftr v 4) 0x0F0F)
                          (Z.shiftl (Z.land v 0x0F0F) 4)) in
  let v := wrap 16 (Z.lor (Z.shiftr v 8) (Z.shiftl v 8)) in
  v.

(** [reverse_bits(uint8)] under PARAMETRIC_CRC_NO_REVERSE_BITS_LOOKUP_TABLE. *)
Definition reverse_bits8_arith (v : Z) : Z :=
  let v := wrap 8 (Z.lor (Z.land (Z.shiftr v 1) 0x55)
                         (Z.shiftl (Z.land v 0x55) 1)) in
  let v := wrap 8 (Z.lor (Z.land (Z.shiftr v 2) 0x33)
                         (Z.shiftl (Z.land v 0x33) 2)) in
  let v := wrap 8 (Z.lor (Z.shiftr v 4) (Z.shiftl v 4)) in
  v.

(** [reverse_bits_lookup_table] under
    PARAMETRIC_CRC_REVERSE_BITS_NIBBLE_LOOKUP_TABLE. *)
Definition reverse_bits_nibble_lookup_table : list Z :=
  for_range 0 0x10
    (fun i entries =>
       let v := wrap 8 (Z.lor (Z.land (Z.shiftr i 1) 5)
                              (Z.shiftl (Z.land i 5) 1)) in
       <[Z.to_nat i := wrap 8 (Z.land (Z.lor (Z.shiftr v 2) (Z.shiftl v 2)) 0xf)]> entries)
    (replicate 0x10 0).

Definition reverse_bits8_nibble (v : Z) : Z :=
  let tbl := reverse_bits_nibble_lookup_table in
  wrap 8 (Z.lor (tbl !!! Z.to_nat (Z.shiftr v 4))
                (Z.shiftl (tbl !!! Z.to_nat (Z.land v 0xf)) 4)).

(** The default [reverse_bits_lookup_table]: 256 entries filled by its
    constructor. *)
Definition reverse_bits_lookup_table : list Z :=
  for_range 0 0x100
    (fun i entries =>
       let v := to_uint8 i in
       let v := wrap 8 (Z.lor (Z.land (Z.shiftr v 1) 0x55)
                              (Z.shiftl (Z.land v 0x55) 1)) in
       let v := wrap 8 (Z.lor (Z.land (Z.shiftr v 2) 0x33)
                              (Z.shiftl (Z.land v 0x33) 2)) in
       <[Z.to_nat i := wrap 8 (Z.lor (Z.shiftr v 4) (Z.shiftl v 4))]> entries)
    (replicate 0x100 0).

(** The static instance of the table, evaluated once. *)
Definition reverse_bits_lookup_table_instance : list Z :=
  Eval vm_compute in reverse_bits_lookup_table.

(** The default [reverse_bits(uint8)]. *)
Definition reverse_bits8 (v : Z) : Z :=
  reverse_bits_lookup_table_instance !!! Z.to_nat v.

(** Overload resolution of [reverse_bits] on the type of its argument. *)
Definition reverse_bits (w : width) (v : Z) : Z :=
  match w with
  | W8 => reverse_bits8 v
  | W16 => reverse_bits16 v
  | W32 => reverse_bits32 v
  | W64 => reverse_bits64 v
  end.

(** [conditional_reflect<T, CONDITION>::fn] *)
Definition conditional_reflect (w : width) (CONDITION : bool) (value : Z) : Z :=
  if CONDITION then reverse_bits w value else value.

(** ** The CRC kernel: [core<WIDTH, REFLECTED>] *)

(** [core<WIDTH,false>::MSB_MASK] *)
Definition MSB_MASK (w : width) : Z := Z.shiftl 1 (bits w - 1).

(** The body of the loops of [bbb_update] and [bbb_update_wide]: one step of
    the shift register.  With [REF = false] the register advances towards
    the most significant bit and the shifted value is converted back to
    [T]; with [REF = true] it advances towards the least significant bit. *)
Definition shift_register (REF : bool) (w : width) (poly crc : Z) : Z :=
  if REF then
    if negb (Z.land crc 1 =? 0)
    then Z.lxor (Z.shiftr crc 1) poly
    else Z.shiftr crc 1
  else
    if negb (Z.land crc (MSB_MASK w) =? 0)
    then to_uint w (Z.lxor (Z.shiftl crc 1) poly)
    else to_uint w (Z.shiftl crc 1).

(** Table-less bit-by-bit update with the [num_bits] leading bits of [b]. *)
Definition bbb_update (REF : bool) (w : width) (poly crc b num_bits : Z) : Z :=
  let crc :=
    if REF then Z.lxor crc b
    else to_uint w (Z.lxor crc (Z.shiftl b (bits w - 8))) in
  for_range 0 num_bits (fun _ crc => shift_register REF w poly crc) crc.

(** Bit-by-bit update with as many bits as there are in [T]. *)
Definition bbb_update_wide (REF : bool) (w : width) (poly crc b : Z) : Z :=
  let crc := Z.lxor crc b in
  for_range 0 (bits w) (fun _ crc => shift_register REF w poly crc) crc.

Definition tableless_update (REF : bool) (w : width) (poly crc : Z) (data : list Z) : Z :=
  for_bytes (fun b crc => bbb_update REF w poly crc b 8) data crc.

(** The value of a single table entry during table generation. *)
Definition table_entry (REF : bool) (w : width) (poly index skip_bits : Z) : Z :=
  bbb_update REF w poly 0
    (to_uint8 (if REF then Z.shiftr index skip_bits else Z.shiftl index skip_bits))
    (to_uint8 (8 - skip_bits)).

(** The [do ... while (k < 0xf0)] loop of [generate_table], which fills the
    fifteen rows after the first.  [k] is a [uint8]. *)
Fixpoint generate_table_rows (fuel : nat) (REF : bool) (w : width) (poly : Z)
    (k : Z) (entries : list Z) : list Z :=
  match fuel with
  | O => entries
  | S fuel' =>
      let k := to_uint8 (k + 0x10) in
      let entries :=
        <[Z.to_nat k := table_entry REF w poly k (if REF then 4 else 0)]> entries in
      let entries :=
        for_range 1 0x10
          (fun i entries =>
             <[Z.to_nat (Z.lxor k i) :=
                 Z.lxor (entries !!! Z.to_nat k) (entries !!! Z.to_nat i)]> entries)
          entries in
      if k <? 0xf0 then generate_table_rows fuel' REF w poly k entries else entries
  end.

(** [generate_table]: the first row from [table_entry], the other rows from
    [table[i xor j] == table[i] xor table[j]].  The loop over the rows is
    given one round for every value of its [uint8] counter. *)
Definition generate_table (REF : bool) (w : width) (poly : Z) (entries : list Z) : list Z :=
  let entries := <[0%nat := 0]> entries in
  let entries :=
    for_range 1 0x10
      (fun i entries =>
         <[Z.to_nat i := table_entry REF w poly i (if REF then 0 else 4)]> entries)
      entries in
  generate_table_rows 0x100 REF w poly 0 entries.

(** The [do ... while (i++ < 255)] loop of the generator under
    PARAMETRIC_CRC_SIMPLE_TABLE_GENERATOR.  The condition reads [i] before
    the increment, which wraps around in [uint8]. *)
Fixpoint generate_table_simple_loop (fuel : nat) (REF : bool) (w : width) (poly : Z)
    (i : Z) (entries : list Z) : list Z :=
  match fuel with
  | O => entries
  | S fuel' =>
      let entries := <[Z.to_nat i := table_entry REF w poly i 0]> entries in
      if i <? 255
      then generate_table_simple_loop fuel' REF w poly (to_uint8 (i + 1)) entries
      else entries
  end.

Definition generate_table_simple (REF : bool) (w : width) (poly : Z) (entries : list Z) : list Z :=
  let entries := <[0%nat := 0]> entries in
  generate_table_simple_loop 0x100 REF w poly 1 entries.

Definition generate_small_table (REF : bool) (w : width) (poly : Z)
    (first_row first_column : list Z) : list Z * list Z :=
  let first_row := <[0%nat := 0]> first_row in
  let first_row :=
    for_range 1 0x10
      (fun i first_row =>
         <[Z.to_nat i := table_entry REF w poly i (if REF then 0 else 4)]> first_row)
      first_row in
  let first_column := <[0%nat := 0]> first_column in
  let first_column :=
    for_range 1 0x10
      (fun k first_column =>
         <[Z.to_nat k := table_entry REF w poly (Z.shiftl k 4) (if REF then 4 else 0)]>
           first_column)
      first_column in
  (first_row, first_column).

(** ** Table representations *)

(** [basic_table<T>] *)
Record basic_table (T : width) : Type := { entries : list Z }.
Arguments entries {T} _.

(** [basic_small_table<T>] *)
Record basic_small_table (T : width) : Type :=
  { first_row : list Z; first_column : list Z }.
Arguments first_row {T} _.
Arguments first_column {T} _.

(** The contract of the [TABLE] template parameter: subscripting with an
    index in the range [0..255]. *)
Class Subscript (TABLE : Type) : Type := subscript : TABLE -> Z -> Z.

(** [basic_table::operator[](uint8 index)] *)
#[export] Instance basic_table_subscript (T : width) : Subscript (basic_table T) :=
  fun table index => entries table !!! Z.to_nat (to_uint8 index).

(** [basic_small_table::operator[](uint8 index)] *)
#[export] Instance basic_small_table_subscript (T : width) : Subscript (basic_small_table T) :=
  fun table index =>
    let index := to_uint8 index in
    Z.lxor (first_row table !!! Z.to_nat (Z.land index 0x0f))
           (first_column table !!! Z.to_nat (Z.shiftr index 4)).

(** A plain array of 256 entries. *)
#[export] Instance array_subscript : Subscript (list Z) :=
  fun table index => table !!! Z.to_nat index.

(** [table_based_crc_updater<T, REF, IS_UINT8>::update] *)
Definition table_based_crc_updater {TABLE : Type} `{Subscript TABLE}
    (REF : bool) (w : width) (crc b : Z) (table : TABLE) : Z :=
  if IS_UINT8 w then
    subscript table (Z.lxor crc b)
  else if REF then
    Z.lxor (subscript table (Z.lxor (Z.land crc 0xff) b)) (Z.shiftr crc 8)
  else
    to_uint w (Z.lxor (subscript table (Z.lxor (Z.shiftr crc (bits w - 8)) b))
                      (Z.shiftl crc 8)).

(** [core<WIDTH, REF>::table_based_update] over a byte range. *)
Definition table_based_update {TABLE : Type} `{Subscript TABLE}
    (REF : bool) (w : width) (crc : Z) (data : list Z) (table : TABLE) : Z :=
  for_bytes (fun b crc => table_based_crc_updater REF w crc b table) data crc.

(** [tbl_cfg<WIDTH, POLY, REF_REG>] *)
Record tbl_cfg : Type :=
  { tbl_WIDTH : width; tbl_POLY : Z; tbl_REF_REG : bool }.

Definition tbl_ACTUAL_POLY (c : tbl_cfg) : Z :=
  conditional_reflect (tbl_WIDTH c) (tbl_REF_REG c) (tbl_POLY c).

(** [table<TBL_CFG>::generate] *)
Definition table_generate (c : tbl_cfg) (this : basic_table (tbl_WIDTH c))
    : basic_table (tbl_WIDTH c) :=
  {| entries := generate_table (tbl_REF_REG c) (tbl_WIDTH c) (tbl_ACTUAL_POLY c)
                               (entries this) |}.

(** The default constructor of [table<TBL_CFG>]: the base class fills
    [entries] with zeros and the body calls [generate]. *)
Definition table (c : tbl_cfg) : basic_table (tbl_WIDTH c) :=
  table_generate c {| entries := replicate 256 0 |}.

(** [small_table<TBL_CFG>::generate] *)
Definition small_table_generate (c : tbl_cfg) (this : basic_small_table (tbl_WIDTH c))
    : basic_small_table (tbl_WIDTH c) :=
  let '(row, column) :=
    generate_small_table (tbl_REF_REG c) (tbl_WIDTH c) (tbl_ACTUAL_POLY c)
                         (first_row this) (first_column this) in
  {| first_row := row; first_column := column |}.

(** The default constructor of [small_table<TBL_CFG>]. *)
Definition small_table (c : tbl_cfg) : basic_small_table (tbl_WIDTH c) :=
  small_table_generate c {| first_row := replicate 16 0; first_column := replicate 16 0 |}.

(** [static_table<TABLE_TYPE>::instance] is [TABLE_TYPE()]: one default
    constructed table per table type. *)
Definition static_table {TABLE_TYPE : Type} (ctor : TABLE_TYPE) : TABLE_TYPE := ctor.

(** ** Strategy adapters: the [UPDATER] plugins *)

(** The plugins of [impl]: [updater_tableless], [updater_table_based] and
    [updater_small_table_based]. *)
Inductive updater : Set :=
  | updater_tableless
  | updater_table_based
  | updater_small_table_based.

(** The plugins of [impl_ext]: [updater_ext_table_based] and
    [updater_ext_small_table_based]. *)
Inductive updater_ext : Set :=
  | updater_ext_table_based
  | updater_ext_small_table_based.

(** [UPDATER::table_type] of the plugins that take the table from the
    caller: [table<TBL_CFG>] or [small_table<TBL_CFG>]. *)
Definition table_type (u : updater_ext) (c : tbl_cfg) : Type :=
  match u with
  | updater_ext_table_based => basic_table (tbl_WIDTH c)
  | updater_ext_small_table_based => basic_small_table (tbl_WIDTH c)
  end.

(** A default constructed [UPDATER::table_type]. *)
Definition table_type_default (u : updater_ext) (c : tbl_cfg) : table_type u c :=
  match u with
  | updater_ext_table_based => table c
  | updater_ext_small_table_based => small_table c
  end.

(** [UPDATER::update(crc, begin, end)] *)
Definition updater_update (u : updater) (c : tbl_cfg) (crc : Z) (data : list Z) : Z :=
  match u with
  | updater_tableless =>
      tableless_update (tbl_REF_REG c) (tbl_WIDTH c) (tbl_ACTUAL_POLY c) crc data
  | updater_table_based =>
      table_based_update (tbl_REF_REG c) (tbl_WIDTH c) crc data (static_table (table c))
  | updater_small_table_based =>
      table_based_update (tbl_REF_REG c) (tbl_WIDTH c) crc data (static_table (small_table c))
  end.

(** [UPDATER::update(crc, begin, end, table)] *)
Definition updater_ext_update (u : updater_ext) (c : tbl_cfg) (crc : Z) (data : list Z)
    : table_type u c -> Z :=
  match u with
  | updater_ext_table_based =>
      fun t => table_based_update (tbl_REF_REG c) (tbl_WIDTH c) crc data t
  | updater_ext_small_table_based =>
      fun t => table_based_update (tbl_REF_REG c) (tbl_WIDTH c) crc data t
  end.

(** ** The model: [cfg<WIDTH, POLY, INIT, XOR_OUT, REF_IN, REF_OUT, REF_REG>] *)

Record cfg : Type :=
  { WIDTH : width;
    POLY : Z;
    INIT : Z;
    XOR_OUT : Z;
    REF_IN : bool;
    REF_OUT : bool;
    REF_REG : bool }.

Definition ACTUAL_INIT (c : cfg) : Z :=
  conditional_reflect (WIDTH c) (REF_REG c) (INIT c).

Definition ACTUAL_POLY (c : cfg) : Z :=
  conditional_reflect (WIDTH c) (REF_REG c) (POLY c).

Definition TBL_CFG (c : cfg) : tbl_cfg :=
  {| tbl_WIDTH := WIDTH c; tbl_POLY := POLY c; tbl_REF_REG := REF_REG c |}.

(** The template arguments [POLY], [INIT] and [XOR_OUT] have the type
    [uint<WIDTH>]. *)
Definition cfg_ok (c : cfg) : Prop :=
  is_uint (WIDTH c) (POLY c) /\ is_uint (WIDTH c) (INIT c) /\ is_uint (WIDTH c) (XOR_OUT c).

(** A byte range holds values of [uint8]. *)
Definition is_bytes (data : list Z) : Prop := Forall (fun b => 0 <= b < 256) data.

(** ** Residue derivation: [residue_const_calculator<CFG>] *)

Definition residue_const (c : cfg) : Z :=
  let residue :=
    conditional_reflect (WIDTH c) (negb (eqb (REF_REG c) (REF_OUT c))) (XOR_OUT c) in
  let residue := bbb_update_wide (REF_REG c) (WIDTH c) (ACTUAL_POLY c) residue 0 in
  conditional_reflect (WIDTH c) (negb (eqb (REF_REG c) (REF_IN c))) residue.

(** [residue_const_calculator<CFG>::RESIDUE], also [impl::RESIDUE] and
    [impl_ext::RESIDUE]. *)
Definition RESIDUE (c : cfg) : Z := residue_const c.

(** ** Input-reflection adapter *)

(** [impl_input_reverser<UPDATER, T, REVERSE>::update] *)
Definition impl_input_reverser (u : updater) (c : tbl_cfg) (REVERSE : bool)
    (crc : Z) (data : list Z) : Z :=
  if REVERSE then
    for_bytes (fun p crc => let b := reverse_bits8 p in updater_update u c crc [b]) data crc
  else
    updater_update u c crc data.

(** [impl_ext_input_reverser<UPDATER, T, REVERSE>::update] *)
Definition impl_ext_input_reverser (u : updater_ext) (c : tbl_cfg) (REVERSE : bool)
    (crc : Z) (data : list Z) (table : table_type u c) : Z :=
  if REVERSE then
    for_bytes (fun p crc => let b := reverse_bits8 p in updater_ext_update u c crc [b] table)
              data crc
  else
    updater_ext_update u c crc data table.

(** ** The model facade: [impl<CFG, UPDATER>] *)

(** An instance of [impl] or [impl_ext] holds the register. *)
Record impl : Type := { _crc : Z }.

(** The constructor [impl(T interim_remainder = CFG::ACTUAL_INIT)]. *)
Definition impl_from (interim_remainder : Z) : impl := {| _crc := interim_remainder |}.
Definition impl_new (c : cfg) : impl := impl_from (ACTUAL_INIT c).

Definition interim (this : impl) : Z := _crc this.

Definition residue (c : cfg) (this : impl) : Z :=
  conditional_reflect (WIDTH c) (negb (eqb (REF_REG c) (REF_OUT c))) (_crc this).

Definition final (c : cfg) (this : impl) : Z :=
  Z.lxor (residue c this) (XOR_OUT c).

(** [impl::update(begin, end)] *)
Definition update (c : cfg) (u : updater) (data : list Z) (this : impl) : impl :=
  {| _crc := impl_input_reverser u (TBL_CFG c) (negb (eqb (REF_IN c) (REF_REG c)))
                                 (_crc this) data |}.

(** [impl::update(uint8 b)] *)
Definition update_byte (c : cfg) (u : updater) (b : Z) (this : impl) : impl :=
  {| _crc := impl_input_reverser u (TBL_CFG c) (negb (eqb (REF_IN c) (REF_REG c)))
                                 (_crc this) [b] |}.

(** [impl::calculate(begin, end)] *)
Definition calculate (c : cfg) (u : updater) (data : list Z) : Z :=
  let crc := impl_new c in
  let crc := update c u data crc in
  final c crc.

(** ** [impl_ext<CFG, UPDATER>]: the table is a parameter of every call *)

(** [impl_ext::update(begin, end, table)] *)
Definition update_ext (c : cfg) (u : updater_ext) (data : list Z)
    (table : table_type u (TBL_CFG c)) (this : impl) : impl :=
  {| _crc := impl_ext_input_reverser u (TBL_CFG c) (negb (eqb (REF_IN c) (REF_REG c)))
                                     (_crc this) data table |}.

(** [impl_ext::update(uint8 b, table)] *)
Definition update_byte_ext (c : cfg) (u : updater_ext) (b : Z)
    (table : table_type u (TBL_CFG c)) (this : impl) : impl :=
  {| _crc := impl_ext_input_reverser u (TBL_CFG c) (negb (eqb (REF_IN c) (REF_REG c)))
                                     (_crc this) [b] table |}.

(** [impl_ext::calculate(begin, end, table)] *)
Definition calculate_ext (c : cfg) (u : updater_ext) (data : list Z)
    (table : table_type u (TBL_CFG c)) : Z :=
  let crc := impl_new c in
  let crc := update_ext c u data table crc in
  final c crc.

(** ** [parametric]: a model bound to one of the five modes *)

Inductive mode : Set :=
  | table_based
  | small_table_based
  | ext_table_based
  | ext_small_table_based
  | tableless.

(** [parametric<...>] itself is the [table_based] mode. *)
Definition parametric_calculate (c : cfg) (data : list Z) : Z :=
  calculate c updater_table_based data.

(** A streaming instance in any of the five modes.  The modes with an
    external table are given a default constructed table of their
    [table_type], which the caller passes to every call. *)
Definition mode_update (c : cfg) (m : mode) (data : list Z) (this : impl) : impl :=
  match m with
  | table_based => update c updater_table_based data this
  | small_table_based => update c updater_small_table_based data this
  | tableless => update c updater_tableless data this
  | ext_table_based =>
      update_ext c updater_ext_table_based data
                 (table_type_default updater_ext_table_based (TBL_CFG c)) this
  | ext_small_table_based =>
      update_ext c updater_ext_small_table_based data
                 (table_type_default updater_ext_small_table_based (TBL_CFG c)) this
  end.

Definition mode_calculate (c : cfg) (m : mode) (data : list Z) : Z :=
  match m with
  | table_based => calculate c updater_table_based data
  | small_table_based => calculate c updater_small_table_based data
  | tableless => calculate c updater_tableless data
  | ext_table_based =>
      calculate_ext c updater_ext_table_based data
                    (table_type_default updater_ext_table_based (TBL_CFG c))
  | ext_small_table_based =>
      calculate_ext c updater_ext_small_table_based data
                    (table_type_default updater_ext_small_table_based (TBL_CFG c))
  end.

(** ** The catalogue entries used below *)

Definition parametric (w : width) (poly init xor_out : Z) (ref_in : bool) : cfg :=
  {| WIDTH := w; POLY := poly; INIT := init; XOR_OUT := xor_out;
     REF_IN := ref_in; REF_OUT := ref_in; REF_REG := ref_in |}.

Definition crc8_smbus      := parametric W8 0x07 0x00 0x00 false.
Definition crc8_sae_j1850  := parametric W8 0x1d 0xff 0xff false.
Definition crc16_kermit    := parametric W16 0x1021 0x0000 0x0000 true.
Definition crc16_ibm_sdlc  := parametric W16 0x1021 0xffff 0xffff true.
Definition crc32_iso_hdlc  := parametric W32 0x04c11db7 0xffffffff 0xffffffff true.
Definition crc32_bzip2     := parametric W32 0x04c11db7 0xffffffff 0xffffffff false.
Definition crc64_xz        :=
  parametric W64 0x42f0e1eba9ea3693 0xffffffffffffffff 0xffffffffffffffff true.

(** The bytes of ["123456789"]. *)
Definition check_data : list Z := [0x31; 0x32; 0x33; 0x34; 0x35; 0x36; 0x37; 0x38; 0x39].

(** ** Codewords, as [run_one] of test.cpp forms them *)

(** The bytes of [crc_val] in little endian order:
    [for (i = 0; i < sizeof(T); i++) codeword[size++] = char(crc_val >> (i*8))]. *)
Definition append_little_endian (w : width) (crc_val : Z) (codeword : list Z) : list Z :=
  for_range 0 (bits w / 8)
    (fun i codeword => codeword ++ [to_uint8 (Z.shiftr crc_val (i * 8))]) codeword.

(** The bytes of [crc_val] in big endian order:
    [for (i = sizeof(T) - 1; i >= 0; i--) codeword[size++] = char(crc_val >> (i*8))]. *)
Definition append_big_endian (w : width) (crc_val : Z) (codeword : list Z) : list Z :=
  for_range 0 (bits w / 8)
    (fun j codeword =>
       let i := bits w / 8 - 1 - j in
       codeword ++ [to_uint8 (Z.shiftr crc_val (i * 8))]) codeword.

(** The dataword followed by its CRC [crc_val], which is bit-reversed
    first when [REF_IN != REF_OUT]. *)
Definition codeword (c : cfg) (dataword : list Z) (crc_val : Z) : list Z :=
  let crc_val :=
    if negb (eqb (REF_IN c) (REF_OUT c)) then reverse_bits (WIDTH c) crc_val else crc_val in
  if REF_IN c
  then append_little_endian (WIDTH c) crc_val dataword
  else append_big_endian (WIDTH c) crc_val dataword.

(** The residue check of [run_one]: the value of [residue()] of a fresh
    instance after an update with the codeword of [dataword]. *)
Definition residue_of_codeword (c : cfg) (m : mode) (dataword : list Z) : Z :=
  let crc_val := mode_calculate c m dataword in
  residue c (mode_update c m (codeword c dataword crc_val) (impl_new c)).

(** ** The mini library: [parametric_crc_mini.h] *)

Module mini.

(** [reverse_bits_lookup_table] *)
Definition reverse_bits_lookup_table : list Z :=
  for_range 0 0x100
    (fun i entries =>
       let v := to_uint8 i in
       let v := wrap 8 (Z.lor (Z.land (Z.shiftr v 1) 0x55)
                              (Z.shiftl (Z.land v 0x55) 1)) in
       let v := wrap 8 (Z.lor (Z.land (Z.shiftr v 2) 0x33)
                              (Z.shiftl (Z.land v 0x33) 2)) in
       <[Z.to_nat i := wrap 8 (Z.lor (Z.shiftr v 4) (Z.shiftl v 4))]> entries)
    (replicate 0x100 0).

Definition reverse_bits_lookup_table_instance : list Z :=
  Eval vm_compute in reverse_bits_lookup_table.

Definition reverse_bits8 (v : Z) : Z :=
  reverse_bits_lookup_table_instance !!! Z.to_nat v.

Definition reverse_bits16 (v : Z) : Z :=
  Z.lor (Z.shiftl (reverse_bits8 (to_uint8 v)) 8)
        (reverse_bits8 (to_uint8 (Z.shiftr v 8))).

Definition reverse_bits32 (v : Z) : Z :=
  Z.lor (Z.shiftl (reverse_bits16 (wrap 16 v)) 16)
        (reverse_bits16 (wrap 16 (Z.shiftr v 16))).

Definition reverse_bits64 (v : Z) : Z :=
  Z.lor (Z.shiftl (reverse_bits32 (wrap 32 v)) 32)
        (reverse_bits32 (wrap 32 (Z.shiftr v 32))).

Definition reverse_bits (w : width) (v : Z) : Z :=
  match w with
  | W8 => reverse_bits8 v
  | W16 => reverse_bits16 v
  | W32 => reverse_bits32 v
  | W64 => reverse_bits64 v
  end.

(** The constructor of [lookup_table<T, REF_POLY, REF>]. *)
Definition lookup_table (T : width) (REF_POLY : Z) (REF : bool) : list Z :=
  for_range 0 0x100
    (fun index entries =>
       let entry := if REF then index else reverse_bits8 (to_uint8 index) in
       let entry :=
         for_range 0 8
           (fun _ entry =>
              if negb (Z.land entry 1 =? 0)
              then Z.lxor (Z.shiftr entry 1) REF_POLY
              else Z.shiftr entry 1)
           entry in
       <[Z.to_nat index := if REF then entry else reverse_bits T entry]> entries)
    (replicate 0x100 0).

(** The parameters of [base] and [parametric]. *)
Record cfg : Type :=
  { WIDTH : width;
    POLY : Z;
    INIT : Z;
    XOR_OUT : Z;
    REF_IN : bool;
    REF_OUT : bool }.

(** [parametric::table()], the static instance of the lookup table. *)
Definition table (c : cfg) : list Z :=
  static_table (lookup_table (WIDTH c) (reverse_bits (WIDTH c) (POLY c)) (REF_IN c)).

(** The default value of the parameter [crc] of [base::calculate], also
    the start value of the register of an instance. *)
Definition initial (c : cfg) : Z :=
  if REF_IN c then reverse_bits (WIDTH c) (INIT c) else INIT c.

(** [base<T, POLY, INIT, XOR_OUT, REF_IN, REF_OUT>::calculate] with all
    four parameters. *)
Definition base_calculate (c : cfg) (data : list Z) (interim : bool) (crc : Z) : Z :=
  let tbl := table c in
  if REF_IN c then
    let crc :=
      for_bytes
        (fun p crc =>
           Z.lxor (tbl !!! Z.to_nat (Z.lxor (to_uint8 crc) p))
                  (Z.shiftr (Z.shiftr crc 4) 4))
        data crc in
    if interim then crc
    else Z.lxor (if REF_OUT c then crc else reverse_bits (WIDTH c) crc) (XOR_OUT c)
  else
    let crc :=
      for_bytes
        (fun p crc =>
           to_uint (WIDTH c)
             (Z.lxor (tbl !!! Z.to_nat (Z.lxor (Z.shiftr crc (bits (WIDTH c) - 8)) p))
                     (Z.shiftl (Z.shiftl crc 4) 4)))
        data crc in
    if interim then crc
    else Z.lxor (if REF_OUT c then reverse_bits (WIDTH c) crc else crc) (XOR_OUT c).

(** The static [calculate(data, size)]. *)
Definition calculate (c : cfg) (data : list Z) : Z :=
  base_calculate c data false (initial c).

(** An instance of [parametric] holds the register. *)
Record parametric : Type := { _crc : Z }.

Definition parametric_from (interim_remainder : Z) : parametric :=
  {| _crc := interim_remainder |}.

Definition parametric_new (c : cfg) : parametric := parametric_from (initial c).

Definition update (c : cfg) (data : list Z) (this : parametric) : parametric :=
  {| _crc := base_calculate c data true (_crc this) |}.

Definition interim (this : parametric) : Z := _crc this.

Definition residue (c : cfg) (this : parametric) : Z :=
  if negb (eqb (REF_IN c) (REF_OUT c))
  then reverse_bits (WIDTH c) (_crc this)
  else _crc this.

Definition final (c : cfg) (this : parametric) : Z :=
  Z.lxor (residue c this) (XOR_OUT c).

End mini.

(** The model of the full library with the parameters of a model of the
    mini library; [REF_REG] takes its default, [REF_IN]. *)
Definition cfg_of_mini (c : mini.cfg) : cfg :=
  {| WIDTH := mini.WIDTH c; POLY := mini.POLY c; INIT := mini.INIT c;
     XOR_OUT := mini.XOR_OUT c; REF_IN := mini.REF_IN c; REF_OUT := mini.REF_OUT c;
     REF_REG := mini.REF_IN c |}.

Definition mini_cfg_ok (c : mini.cfg) : Prop :=
  is_uint (mini.WIDTH c) (mini.POLY c) /\ is_uint (mini.WIDTH c) (mini.INIT c)
  /\ is_uint (mini.WIDTH c) (mini.XOR_OUT c).

(** A model with another register convention. *)
Definition with_REF_REG (c : cfg) (ref_reg : bool) : cfg :=
  {| WIDTH := WIDTH c; POLY := POLY c; INIT := INIT c; XOR_OUT := XOR_OUT c;
     REF_IN := REF_IN c; REF_OUT := REF_OUT c; REF_REG := ref_reg |}.

(** * Auxiliary definitions for the proofs *)

(** The condition under which a level moves bit [i xor s] to bit [i]. *)
Definition swap_level_ok (n s mask i : Z) : bool :=
  let j := Z.lxor i s in
  (0 <=? j) && (j <? n) &&
  (if Z.testbit mask i
   then (j =? i + s) && negb (Z.testbit mask (i - s))
   else (j =? i - s) && Z.testbit mask (i - s)).

(** The last level exchanges the two halves without a mask. *)
Definition swap_halves_ok (n s i : Z) : bool :=
  let j := Z.lxor i s in
  (0 <=? j) && (j <? n) &&
  (if i <? s then j =? i + s else (j =? i - s) && (n <=? i + s)).

(** The checks of the levels of [reverse_bits64], for every bit index. *)
Definition reverse_bits64_ok (i : Z) : bool :=
  let i5 := i in
  let i4 := Z.lxor i5 32 in
  let i3 := Z.lxor i4 16 in
  let i2 := Z.lxor i3 8 in
  let i1 := Z.lxor i2 4 in
  let i0 := Z.lxor i1 2 in
  swap_halves_ok 64 32 i5 &&
  swap_level_ok 64 16 0x0000FFFF0000FFFF i4 &&
  swap_level_ok 64 8 0x00FF00FF00FF00FF i3 &&
  swap_level_ok 64 4 0x0F0F0F0F0F0F0F0F i2 &&
  swap_level_ok 64 2 0x3333333333333333 i1 &&
  swap_level_ok 64 1 0x5555555555555555 i0 &&
  (Z.lxor i0 1 =? 63 - i).

(** The same for [reverse_bits32], [reverse_bits16] and the arithmetic
    [reverse_bits8]. *)
Definition reverse_bits32_ok (i : Z) : bool :=
  let i4 := i in
  let i3 := Z.lxor i4 16 in
  let i2 := Z.lxor i3 8 in
  let i1 := Z.lxor i2 4 in
  let i0 := Z.lxor i1 2 in
  swap_halves_ok 32 16 i4 &&
  swap_level_ok 32 8 0x00FF00FF i3 &&
  swap_level_ok 32 4 0x0F0F0F0F i2 &&
  swap_level_ok 32 2 0x33333333 i1 &&
  swap_level_ok 32 1 0x55555555 i0 &&
  (Z.lxor i0 1 =? 31 - i).

Definition reverse_bits16_ok (i : Z) : bool :=
  let i3 := i in
  let i2 := Z.lxor i3 8 in
  let i1 := Z.lxor i2 4 in
  let i0 := Z.lxor i1 2 in
  swap_halves_ok 16 8 i3 &&
  swap_level_ok 16 4 0x0F0F i2 &&
  swap_level_ok 16 2 0x3333 i1 &&
  swap_level_ok 16 1 0x5555 i0 &&
  (Z.lxor i0 1 =? 15 - i).

Definition reverse_bits8_arith_ok (i : Z) : bool :=
  let i2 := i in
  let i1 := Z.lxor i2 4 in
  let i0 := Z.lxor i1 2 in
  swap_halves_ok 8 4 i2 &&
  swap_level_ok 8 2 0x33 i1 &&
  swap_level_ok 8 1 0x55 i0 &&
  (Z.lxor i0 1 =? 7 - i).

(** [n] steps of the shift register. *)
Definition shift_register_n (REF : bool) (w : width) (poly : Z) (n : nat) (crc : Z) : Z :=
  Nat.iter n (shift_register REF w poly) crc.

(** A byte as it enters the register. *)
Definition byte_in (REF : bool) (w : width) (b : Z) : Z :=
  if REF then b else Z.shiftl b (bits w - 8).

(** The content of the generated table in terms of [table_entry]. *)
Definition table_shape (REF : bool) (w : width) (poly : Z) (b : Z) : Z :=
  let first := if REF then 0 else 4 in
  let rest := if REF then 4 else 0 in
  let k := Z.shiftl (Z.shiftr b 4) 4 in
  let i := Z.land b 0xf in
  if b =? 0 then 0
  else if b <? 16 then table_entry REF w poly b first
  else if i =? 0 then table_entry REF w poly k rest
  else Z.lxor (table_entry REF w poly k rest) (table_entry REF w poly i first).

(** The content of the two arrays of the generated small table. *)
Definition row_shape (REF : bool) (w : width) (poly : Z) (i : Z) : Z :=
  if i =? 0 then 0 else table_entry REF w poly i (if REF then 0 else 4).

Definition column_shape (REF : bool) (w : width) (poly : Z) (k : Z) : Z :=
  if k =? 0 then 0 else table_entry REF w poly (Z.shiftl k 4) (if REF then 4 else 0).

(** The two nibbles of a byte. *)
Definition nibbles_ok (b : Z) : bool :=
  let i := Z.land b 0xf in
  let k := Z.shiftr b 4 in
  (0 <=? i) && (i <? 16) && (0 <=? k) && (k <? 16)
  && (Z.lxor (Z.shiftl k 4) i =? b)
  && (Z.shiftl k 4 <? 256)
  && eqb (b =? 0) ((i =? 0) && (k =? 0))
  && eqb (b <? 16) (k =? 0)
  && (if k =? 0 then i =? b else true).

(** The bytes that reach the kernel. *)
Definition kernel_bytes (REVERSE : bool) (data : list Z) : list Z :=
  if REVERSE then map reverse_bits8 data else data.

(** The register of every mode after an update, in terms of the bit-by-bit
    kernel. *)
Definition kernel_update (c : cfg) (crc : Z) (data : list Z) : Z :=
  tableless_update (REF_REG c) (WIDTH c) (ACTUAL_POLY c) crc
                   (kernel_bytes (negb (eqb (REF_IN c) (REF_REG c))) data).

(** The [n] low bytes of [v], most significant first. *)
Fixpoint big_endian (n : nat) (v : Z) : list Z :=
  match n with
  | O => []
  | S n' => to_uint8 (Z.shiftr v (8 * Z.of_nat n')) :: big_endian n' v
  end.

(** The [n] low bytes of [v], least significant first. *)
Fixpoint little_endian (n : nat) (v : Z) : list Z :=
  match n with
  | O => []
  | S n' => to_uint8 v :: little_endian n' (Z.shiftr v 8)
  end.

(** The entry that the constructor of [lookup_table] stores at [index]. *)
Definition mini_entry (T : width) (REF_POLY : Z) (REF : bool) (index : Z) : Z :=
  let entry := if REF then index else mini.reverse_bits8 (to_uint8 index) in
  let entry :=
    for_range 0 8
      (fun _ entry =>
         if negb (Z.land entry 1 =? 0)
         then Z.lxor (Z.shiftr entry 1) REF_POLY
         else Z.shiftr entry 1)
      entry in
  if REF then entry else mini.reverse_bits T entry.

(** One round of the loop of [base::calculate]. *)
Definition mini_step (c : mini.cfg) (p crc : Z) : Z :=
  if mini.REF_IN c then
    Z.lxor (mini.table c !!! Z.to_nat (Z.lxor (to_uint8 crc) p))
           (Z.shiftr (Z.shiftr crc 4) 4)
  else
    to_uint (mini.WIDTH c)
      (Z.lxor (mini.table c !!! Z.to_nat (Z.lxor (Z.shiftr crc (bits (mini.WIDTH c) - 8)) p))
              (Z.shiftl (Z.shiftl crc 4) 4)).

(** [cfg_ok] and [is_bytes] as boolean checks. *)
Definition cfg_okb (c : cfg) : bool :=
  is_uintb (WIDTH c) (POLY c) && is_uintb (WIDTH c) (INIT c) && is_uintb (WIDTH c) (XOR_OUT c).

Definition is_bytesb (data : list Z) : bool :=
  forallb (fun b => (0 <=? b) && (b <? 256)) data.

(** A model with [REF_IN != REF_OUT]:
    [crc::parametric<8, 0x07, 0x00, 0xff, false, true>]. *)
Definition crossed_endian_model : cfg :=
  {| WIDTH := W8; POLY := 0x07; INIT := 0x00; XOR_OUT := 0xff;
     REF_IN := false; REF_OUT := true; REF_REG := false |}.

(** *** The derivation of the residue in the words of the specification

    The definitions below follow the text of the specification (its
    glossary and its sections on the kernel and on the residue) on
    integers; they use none of the functions of the source. *)

(** Bit reflection, "reversing the order of bits within a fixed-width
    word (so bit 0 <-> bit width-1)": bit 0 of [v] becomes bit
    [width - 1], and the other bits of [v], reversed within [width - 1]
    bits, stand below it. *)
Fixpoint spec_bit_reverse (width : nat) (v : Z) : Z :=
  match width with
  | O => 0
  | S n =>
      Z.lor (Z.shiftl (Z.b2z (Z.testbit v 0)) (Z.of_nat n))
            (spec_bit_reverse n (Z.shiftr v 1))
  end.

(** One step of the kernel on a register of [width] bits.  Unreflected:
    "if top bit of reg is 1, reg <- (reg << 1) XOR actual_poly; else
    reg <- reg << 1".  Reflected: "if bottom bit of reg is 1,
    reg <- (reg >> 1) XOR actual_poly; else reg <- reg >> 1". *)
Definition spec_kernel_step (reflected : bool) (width : Z) (actual_poly reg : Z) : Z :=
  if reflected then
    if Z.testbit reg 0
    then Z.lxor (Z.shiftr reg 1) actual_poly
    else Z.shiftr reg 1
  else
    if Z.testbit reg (width - 1)
    then Z.lxor (Z.shiftl reg 1) actual_poly mod 2 ^ width
    else Z.shiftl reg 1 mod 2 ^ width.

(** The wide variant: "XOR the word, then iterate width times". *)
Definition spec_kernel_wide (reflected : bool) (width : nat) (actual_poly reg word : Z) : Z :=
  Nat.iter width (spec_kernel_step reflected (Z.of_nat width) actual_poly) (Z.lxor reg word).

(** "actual_poly = poly if !ref_reg else bit-reverse of poly within width
    bits", and the four steps of the derivation: [xor_out], reversed iff
    [ref_reg != ref_out]; the wide update with the word 0; reversed iff
    [ref_reg != ref_in]. *)
Definition residue_derivation (c : cfg) : Z :=
  let width := Z.to_nat (bits (WIDTH c)) in
  let actual_poly := if REF_REG c then spec_bit_reverse width (POLY c) else POLY c in
  let r := XOR_OUT c in
  let r := if xorb (REF_REG c) (REF_OUT c) then spec_bit_reverse width r else r in
  let r := spec_kernel_wide (REF_REG c) width actual_poly r 0 in
  let r := if xorb (REF_REG c) (REF_IN c) then spec_bit_reverse width r else r in
  r.

(** CRC-32/BZIP2 in the mini library. *)
Definition mini_crc32_bzip2 : mini.cfg :=
  {| mini.WIDTH := W32; mini.POLY := 0x04c11db7; mini.INIT := 0xffffffff;
     mini.XOR_OUT := 0xffffffff; mini.REF_IN := false; mini.REF_OUT := false |}.

(** The formula for the residue that [residue_const] keeps in a comment
    (its "optimized version"): the codeword of the empty dataword goes
    through one wide update of the initial register. *)
Definition residue_const_codeword (c : cfg) : Z :=
  let codeword :=
    Z.lxor (ACTUAL_INIT c)
           (conditional_reflect (WIDTH c) (negb (eqb (REF_REG c) (REF_OUT c))) (XOR_OUT c)) in
  let residue := ACTUAL_INIT c in
  let residue := bbb_update_wide (REF_REG c) (WIDTH c) (ACTUAL_POLY c) residue codeword in
  conditional_reflect (WIDTH c) (negb (eqb (REF_REG c) (REF_OUT c))) residue.

(** * More of the source *)

(** ** The catalogue: the namespaces [crc8], [crc16], [crc32] and [crc64] *)

(** The models besides the seven above, with the parameters of the
    catalogue; [REF_OUT] and [REF_REG] take their defaults. *)
Definition crc8_rohc := parametric W8 0x07 0xff 0x00 true.
Definition crc8_i_432_1 := parametric W8 0x07 0x00 0x55 false.
Definition crc8_tech_3250 := parametric W8 0x1d 0xff 0x00 true.
Definition crc8_gsm_a := parametric W8 0x1d 0x00 0x00 false.
Definition crc8_mifare_mad := parametric W8 0x1d 0xc7 0x00 false.
Definition crc8_i_code := parametric W8 0x1d 0xfd 0x00 false.
Definition crc8_hitag := parametric W8 0x1d 0xff 0x00 false.
Definition crc8_opensafety := parametric W8 0x2f 0x00 0x00 false.
Definition crc8_autosar := parametric W8 0x2f 0xff 0xff false.
Definition crc8_maxim_dow := parametric W8 0x31 0x00 0x00 true.
Definition crc8_nrsc_5 := parametric W8 0x31 0xff 0x00 false.
Definition crc8_darc := parametric W8 0x39 0x00 0x00 true.
Definition crc8_gsm_b := parametric W8 0x49 0x00 0xff false.
Definition crc8_wcdma := parametric W8 0x9b 0x00 0x00 true.
Definition crc8_lte := parametric W8 0x9b 0x00 0x00 false.
Definition crc8_cdma2000 := parametric W8 0x9b 0xff 0x00 false.
Definition crc8_bluetooth := parametric W8 0xa7 0x00 0x00 true.
Definition crc8_dvb_s2 := parametric W8 0xd5 0x00 0x00 false.
Definition crc16_dect_x := parametric W16 0x0589 0x0000 0x0000 false.
Definition crc16_dect_r := parametric W16 0x0589 0x0000 0x0001 false.
Definition crc16_nrsc_5 := parametric W16 0x080b 0xffff 0x0000 true.
Definition crc16_dnp := parametric W16 0x3d65 0x0000 0xffff true.
Definition crc16_en_13757 := parametric W16 0x3d65 0x0000 0xffff false.
Definition crc16_tms37157 := parametric W16 0x1021 0x89ec 0x0000 true.
Definition crc16_riello := parametric W16 0x1021 0xb2aa 0x0000 true.
Definition crc16_a := parametric W16 0x1021 0xc6c6 0x0000 true.
Definition crc16_mcrf4xx := parametric W16 0x1021 0xffff 0x0000 true.
Definition crc16_xmodem := parametric W16 0x1021 0x0000 0x0000 false.
Definition crc16_gsm := parametric W16 0x1021 0x0000 0xffff false.
Definition crc16_spi_fujitsu := parametric W16 0x1021 0x1d0f 0x0000 false.
Definition crc16_ibm_3740 := parametric W16 0x1021 0xffff 0x0000 false.
Definition crc16_genibus := parametric W16 0x1021 0xffff 0xffff false.
Definition crc16_profibus := parametric W16 0x1dcf 0xffff 0xffff false.
Definition crc16_opensafety_a := parametric W16 0x5935 0x0000 0x0000 false.
Definition crc16_m17 := parametric W16 0x5935 0xffff 0x0000 false.
Definition crc16_lj1200 := parametric W16 0x6f63 0x0000 0x0000 false.
Definition crc16_opensafety_b := parametric W16 0x755b 0x0000 0x0000 false.
Definition crc16_arc := parametric W16 0x8005 0x0000 0x0000 true.
Definition crc16_maxim_dow := parametric W16 0x8005 0x0000 0xffff true.
Definition crc16_modbus := parametric W16 0x8005 0xffff 0x0000 true.
Definition crc16_usb := parametric W16 0x8005 0xffff 0xffff true.
Definition crc16_umts := parametric W16 0x8005 0x0000 0x0000 false.
Definition crc16_dds_110 := parametric W16 0x8005 0x800d 0x0000 false.
Definition crc16_cms := parametric W16 0x8005 0xffff 0x0000 false.
Definition crc16_t10_dif := parametric W16 0x8bb7 0x0000 0x0000 false.
Definition crc16_teledisk := parametric W16 0xa097 0x0000 0x0000 false.
Definition crc16_cdma2000 := parametric W16 0xc867 0xffff 0x0000 false.
Definition crc32_xfer := parametric W32 0x000000af 0x00000000 0x00000000 false.
Definition crc32_jamcrc := parametric W32 0x04c11db7 0xffffffff 0x00000000 true.
Definition crc32_cksum := parametric W32 0x04c11db7 0x00000000 0xffffffff false.
Definition crc32_mpeg2 := parametric W32 0x04c11db7 0xffffffff 0x00000000 false.
Definition crc32_iscsi := parametric W32 0x1edc6f41 0xffffffff 0xffffffff true.
Definition crc32_mef := parametric W32 0x741b8cd7 0xffffffff 0x00000000 true.
Definition crc32_cd_rom_edc := parametric W32 0x8001801b 0x00000000 0x00000000 true.
Definition crc32_aixm := parametric W32 0x814141ab 0x00000000 0x00000000 false.
Definition crc32_base91_d := parametric W32 0xa833982b 0xffffffff 0xffffffff true.
Definition crc32_autosar := parametric W32 0xf4acfb13 0xffffffff 0xffffffff true.
Definition crc64_go_iso := parametric W64 0x000000000000001b 0xffffffffffffffff 0xffffffffffffffff true.
Definition crc64_ms := parametric W64 0x259c84cba6426349 0xffffffffffffffff 0x0000000000000000 true.
Definition crc64_ecma_182 := parametric W64 0x42f0e1eba9ea3693 0x0000000000000000 0x0000000000000000 false.
Definition crc64_we := parametric W64 0x42f0e1eba9ea3693 0xffffffffffffffff 0xffffffffffffffff false.
Definition crc64_redis := parametric W64 0xad93d23594c935a9 0x0000000000000000 0x0000000000000000 true.

(** The list of [TEST_CRC(name, check_value, residue_const)] lines of [main]
    in test.cpp; test_mini.cpp has the same list. *)
Definition TEST_CRC_list : list (cfg * Z * Z) :=
  [(crc8_rohc, 0xd0, 0x00);
   (crc8_i_432_1, 0xa1, 0xac);
   (crc8_smbus, 0xf4, 0x00);
   (crc8_tech_3250, 0x97, 0x00);
   (crc8_gsm_a, 0x37, 0x00);
   (crc8_mifare_mad, 0x99, 0x00);
   (crc8_i_code, 0x7e, 0x00);
   (crc8_hitag, 0xb4, 0x00);
   (crc8_sae_j1850, 0x4b, 0xc4);
   (crc8_opensafety, 0x3e, 0x00);
   (crc8_autosar, 0xdf, 0x42);
   (crc8_maxim_dow, 0xa1, 0x00);
   (crc8_nrsc_5, 0xf7, 0x00);
   (crc8_darc, 0x15, 0x00);
   (crc8_gsm_b, 0x94, 0x53);
   (crc8_wcdma, 0x25, 0x00);
   (crc8_lte, 0xea, 0x00);
   (crc8_cdma2000, 0xda, 0x00);
   (crc8_bluetooth, 0x26, 0x00);
   (crc8_dvb_s2, 0xbc, 0x00);
   (crc16_dect_x, 0x007f, 0x0000);
   (crc16_dect_r, 0x007e, 0x0589);
   (crc16_nrsc_5, 0xa066, 0x0000);
   (crc16_dnp, 0xea82, 0x66c5);
   (crc16_en_13757, 0xc2b7, 0xa366);
   (crc16_kermit, 0x2189, 0x0000);
   (crc16_tms37157, 0x26b1, 0x0000);
   (crc16_riello, 0x63d0, 0x0000);
   (crc16_a, 0xbf05, 0x0000);
   (crc16_mcrf4xx, 0x6f91, 0x0000);
   (crc16_ibm_sdlc, 0x906e, 0xf0b8);
   (crc16_xmodem, 0x31c3, 0x0000);
   (crc16_gsm, 0xce3c, 0x1d0f);
   (crc16_spi_fujitsu, 0xe5cc, 0x0000);
   (crc16_ibm_3740, 0x29b1, 0x0000);
   (crc16_genibus, 0xd64e, 0x1d0f);
   (crc16_profibus, 0xa819, 0xe394);
   (crc16_opensafety_a, 0x5d38, 0x0000);
   (crc16_m17, 0x772b, 0x0000);
   (crc16_lj1200, 0xbdf4, 0x0000);
   (crc16_opensafety_b, 0x20fe, 0x0000);
   (crc16_arc, 0xbb3d, 0x0000);
   (crc16_maxim_dow, 0x44c2, 0xb001);
   (crc16_modbus, 0x4b37, 0x0000);
   (crc16_usb, 0xb4c8, 0xb001);
   (crc16_umts, 0xfee8, 0x0000);
   (crc16_dds_110, 0x9ecf, 0x0000);
   (crc16_cms, 0xaee7, 0x0000);
   (crc16_t10_dif, 0xd0db, 0x0000);
   (crc16_teledisk, 0x0fb3, 0x0000);
   (crc16_cdma2000, 0x4c06, 0x0000);
   (crc32_xfer, 0xbd0be338, 0x00000000);
   (crc32_jamcrc, 0x340bc6d9, 0x00000000);
   (crc32_iso_hdlc, 0xcbf43926, 0xdebb20e3);
   (crc32_cksum, 0x765e7680, 0xc704dd7b);
   (crc32_mpeg2, 0x0376e6e7, 0x00000000);
   (crc32_bzip2, 0xfc891918, 0xc704dd7b);
   (crc32_iscsi, 0xe3069283, 0xb798b438);
   (crc32_mef, 0xd2c22f51, 0x00000000);
   (crc32_cd_rom_edc, 0x6ec2edc4, 0x00000000);
   (crc32_aixm, 0x3010bf7f, 0x00000000);
   (crc32_base91_d, 0x87315576, 0x45270551);
   (crc32_autosar, 0x1697d06a, 0x904cddbf);
   (crc64_go_iso, 0xb90956c775a41001, 0x5300000000000000);
   (crc64_ms, 0x75d4b74f024eceea, 0x0000000000000000);
   (crc64_xz, 0x995dc9bbdf1939fa, 0x49958c9abd7d353f);
   (crc64_ecma_182, 0x6c40df5f0b497347, 0x0000000000000000);
   (crc64_we, 0x62ec59e3f1a4f00a, 0xfcacbebd5931a992);
   (crc64_redis, 0xe9c6d914c4b8d9ca, 0x0000000000000000)].

(** ** The test driver: test.cpp *)

(** [run_one<CRC>(name, check_value, residue_const)] for a model in one of
    the five modes: the number of errors, 0 or 1.  The modes with an
    external table run behind [etb], which holds a default constructed
    table, as [mode_update] does. *)
Definition run_one (c : cfg) (m : mode) (check_value residue_const : Z) : Z :=
  let crc_obj := impl_new c in
  let crc_obj := mode_update c m check_data crc_obj in
  let crc_val := final c crc_obj in
  if negb (crc_val =? to_uint (WIDTH c) check_value) then 1
  else if negb (RESIDUE c =? residue_const) then 1
  else
    let codeword := codeword c check_data crc_val in
    let crc_obj_2 := impl_new c in
    let crc_obj_2 := mode_update c m codeword crc_obj_2 in
    let rc := residue c crc_obj_2 in
    if negb (rc =? residue_const) then 1 else 0.

(** [test_modes<CRC, REFLECTED_CRC_REGISTER>] *)
Definition test_modes (c : cfg) (REFLECTED_CRC_REGISTER : bool)
    (check_value residue_const : Z) : Z :=
  let crc_t := with_REF_REG c REFLECTED_CRC_REGISTER in
  let errors := 0 in
  let errors := errors + run_one crc_t tableless check_value residue_const in
  let errors := errors + run_one crc_t table_based check_value residue_const in
  let errors := errors + run_one crc_t small_table_based check_value residue_const in
  let errors := errors + run_one crc_t ext_table_based check_value residue_const in
  let errors := errors + run_one crc_t ext_small_table_based check_value residue_const in
  errors.

(** The bytes of ["12345"] and of ["6789"]. *)
Definition STR1 : list Z := [0x31; 0x32; 0x33; 0x34; 0x35].
Definition STR2 : list Z := [0x36; 0x37; 0x38; 0x39].

(** [test_constexpr<CRC>(check_value)] *)
Definition test_constexpr (c : cfg) (check_value : Z) : bool :=
  if negb (calculate c updater_table_based check_data =? check_value) then false
  else
    let crc := impl_new c in
    let crc := update c updater_table_based STR1 crc in
    let crc := update c updater_table_based STR2 crc in
    if negb (final c crc =? check_value) then false
    else
      let table := table_type_default updater_ext_small_table_based (TBL_CFG c) in
      let crc := impl_new c in
      let crc := update_ext c updater_ext_small_table_based STR1 table crc in
      let crc := update_ext c updater_ext_small_table_based STR2 table crc in
      if negb (final c crc =? check_value) then false
      else true.

(** The macro [TEST_CRC(name, check_value, residue_const)] of [main]:
    what it adds to [errors]. *)
Definition TEST_CRC (c : cfg) (check_value residue_const : Z) : Z :=
  test_modes c false check_value residue_const
  + test_modes c true check_value residue_const
  + (if negb (test_constexpr c check_value) then 1 else 0).

(** [main] of test.cpp: its exit status. *)
Definition test_main : Z :=
  let errors :=
    fold_left (fun errors '(c, check_value, residue_const) =>
                 errors + TEST_CRC c check_value residue_const)
              TEST_CRC_list 0 in
  if negb (errors =? 0) then 1 else 0.

(** ** The test driver of the mini library: test_mini.cpp *)

(** Conversion between little and big endian values. *)
Definition reverse_bytes8 (v : Z) : Z := v.

Definition reverse_bytes16 (v : Z) : Z :=
  wrap 16 (Z.lor (Z.shiftr v 8) (Z.shiftl v 8)).

Definition reverse_bytes32 (v : Z) : Z :=
  Z.lor (Z.shiftl (reverse_bytes16 (wrap 16 v)) 16)
        (reverse_bytes16 (wrap 16 (Z.shiftr v 16))).

Definition reverse_bytes64 (v : Z) : Z :=
  Z.lor (Z.shiftl (reverse_bytes32 (wrap 32 v)) 32)
        (reverse_bytes32 (wrap 32 (Z.shiftr v 32))).

Definition reverse_bytes (w : width) (v : Z) : Z :=
  match w with
  | W8 => reverse_bytes8 v
  | W16 => reverse_bytes16 v
  | W32 => reverse_bytes32 v
  | W64 => reverse_bytes64 v
  end.

(** The array [codeword] of [test_one]: the nine bytes of ["123456789"]
    and the eight bytes of [cv64], least significant first. *)
Definition test_one_codeword (c : mini.cfg) (check_value : Z) : list Z :=
  let cv_rb :=
    if negb (eqb (mini.REF_IN c) (mini.REF_OUT c))
    then mini.reverse_bits (mini.WIDTH c) check_value
    else check_value in
  let cv64 := if negb (mini.REF_IN c) then reverse_bytes (mini.WIDTH c) cv_rb else cv_rb in
  check_data ++
  [to_uint8 cv64; to_uint8 (Z.shiftr cv64 8); to_uint8 (Z.shiftr cv64 16);
   to_uint8 (Z.shiftr cv64 24); to_uint8 (Z.shiftr cv64 32); to_uint8 (Z.shiftr cv64 40);
   to_uint8 (Z.shiftr cv64 48); to_uint8 (Z.shiftr cv64 56)].

(** [test_one<CRC>(check_value, residue_const)].  Both parameters are of
    type [CRC::value_type]: the call converts its arguments to it. *)
Definition test_one (c : mini.cfg) (check_value residue_const : Z) : bool :=
  let check_value := to_uint (mini.WIDTH c) check_value in
  let residue_const := to_uint (mini.WIDTH c) residue_const in
  if negb (mini.calculate c check_data =? check_value) then false
  else
    let crc := mini.parametric_new c in
    let crc := mini.update c STR1 crc in
    let crc := mini.update c STR2 crc in
    if negb (mini.final c crc =? check_value) then false
    else
      let codeword := test_one_codeword c check_value in
      let crc := mini.parametric_new c in
      let crc :=
        mini.update c (take (Z.to_nat (9 + bits (mini.WIDTH c) / 8)) codeword) crc in
      if negb (mini.residue c crc =? residue_const) then false
      else true.

(** A model of the catalogue of the mini library, which lists the same
    parameters as the catalogue of the full library. *)
Definition mini_model (c : cfg) : mini.cfg :=
  {| mini.WIDTH := WIDTH c; mini.POLY := POLY c; mini.INIT := INIT c;
     mini.XOR_OUT := XOR_OUT c; mini.REF_IN := REF_IN c; mini.REF_OUT := REF_OUT c |}.

(** [main] of test_mini.cpp: its exit status. *)
Definition test_mini_main : Z :=
  let errors :=
    fold_left (fun errors '(c, check_value, residue_const) =>
                 if test_one (mini_model c) check_value residue_const
                 then errors
                 else errors + 1)
              TEST_CRC_list 0 in
  if negb (errors =? 0) then 1 else 0.

(** ** More of the streaming interface *)

(** [impl::update(uint8 b)] and [impl_ext::update(uint8 b, table)] in any
    of the five modes; the modes with an external table are given a
    default constructed table, as in [mode_update]. *)
Definition mode_update_byte (c : cfg) (m : mode) (b : Z) (this : impl) : impl :=
  match m with
  | table_based => update_byte c updater_table_based b this
  | small_table_based => update_byte c updater_small_table_based b this
  | tableless => update_byte c updater_tableless b this
  | ext_table_based =>
      update_byte_ext c updater_ext_table_based b
                      (table_type_default updater_ext_table_based (TBL_CFG c)) this
  | ext_small_table_based =>
      update_byte_ext c updater_ext_small_table_based b
                      (table_type_default updater_ext_small_table_based (TBL_CFG c)) this
  end.

(** ** Checks of the catalogue *)

(** One line [TEST_CRC(name, check_value, residue_const)]: the parameters
    of the model fit its width, its input and output have the same
    endianness, and the listed values are those of [calculate] on
    ["123456789"] and of [RESIDUE]. *)
Definition catalogue_entry_ok (entry : cfg * Z * Z) : bool :=
  let '(c, check_value, residue_const) := entry in
  cfg_okb c && eqb (REF_IN c) (REF_OUT c)
  && (parametric_calculate c check_data =? check_value)
  && (RESIDUE c =? residue_const).

(** * Properties *)

(** ** Ranges and bits *)

Lemma bits_pos (w : width) : 8 <= bits w.
Proof. destruct w; simpl; lia. Qed.

Lemma wrap_range (n x : Z) : 0 <= n -> 0 <= wrap n x < 2 ^ n.
Proof. intros Hn. unfold wrap. apply Z.mod_pos_bound. apply Z.pow_pos_nonneg; lia. Qed.

Lemma wrap_small (n x : Z) : 0 <= x < 2 ^ n -> wrap n x = x.
Proof. intros Hx. unfold wrap. apply Z.mod_small. exact Hx. Qed.

Lemma wrap_testbit (n x i : Z) :
  0 <= n -> Z.testbit (wrap n x) i = (i <? n) && Z.testbit x i.
Proof.
  intros Hn. unfold wrap. destruct (Z.ltb_spec i n) as [Hlt | Hge]; simpl.
  - apply Z.mod_pow2_bits_low. exact Hlt.
  - apply Z.mod_pow2_bits_high. lia.
Qed.

Lemma to_uint_is_uint (w : width) (x : Z) : is_uint w (to_uint w x).
Proof. apply wrap_range. pose proof (bits_pos w). lia. Qed.

Lemma to_uint_small (w : width) (x : Z) : is_uint w x -> to_uint w x = x.
Proof. apply wrap_small. Qed.

Lemma to_uint_testbit (w : width) (x i : Z) :
  Z.testbit (to_uint w x) i = (i <? bits w) && Z.testbit x i.
Proof. apply wrap_testbit. pose proof (bits_pos w). lia. Qed.

Lemma range_testbit_high (n x i : Z) :
  0 <= n -> 0 <= x < 2 ^ n -> n <= i -> Z.testbit x i = false.
Proof.
  intros Hn Hx Hi. rewrite <- (wrap_small n x Hx), wrap_testbit by exact Hn.
  destruct (Z.ltb_spec i n); [lia | reflexivity].
Qed.

Lemma is_uint_testbit_high (w : width) (x i : Z) :
  is_uint w x -> bits w <= i -> Z.testbit x i = false.
Proof. intros Hx Hi. apply (range_testbit_high (bits w)); auto. pose proof (bits_pos w). lia. Qed.

(** A non-negative integer whose bits vanish from [n] on is below [2 ^ n]. *)
Lemma range_of_testbit (n x : Z) :
  0 <= n -> (forall i, n <= i -> Z.testbit x i = false) -> 0 <= x < 2 ^ n.
Proof.
  intros Hn Hbits.
  assert (Hx : x = wrap n x).
  { apply Z.bits_inj'. intros i Hi. rewrite wrap_testbit by exact Hn.
    destruct (Z.ltb_spec i n); simpl; [reflexivity | apply Hbits; lia]. }
  rewrite Hx. apply wrap_range. exact Hn.
Qed.

Lemma is_uint_of_testbit (w : width) (x : Z) :
  (forall i, bits w <= i -> Z.testbit x i = false) -> is_uint w x.
Proof. apply range_of_testbit. pose proof (bits_pos w). lia. Qed.

Lemma is_uint_lxor (w : width) (x y : Z) : is_uint w x -> is_uint w y -> is_uint w (Z.lxor x y).
Proof.
  intros Hx Hy. apply is_uint_of_testbit. intros i Hi.
  rewrite Z.lxor_spec, (is_uint_testbit_high w x), (is_uint_testbit_high w y); auto.
Qed.

Lemma is_uint_shiftr (w : width) (x k : Z) : 0 <= k -> is_uint w x -> is_uint w (Z.shiftr x k).
Proof.
  intros Hk Hx. apply is_uint_of_testbit. intros i Hi.
  pose proof (bits_pos w).
  rewrite Z.shiftr_spec by lia. apply (is_uint_testbit_high w); auto. lia.
Qed.

Lemma is_uintb_spec (w : width) (x : Z) : is_uintb w x = true <-> is_uint w x.
Proof. unfold is_uintb, is_uint. rewrite andb_true_iff, Z.leb_le, Z.ltb_lt. tauto. Qed.

(** Checking a boolean predicate on every integer below a bound. *)
Lemma forall_below (n : nat) (P : Z -> bool) :
  forallb P (map Z.of_nat (seq 0 n)) = true ->
  forall i, 0 <= i < Z.of_nat n -> P i = true.
Proof.
  intros Hall i Hi. rewrite forallb_forall in Hall. apply Hall.
  apply in_map_iff. exists (Z.to_nat i). split; [lia |].
  apply in_seq. lia.
Qed.

(** ** Bit reversal reverses the bits *)

(** One level of the swap pyramid: the blocks of [s] bits selected by
    [mask] change places with their upper neighbours. *)
Lemma swap_level_testbit (n s mask v i : Z) :
  0 <= n -> 0 <= s -> 0 <= i ->
  Z.testbit (wrap n (Z.lor (Z.land (Z.shiftr v s) mask) (Z.shiftl (Z.land v mask) s))) i
  = (i <? n) && ((Z.testbit mask i && Z.testbit v (i + s))
                 || (Z.testbit mask (i - s) && Z.testbit v (i - s))).
Proof.
  intros Hn Hs Hi.
  rewrite wrap_testbit, Z.lor_spec, Z.land_spec, Z.shiftr_spec, Z.shiftl_spec,
    Z.land_spec by lia.
  f_equal. f_equal; apply andb_comm.
Qed.

Lemma swap_level_spec (n s mask v i : Z) :
  0 <= n -> 0 <= s -> 0 <= i < n ->
  swap_level_ok n s mask i = true ->
  Z.testbit (wrap n (Z.lor (Z.land (Z.shiftr v s) mask) (Z.shiftl (Z.land v mask) s))) i
  = Z.testbit v (Z.lxor i s).
Proof.
  intros Hn Hs Hi Hok. rewrite swap_level_testbit by lia.
  unfold swap_level_ok in Hok.
  destruct (Z.ltb_spec i n) as [_ | ?]; [simpl | lia].
  apply andb_true_iff in Hok as [_ Hok].
  destruct (Z.testbit mask i), (Z.testbit mask (i - s)); simpl in *;
    rewrite ?andb_true_r, ?andb_false_r in Hok; try discriminate;
    apply Z.eqb_eq in Hok; rewrite Hok; rewrite ?orb_false_r; reflexivity.
Qed.

Lemma swap_halves_spec (n s v i : Z) :
  0 <= s -> 0 <= i < n -> 0 <= v < 2 ^ n ->
  swap_halves_ok n s i = true ->
  Z.testbit (wrap n (Z.lor (Z.shiftr v s) (Z.shiftl v s))) i = Z.testbit v (Z.lxor i s).
Proof.
  intros Hs Hi Hv Hok.
  rewrite wrap_testbit, Z.lor_spec, Z.shiftr_spec, Z.shiftl_spec by lia.
  destruct (Z.ltb_spec i n) as [_ | ?]; [simpl | lia].
  unfold swap_halves_ok in Hok. apply andb_true_iff in Hok as [_ Hok].
  destruct (Z.ltb_spec i s).
  - apply Z.eqb_eq in Hok. rewrite Hok, (Z.testbit_neg_r v (i - s)) by lia.
    apply orb_false_r.
  - apply andb_true_iff in Hok as [Hj Hhigh]. apply Z.eqb_eq in Hj. apply Z.leb_le in Hhigh.
    rewrite Hj, (range_testbit_high n v (i + s)) by lia. reflexivity.
Qed.

Lemma swap_level_index (n s mask i : Z) :
  swap_level_ok n s mask i = true -> 0 <= Z.lxor i s < n.
Proof.
  unfold swap_level_ok. rewrite !andb_true_iff, Z.leb_le, Z.ltb_lt. tauto.
Qed.

Lemma swap_halves_index (n s i : Z) :
  swap_halves_ok n s i = true -> 0 <= Z.lxor i s < n.
Proof.
  unfold swap_halves_ok. rewrite !andb_true_iff, Z.leb_le, Z.ltb_lt. tauto.
Qed.

(** The proof shared by the three pyramids: [levels] masked levels under
    the exchange of the halves. *)
Ltac reverse_pyramid ok rb n i :=
  let Hok := fresh "Hok" in
  assert (Hok : ok i = true)
    by (apply (forall_below n); [vm_compute; reflexivity | lia]);
  unfold ok in Hok; cbv zeta in Hok;
  repeat (rewrite andb_true_iff in Hok; destruct Hok as [Hok ?]);
  unfold rb; cbv zeta;
  repeat match goal with
         | H : swap_halves_ok _ _ _ = true |- _ =>
             pose proof (swap_halves_index _ _ _ H); revert H
         | H : swap_level_ok _ _ _ _ = true |- _ =>
             pose proof (swap_level_index _ _ _ _ H); revert H
         end;
  intros;
  rewrite swap_halves_spec by (try apply wrap_range; auto; lia);
  repeat (rewrite swap_level_spec by (auto; lia));
  f_equal; apply Z.eqb_eq; assumption.

Lemma reverse_bits64_spec (v i : Z) :
  0 <= i < 64 -> Z.testbit (reverse_bits64 v) i = Z.testbit v (63 - i).
Proof. intros Hi. reverse_pyramid reverse_bits64_ok reverse_bits64 64%nat i. Qed.

Lemma reverse_bits32_spec (v i : Z) :
  0 <= i < 32 -> Z.testbit (reverse_bits32 v) i = Z.testbit v (31 - i).
Proof. intros Hi. reverse_pyramid reverse_bits32_ok reverse_bits32 32%nat i. Qed.

Lemma reverse_bits16_spec (v i : Z) :
  0 <= i < 16 -> Z.testbit (reverse_bits16 v) i = Z.testbit v (15 - i).
Proof. intros Hi. reverse_pyramid reverse_bits16_ok reverse_bits16 16%nat i. Qed.

Lemma reverse_bits8_arith_spec (v i : Z) :
  0 <= i < 8 -> Z.testbit (reverse_bits8_arith v) i = Z.testbit v (7 - i).
Proof. intros Hi. reverse_pyramid reverse_bits8_arith_ok reverse_bits8_arith 8%nat i. Qed.

(** The three provisioning modes of [reverse_bits(uint8)] agree. *)
Lemma reverse_bits8_modes (v : Z) :
  0 <= v < 256 ->
  reverse_bits8 v = reverse_bits8_arith v /\ reverse_bits8_nibble v = reverse_bits8_arith v.
Proof.
  intros Hv.
  pose proof (forall_below 256
    (fun v => (reverse_bits8 v =? reverse_bits8_arith v)
              && (reverse_bits8_nibble v =? reverse_bits8_arith v))) as Hall.
  specialize (Hall ltac:(vm_compute; reflexivity) v ltac:(lia)).
  apply andb_true_iff in Hall. rewrite !Z.eqb_eq in Hall. exact Hall.
Qed.

(** The static table is the table that the constructor fills. *)
Lemma reverse_bits_lookup_table_instance_eq :
  reverse_bits_lookup_table_instance = reverse_bits_lookup_table.
Proof. vm_compute. reflexivity. Qed.

Lemma reverse_bits_is_uint (w : width) (v : Z) :
  is_uint w v -> is_uint w (reverse_bits w v).
Proof.
  intros Hv. destruct w; simpl.
  - destruct (reverse_bits8_modes v Hv) as [-> _]. apply (wrap_range 8). lia.
  - apply (wrap_range 16). lia.
  - apply (wrap_range 32). lia.
  - apply (wrap_range 64). lia.
Qed.

(** [reverse_bits] exchanges bit [i] and bit [WIDTH - 1 - i]. *)
Lemma reverse_bits_testbit (w : width) (v i : Z) :
  is_uint w v -> 0 <= i ->
  Z.testbit (reverse_bits w v) i = (i <? bits w) && Z.testbit v (bits w - 1 - i).
Proof.
  intros Hv Hi. destruct (Z.ltb_spec i (bits w)) as [Hlt | Hge]; simpl.
  - destruct w; simpl in *.
    + destruct (reverse_bits8_modes v Hv) as [-> _]. apply reverse_bits8_arith_spec. lia.
    + apply reverse_bits16_spec. lia.
    + apply reverse_bits32_spec. lia.
    + apply reverse_bits64_spec. lia.
  - apply (is_uint_testbit_high w); [apply reverse_bits_is_uint; exact Hv | exact Hge].
Qed.

(** Two values of [uint<WIDTH>] with the same bits are equal. *)
Lemma uint_bits_eq (w : width) (x y : Z) :
  is_uint w x -> is_uint w y ->
  (forall i, 0 <= i < bits w -> Z.testbit x i = Z.testbit y i) -> x = y.
Proof.
  intros Hx Hy Hbits. apply Z.bits_inj'. intros i Hi.
  destruct (Z.ltb_spec i (bits w)).
  - apply Hbits. lia.
  - rewrite (is_uint_testbit_high w x), (is_uint_testbit_high w y); auto.
Qed.

Lemma reverse_bits_involutive (w : width) (v : Z) :
  is_uint w v -> reverse_bits w (reverse_bits w v) = v.
Proof.
  intros Hv. apply (uint_bits_eq w); auto using reverse_bits_is_uint.
  intros i Hi. rewrite !reverse_bits_testbit by (auto using reverse_bits_is_uint; lia).
  destruct (Z.ltb_spec i (bits w)); [| lia].
  destruct (Z.ltb_spec (bits w - 1 - i) (bits w)); [| lia].
  simpl. f_equal. lia.
Qed.

Lemma reverse_bits_lxor (w : width) (x y : Z) :
  is_uint w x -> is_uint w y ->
  reverse_bits w (Z.lxor x y) = Z.lxor (reverse_bits w x) (reverse_bits w y).
Proof.
  intros Hx Hy.
  apply (uint_bits_eq w); auto using reverse_bits_is_uint, is_uint_lxor.
  intros i Hi. rewrite Z.lxor_spec.
  rewrite !reverse_bits_testbit by (auto using is_uint_lxor; lia).
  rewrite Z.lxor_spec. destruct (i <? bits w); reflexivity.
Qed.

Lemma conditional_reflect_is_uint (w : width) (cond : bool) (v : Z) :
  is_uint w v -> is_uint w (conditional_reflect w cond v).
Proof. destruct cond; simpl; auto using reverse_bits_is_uint. Qed.

(** ** The shift register *)

Lemma for_loop_iter {S : Type} (f : S -> S) (trips : nat) (i : Z) (s : S) :
  for_loop trips i (fun _ s => f s) s = Nat.iter trips f s.
Proof.
  revert i s. induction trips as [| trips IH]; intros i s; simpl; [reflexivity |].
  rewrite IH. symmetry. apply (Nat.iter_succ_r trips f s).
Qed.

Lemma for_range_iter {S : Type} (f : S -> S) (lo hi : Z) (s : S) :
  for_range lo hi (fun _ s => f s) s = Nat.iter (Z.to_nat (hi - lo)) f s.
Proof. apply for_loop_iter. Qed.

Lemma land_bit_eqb (x k : Z) :
  0 <= k -> (Z.land x (Z.shiftl 1 k) =? 0) = negb (Z.testbit x k).
Proof.
  intros Hk. rewrite Z.shiftl_1_l.
  destruct (Z.testbit x k) eqn:Hbit; simpl.
  - apply Z.eqb_neq. intros Hzero.
    assert (Hk' : Z.testbit (Z.land x (2 ^ k)) k = true)
      by (rewrite Z.land_spec, Hbit, Z.pow2_bits_true by lia; reflexivity).
    rewrite Hzero, Z.bits_0 in Hk'. discriminate.
  - apply Z.eqb_eq. apply Z.bits_inj'. intros i Hi.
    rewrite Z.land_spec, Z.bits_0, Z.pow2_bits_eqb by lia.
    destruct (Z.eqb_spec k i) as [<- | _]; [rewrite Hbit |]; auto using andb_false_r.
Qed.

Lemma land_1_eqb (x : Z) : (Z.land x 1 =? 0) = negb (Z.testbit x 0).
Proof. apply (land_bit_eqb x 0). lia. Qed.

Lemma MSB_MASK_eqb (w : width) (x : Z) :
  (Z.land x (MSB_MASK w) =? 0) = negb (Z.testbit x (bits w - 1)).
Proof. apply land_bit_eqb. pose proof (bits_pos w). lia. Qed.

(** The bits of the register after one step: every bit moves by one place
    and the bit that falls out selects the polynomial. *)
Lemma shift_register_testbit (REF : bool) (w : width) (poly crc i : Z) :
  0 <= i ->
  Z.testbit (shift_register REF w poly crc) i =
  if REF
  then xorb (Z.testbit crc (i + 1)) (Z.testbit crc 0 && Z.testbit poly i)
  else (i <? bits w)
       && xorb (Z.testbit crc (i - 1)) (Z.testbit crc (bits w - 1) && Z.testbit poly i).
Proof.
  intros Hi. unfold shift_register. destruct REF.
  - rewrite land_1_eqb, negb_involutive.
    destruct (Z.testbit crc 0); simpl;
      rewrite ?Z.lxor_spec, Z.shiftr_spec by lia; [reflexivity | apply eq_sym, xorb_false_r].
  - rewrite MSB_MASK_eqb, negb_involutive.
    destruct (Z.testbit crc (bits w - 1)); simpl;
      rewrite to_uint_testbit, ?Z.lxor_spec, Z.shiftl_spec by lia;
      [reflexivity | rewrite xorb_false_r; reflexivity].
Qed.

Lemma shift_register_is_uint (REF : bool) (w : width) (poly crc : Z) :
  is_uint w poly -> is_uint w crc -> is_uint w (shift_register REF w poly crc).
Proof.
  intros Hpoly Hcrc. apply is_uint_of_testbit. intros i Hi.
  pose proof (bits_pos w).
  rewrite shift_register_testbit by lia. destruct REF.
  - rewrite (is_uint_testbit_high w crc (i + 1)), (is_uint_testbit_high w poly i) by (auto; lia).
    rewrite andb_false_r. reflexivity.
  - destruct (Z.ltb_spec i (bits w)); [lia | reflexivity].
Qed.

(** The step is linear over exclusive or. *)
Lemma shift_register_lxor (REF : bool) (w : width) (poly x y : Z) :
  is_uint w poly -> is_uint w x -> is_uint w y ->
  shift_register REF w poly (Z.lxor x y) =
  Z.lxor (shift_register REF w poly x) (shift_register REF w poly y).
Proof.
  intros Hpoly Hx Hy.
  apply (uint_bits_eq w);
    auto using shift_register_is_uint, is_uint_lxor.
  intros i Hi. rewrite Z.lxor_spec, !shift_register_testbit, !Z.lxor_spec by lia.
  destruct REF.
  - destruct (Z.testbit x (i + 1)), (Z.testbit y (i + 1)), (Z.testbit x 0),
      (Z.testbit y 0), (Z.testbit poly i); reflexivity.
  - destruct (i <? bits w), (Z.testbit x (i - 1)), (Z.testbit y (i - 1)),
      (Z.testbit x (bits w - 1)), (Z.testbit y (bits w - 1)), (Z.testbit poly i);
      reflexivity.
Qed.

(** The reflected register mirrors the unreflected one. *)
Lemma shift_register_reverse (w : width) (poly crc : Z) :
  is_uint w poly -> is_uint w crc ->
  reverse_bits w (shift_register false w poly crc) =
  shift_register true w (reverse_bits w poly) (reverse_bits w crc).
Proof.
  intros Hpoly Hcrc. pose proof (bits_pos w).
  apply (uint_bits_eq w);
    auto using shift_register_is_uint, reverse_bits_is_uint.
  intros i Hi.
  rewrite reverse_bits_testbit by (auto using shift_register_is_uint; lia).
  rewrite !shift_register_testbit by lia.
  rewrite !reverse_bits_testbit by (auto; lia).
  destruct (Z.ltb_spec i (bits w)); [| lia].
  destruct (Z.ltb_spec (bits w - 1 - i) (bits w)); [| lia].
  destruct (Z.ltb_spec 0 (bits w)); [| lia].
  rewrite Z.sub_0_r. simpl.
  replace (bits w - 1 - i - 1) with (bits w - 1 - (i + 1)) by lia.
  destruct (Z.ltb_spec (i + 1) (bits w)); simpl; [reflexivity |].
  rewrite (Z.testbit_neg_r crc) by lia. reflexivity.
Qed.

(** *** Iterated steps *)

Lemma shift_register_n_S (REF : bool) (w : width) (poly : Z) (n : nat) (crc : Z) :
  shift_register_n REF w poly (S n) crc =
  shift_register REF w poly (shift_register_n REF w poly n crc).
Proof. reflexivity. Qed.

Lemma shift_register_n_is_uint (REF : bool) (w : width) (poly : Z) (n : nat) (crc : Z) :
  is_uint w poly -> is_uint w crc -> is_uint w (shift_register_n REF w poly n crc).
Proof.
  intros Hpoly Hcrc. induction n as [| n IH]; [exact Hcrc |].
  rewrite shift_register_n_S. apply shift_register_is_uint; assumption.
Qed.

Lemma shift_register_n_lxor (REF : bool) (w : width) (poly : Z) (n : nat) (x y : Z) :
  is_uint w poly -> is_uint w x -> is_uint w y ->
  shift_register_n REF w poly n (Z.lxor x y) =
  Z.lxor (shift_register_n REF w poly n x) (shift_register_n REF w poly n y).
Proof.
  intros Hpoly Hx Hy. induction n as [| n IH]; [reflexivity |].
  rewrite !shift_register_n_S, IH.
  apply shift_register_lxor; auto; apply shift_register_n_is_uint; auto.
Qed.

Lemma shift_register_n_reverse (w : width) (poly : Z) (n : nat) (crc : Z) :
  is_uint w poly -> is_uint w crc ->
  reverse_bits w (shift_register_n false w poly n crc) =
  shift_register_n true w (reverse_bits w poly) n (reverse_bits w crc).
Proof.
  intros Hpoly Hcrc. induction n as [| n IH]; [reflexivity |].
  rewrite !shift_register_n_S, <- IH.
  apply shift_register_reverse; auto. apply shift_register_n_is_uint; auto.
Qed.

Lemma shift_register_n_add (REF : bool) (w : width) (poly : Z) (n m : nat) (crc : Z) :
  shift_register_n REF w poly (n + m) crc =
  shift_register_n REF w poly n (shift_register_n REF w poly m crc).
Proof. apply Nat.iter_add. Qed.

(** While the bits that fall out are zero the unreflected register only
    shifts. *)
Lemma shift_register_n_unreflected_small (w : width) (poly : Z) (n : nat) (x : Z) :
  Z.of_nat n <= bits w -> 0 <= x < 2 ^ (bits w - Z.of_nat n) ->
  shift_register_n false w poly n x = Z.shiftl x (Z.of_nat n).
Proof.
  revert x. induction n as [| n IH]; intros x Hn Hx; [reflexivity |].
  unfold shift_register_n in *.
  rewrite Nat.iter_succ_r.
  assert (Hstep : shift_register false w poly x = Z.shiftl x 1).
  { unfold shift_register. rewrite MSB_MASK_eqb, negb_involutive.
    rewrite (range_testbit_high (bits w - Z.of_nat (S n)) x) by lia.
    apply wrap_small. rewrite Z.shiftl_mul_pow2 by lia.
    replace (2 ^ bits w) with (2 ^ (bits w - Z.of_nat (S n)) * 2 ^ Z.of_nat (S n))
      by (rewrite <- Z.pow_add_r by lia; f_equal; lia).
    assert (2 ^ 1 <= 2 ^ Z.of_nat (S n)) by (apply Z.pow_le_mono_r; lia).
    nia. }
  rewrite Hstep, IH.
  - rewrite Z.shiftl_shiftl by lia. f_equal. lia.
  - lia.
  - rewrite Z.shiftl_mul_pow2 by lia.
    replace (bits w - Z.of_nat n) with (bits w - Z.of_nat (S n) + 1) by lia.
    rewrite Z.pow_add_r by lia. lia.
Qed.

(** While the bits that fall out are zero the reflected register only
    shifts. *)
Lemma shift_register_n_reflected_low (w : width) (poly : Z) (n : nat) (y : Z) :
  shift_register_n true w poly n (Z.shiftl y (Z.of_nat n)) = y.
Proof.
  revert y. induction n as [| n IH]; intros y; [apply Z.shiftl_0_r |].
  unfold shift_register_n in *. rewrite Nat.iter_succ_r.
  replace (Z.shiftl y (Z.of_nat (S n))) with (Z.shiftl (Z.shiftl y (Z.of_nat n)) 1)
    by (rewrite Z.shiftl_shiftl by lia; f_equal; lia).
  assert (Hstep : forall z, shift_register true w poly (Z.shiftl z 1) = z).
  { intros z. unfold shift_register. rewrite land_1_eqb, negb_involutive.
    rewrite Z.shiftl_spec, Z.testbit_neg_r by lia. simpl.
    rewrite Z.shiftr_shiftl_l by lia. apply Z.shiftl_0_r. }
  rewrite Hstep. apply IH.
Qed.

(** ** Table generation *)

Lemma byte_in_is_uint (REF : bool) (w : width) (b : Z) :
  0 <= b < 256 -> is_uint w (byte_in REF w b).
Proof.
  intros Hb. pose proof (bits_pos w). apply is_uint_of_testbit. intros i Hi.
  unfold byte_in. destruct REF.
  - apply (range_testbit_high 8); lia.
  - rewrite Z.shiftl_spec by lia. apply (range_testbit_high 8); lia.
Qed.

Lemma byte_in_lxor (REF : bool) (w : width) (a b : Z) :
  byte_in REF w (Z.lxor a b) = Z.lxor (byte_in REF w a) (byte_in REF w b).
Proof. unfold byte_in. destruct REF; [reflexivity | apply Z.shiftl_lxor]. Qed.

Lemma bbb_update_eq (REF : bool) (w : width) (poly crc b k : Z) :
  is_uint w crc -> 0 <= b < 256 ->
  bbb_update REF w poly crc b k =
  shift_register_n REF w poly (Z.to_nat k) (Z.lxor crc (byte_in REF w b)).
Proof.
  intros Hcrc Hb. unfold bbb_update. rewrite for_range_iter, Z.sub_0_r.
  unfold shift_register_n, byte_in. destruct REF; [reflexivity |].
  rewrite to_uint_small; [reflexivity |].
  apply is_uint_lxor; [exact Hcrc | apply (byte_in_is_uint false w b Hb)].
Qed.

Lemma is_uint_0 (w : width) : is_uint w 0.
Proof. unfold is_uint. pose proof (bits_pos w). split; [lia | apply Z.pow_pos_nonneg; lia]. Qed.

Lemma lxor_byte_range (a b : Z) : 0 <= a < 256 -> 0 <= b < 256 -> 0 <= Z.lxor a b < 256.
Proof.
  intros Ha Hb. apply (range_of_testbit 8); [lia |]. intros i Hi.
  rewrite Z.lxor_spec, (range_testbit_high 8 a), (range_testbit_high 8 b) by lia.
  reflexivity.
Qed.

(** A table entry is the register after the byte [index] went through a
    register that held zero. *)
Lemma table_entry_eq (REF : bool) (w : width) (poly index : Z) :
  0 <= index < 256 ->
  table_entry REF w poly index 0 = shift_register_n REF w poly 8 (byte_in REF w index).
Proof.
  intros Hi. unfold table_entry.
  assert (Hin : to_uint8 (if REF then Z.shiftr index 0 else Z.shiftl index 0) = index).
  { rewrite Z.shiftr_0_r, Z.shiftl_0_r. destruct REF; apply wrap_small; lia. }
  rewrite Hin, bbb_update_eq by (auto using is_uint_0).
  rewrite Z.lxor_0_l. reflexivity.
Qed.

Lemma table_entry_is_uint (REF : bool) (w : width) (poly index : Z) :
  is_uint w poly -> 0 <= index < 256 -> is_uint w (table_entry REF w poly index 0).
Proof.
  intros Hpoly Hi. rewrite table_entry_eq by exact Hi.
  apply shift_register_n_is_uint; auto using byte_in_is_uint.
Qed.

(** [table[i xor j] == table[i] xor table[j]] *)
Lemma table_entry_lxor (REF : bool) (w : width) (poly i j : Z) :
  is_uint w poly -> 0 <= i < 256 -> 0 <= j < 256 ->
  table_entry REF w poly (Z.lxor i j) 0 =
  Z.lxor (table_entry REF w poly i 0) (table_entry REF w poly j 0).
Proof.
  intros Hpoly Hi Hj.
  rewrite !table_entry_eq by auto using lxor_byte_range.
  rewrite byte_in_lxor. apply shift_register_n_lxor; auto using byte_in_is_uint.
Qed.

(** The four steps that [table_entry] skips in the first row of an
    unreflected table only shift zeros out. *)
Lemma table_entry_skip_unreflected (w : width) (poly i : Z) :
  0 <= i < 16 -> table_entry false w poly i 4 = table_entry false w poly i 0.
Proof.
  intros Hi. pose proof (bits_pos w).
  rewrite table_entry_eq by lia. unfold table_entry.
  assert (Hb : to_uint8 (Z.shiftl i 4) = Z.shiftl i 4).
  { apply wrap_small. rewrite Z.shiftl_mul_pow2 by lia. lia. }
  rewrite Hb, bbb_update_eq; auto using is_uint_0.
  2: { rewrite Z.shiftl_mul_pow2 by lia. lia. }
  rewrite Z.lxor_0_l.
  change (Z.to_nat (to_uint8 (8 - 4))) with 4%nat.
  change 8%nat with (4 + 4)%nat. rewrite shift_register_n_add.
  f_equal. unfold byte_in.
  rewrite shift_register_n_unreflected_small.
  - rewrite !Z.shiftl_shiftl by lia. f_equal. lia.
  - lia.
  - rewrite Z.shiftl_mul_pow2 by lia.
    replace (bits w - Z.of_nat 4) with (4 + (bits w - 8)) by lia.
    rewrite Z.pow_add_r by lia.
    assert (0 < 2 ^ (bits w - 8)) by (apply Z.pow_pos_nonneg; lia). nia.
Qed.

(** The four steps that [table_entry] skips in the first column of a
    reflected table only shift zeros out. *)
Lemma table_entry_skip_reflected (w : width) (poly k : Z) :
  0 <= k < 16 ->
  table_entry true w poly (Z.shiftl k 4) 4 = table_entry true w poly (Z.shiftl k 4) 0.
Proof.
  intros Hk.
  assert (Hrange : 0 <= Z.shiftl k 4 < 256) by (rewrite Z.shiftl_mul_pow2 by lia; lia).
  rewrite table_entry_eq by exact Hrange. unfold table_entry.
  rewrite Z.shiftr_shiftl_l, Z.sub_diag, Z.shiftl_0_r by lia.
  assert (Hb : to_uint8 k = k) by (apply wrap_small; lia).
  rewrite Hb, bbb_update_eq by (auto using is_uint_0; lia).
  rewrite Z.lxor_0_l.
  change (Z.to_nat (to_uint8 (8 - 4))) with 4%nat.
  change 8%nat with (4 + 4)%nat. rewrite shift_register_n_add.
  f_equal. unfold byte_in. symmetry.
  apply (shift_register_n_reflected_low w poly 4 k).
Qed.

Lemma generate_table_shape (REF : bool) (w : width) (poly : Z) :
  generate_table REF w poly (replicate 256 0) =
  table_shape REF w poly <$> seqZ 0 256.
Proof.
  destruct REF; cbv -[table_entry]; reflexivity.
Qed.

Lemma lookup_total_fmap_seqZ (f : Z -> Z) (n i : Z) :
  0 <= i < n -> (f <$> seqZ 0 n) !!! Z.to_nat i = f i.
Proof.
  intros Hi. apply list_lookup_total_correct.
  rewrite list_lookup_fmap, lookup_seqZ_lt by lia. simpl. f_equal. f_equal. lia.
Qed.

Lemma generate_small_table_shape (REF : bool) (w : width) (poly : Z) :
  generate_small_table REF w poly (replicate 16 0) (replicate 16 0) =
  (row_shape REF w poly <$> seqZ 0 16, column_shape REF w poly <$> seqZ 0 16).
Proof.
  destruct REF; cbv -[table_entry]; reflexivity.
Qed.

Lemma nibbles (b : Z) :
  0 <= b < 256 ->
  let i := Z.land b 0xf in
  let k := Z.shiftr b 4 in
  0 <= i < 16 /\ 0 <= k < 16 /\ Z.lxor (Z.shiftl k 4) i = b /\ Z.shiftl k 4 < 256
  /\ (b =? 0) = (i =? 0) && (k =? 0) /\ (b <? 16) = (k =? 0) /\ (k = 0 -> i = b).
Proof.
  intros Hb.
  pose proof (forall_below 256 nibbles_ok ltac:(vm_compute; reflexivity) b ltac:(lia)) as Hok.
  unfold nibbles_ok in Hok. cbv zeta in *.
  repeat (rewrite andb_true_iff in Hok; destruct Hok as [Hok ?]).
  repeat match goal with
         | H : eqb _ _ = true |- _ => apply eqb_prop in H
         | H : (_ <=? _) = true |- _ => apply Z.leb_le in H
         | H : (_ <? _) = true |- _ => apply Z.ltb_lt in H
         | H : (_ =? _) = true |- _ => apply Z.eqb_eq in H
         end.
  repeat split; try assumption.
  intros Hk. rewrite Hk in *. simpl in *. apply Z.eqb_eq. assumption.
Qed.

(** *** Small table <-> full table *)

Lemma small_table_entry (REF : bool) (w : width) (poly b : Z) :
  0 <= b < 256 ->
  Z.lxor (row_shape REF w poly (Z.land b 0xf)) (column_shape REF w poly (Z.shiftr b 4))
  = table_shape REF w poly b.
Proof.
  intros Hb. destruct (nibbles b Hb) as (Hi & Hk & Hsplit & _ & Hzero & Hlow & Hrow).
  unfold row_shape, column_shape, table_shape. cbv zeta.
  rewrite Hzero, Hlow.
  destruct (Z.eqb_spec (Z.shiftr b 4) 0) as [Hk0 | Hk0].
  - rewrite andb_true_r, (Hrow Hk0).
    destruct (b =? 0); [reflexivity | apply Z.lxor_0_r].
  - rewrite andb_false_r.
    destruct (Z.land b 0xf =? 0); [apply Z.lxor_0_l | apply Z.lxor_comm].
Qed.

(** Every entry of the generated table is the [table_entry] of its index. *)
Lemma table_shape_entry (REF : bool) (w : width) (poly b : Z) :
  is_uint w poly -> 0 <= b < 256 ->
  table_shape REF w poly b = table_entry REF w poly b 0.
Proof.
  intros Hpoly Hb. destruct (nibbles b Hb) as (Hi & Hk & Hsplit & Hhigh & Hzero & Hlow & Hrow).
  assert (Hk' : 0 <= Z.shiftl (Z.shiftr b 4) 4 < 256)
    by (split; [apply Z.shiftl_nonneg; lia | exact Hhigh]).
  assert (Hfirst : forall i, 0 <= i < 16 ->
            table_entry REF w poly i (if REF then 0 else 4) = table_entry REF w poly i 0).
  { intros i Hi'. destruct REF; [reflexivity | apply table_entry_skip_unreflected, Hi']. }
  assert (Hrest : forall k, 0 <= k < 16 ->
            table_entry REF w poly (Z.shiftl k 4) (if REF then 4 else 0)
            = table_entry REF w poly (Z.shiftl k 4) 0).
  { intros k Hk''. destruct REF; [apply table_entry_skip_reflected, Hk'' | reflexivity]. }
  unfold table_shape. cbv zeta.
  destruct (Z.eqb_spec b 0) as [-> | Hb0].
  { rewrite table_entry_eq by lia.
    replace (byte_in REF w 0) with 0
      by (unfold byte_in; destruct REF; [reflexivity | symmetry; apply Z.shiftl_0_l]).
    rewrite <- (Z.lxor_nilpotent 0) at 2.
    rewrite shift_register_n_lxor by auto using is_uint_0.
    symmetry. apply Z.lxor_nilpotent. }
  rewrite Hlow.
  destruct (Z.eqb_spec (Z.shiftr b 4) 0) as [Hk0 | Hk0].
  { apply Hfirst. rewrite <- (Hrow Hk0). exact Hi. }
  rewrite Hrest, Hfirst by assumption.
  destruct (Z.eqb_spec (Z.land b 0xf) 0) as [Hi0 | Hi0].
  - rewrite Hi0, Z.lxor_0_r in Hsplit. rewrite Hsplit. reflexivity.
  - rewrite <- table_entry_lxor by (auto; lia). rewrite Hsplit. reflexivity.
Qed.

Lemma generate_table_lookup (REF : bool) (w : width) (poly b : Z) :
  is_uint w poly -> 0 <= b < 256 ->
  generate_table REF w poly (replicate 256 0) !!! Z.to_nat b = table_entry REF w poly b 0.
Proof.
  intros Hpoly Hb.
  rewrite generate_table_shape, lookup_total_fmap_seqZ by exact Hb.
  apply table_shape_entry; assumption.
Qed.

Lemma to_uint8_small (b : Z) : 0 <= b < 256 -> to_uint8 b = b.
Proof. apply (wrap_small 8). Qed.

(** The two table representations, read through their subscript
    operators. *)
Lemma table_subscript (c : tbl_cfg) (b : Z) :
  is_uint (tbl_WIDTH c) (tbl_ACTUAL_POLY c) -> 0 <= b < 256 ->
  subscript (table c) b
  = table_entry (tbl_REF_REG c) (tbl_WIDTH c) (tbl_ACTUAL_POLY c) b 0.
Proof.
  intros Hpoly Hb. unfold subscript, basic_table_subscript, table, table_generate. simpl.
  rewrite to_uint8_small by exact Hb. apply generate_table_lookup; assumption.
Qed.

Lemma small_table_subscript (c : tbl_cfg) (b : Z) :
  is_uint (tbl_WIDTH c) (tbl_ACTUAL_POLY c) -> 0 <= b < 256 ->
  subscript (small_table c) b
  = table_entry (tbl_REF_REG c) (tbl_WIDTH c) (tbl_ACTUAL_POLY c) b 0.
Proof.
  intros Hpoly Hb.
  destruct (nibbles b Hb) as (Hi & Hk & _).
  unfold subscript, basic_small_table_subscript, small_table, small_table_generate.
  cbv beta iota zeta delta [first_row first_column].
  rewrite generate_small_table_shape.
  rewrite to_uint8_small by exact Hb.
  rewrite !lookup_total_fmap_seqZ by assumption.
  rewrite small_table_entry by exact Hb.
  apply table_shape_entry; assumption.
Qed.

(** ** Table-driven update = bit-by-bit update *)

(** Bitwise equality of two integers, decided bit by bit. *)
Ltac bitwise :=
  let i := fresh "i" in
  let Hi := fresh "Hi" in
  apply Z.bits_inj'; intros i Hi;
  repeat first
    [ rewrite to_uint_testbit
    | rewrite wrap_testbit by lia
    | rewrite Z.lxor_spec
    | rewrite Z.land_spec
    | rewrite Z.lor_spec
    | rewrite Z.shiftl_spec by lia
    | rewrite Z.shiftr_spec by lia ].

Lemma land_0xff (x : Z) : Z.land x 0xff = wrap 8 x.
Proof. change 0xff with (Z.ones 8). apply Z.land_ones. lia. Qed.

Lemma width_cases (w : width) :
  IS_UINT8 w = true /\ bits w = 8 \/ IS_UINT8 w = false /\ 16 <= bits w.
Proof. destruct w; simpl; auto with zarith. Qed.

Section TableStep.
Context {TABLE : Type} `{Subscript TABLE}.
Variables (REF : bool) (w : width) (poly : Z) (table : TABLE).
Hypothesis Hpoly : is_uint w poly.
Hypothesis Htable :
  forall i, 0 <= i < 256 -> subscript table i = table_entry REF w poly i 0.

Lemma table_based_crc_updater_eq (crc b : Z) :
  is_uint w crc -> 0 <= b < 256 ->
  table_based_crc_updater REF w crc b table = bbb_update REF w poly crc b 8.
Proof using Hpoly Htable.
  intros Hcrc Hb. pose proof (bits_pos w) as Hw.
  rewrite bbb_update_eq by assumption. change (Z.to_nat 8) with 8%nat.
  unfold table_based_crc_updater.
  destruct (width_cases w) as [[-> Hbits] | [-> Hbits]].
  - (* sizeof(T) == 1 *)
    assert (Hcrc' : 0 <= crc < 256) by (unfold is_uint in Hcrc; rewrite Hbits in Hcrc; lia).
    rewrite Htable, table_entry_eq by auto using lxor_byte_range.
    rewrite byte_in_lxor.
    replace (byte_in REF w crc) with crc; [reflexivity |].
    unfold byte_in. destruct REF; [reflexivity |].
    rewrite Hbits. symmetry. apply Z.shiftl_0_r.
  - destruct REF.
    + (* reflected register *)
      rewrite land_0xff.
      assert (Hlow : 0 <= wrap 8 crc < 256) by (apply (wrap_range 8); lia).
      rewrite Htable, table_entry_eq by auto using lxor_byte_range.
      unfold byte_in.
      assert (Hsplit : Z.lxor crc b
                       = Z.lxor (Z.lxor (wrap 8 crc) b) (Z.shiftl (Z.shiftr crc 8) 8)).
      { bitwise. destruct (Z.ltb_spec i 8); simpl.
        - rewrite (Z.testbit_neg_r _ (i - 8)), xorb_false_r by lia. reflexivity.
        - rewrite Z.shiftr_spec by lia.
          replace (i - 8 + 8) with i by lia. apply xorb_comm. }
      rewrite Hsplit at 1.
      assert (Hhigh : is_uint w (Z.shiftl (Z.shiftr crc 8) 8)).
      { apply is_uint_of_testbit. intros i Hi.
        rewrite Z.shiftl_spec, Z.shiftr_spec by lia.
        replace (i - 8 + 8) with i by lia. apply (is_uint_testbit_high w); assumption. }
      assert (Hlow' : is_uint w (Z.lxor (wrap 8 crc) b)).
      { apply (byte_in_is_uint true w (Z.lxor (wrap 8 crc) b)).
        apply lxor_byte_range; assumption. }
      rewrite (shift_register_n_lxor true w poly 8 _ _ Hpoly Hlow' Hhigh).
      rewrite (shift_register_n_reflected_low w poly 8). reflexivity.
    + (* unreflected register *)
      assert (Htop : 0 <= Z.shiftr crc (bits w - 8) < 256).
      { apply (range_of_testbit 8); [lia |]. intros i Hi.
        rewrite Z.shiftr_spec by lia. apply (is_uint_testbit_high w); [assumption | lia]. }
      rewrite Htable, table_entry_eq by auto using lxor_byte_range.
      set (idx := Z.lxor (Z.shiftr crc (bits w - 8)) b).
      assert (Hidx : 0 <= idx < 256) by (apply lxor_byte_range; assumption).
      unfold byte_in.
      assert (Hsplit : Z.lxor crc (Z.shiftl b (bits w - 8))
                       = Z.lxor (Z.shiftl idx (bits w - 8)) (wrap (bits w - 8) crc)).
      { unfold idx. bitwise.
        destruct (Z.ltb_spec i (bits w - 8)); simpl.
        - rewrite !(Z.testbit_neg_r _ (i - (bits w - 8))) by lia.
          rewrite xorb_false_r, xorb_false_l. reflexivity.
        - rewrite Z.shiftr_spec by lia.
          replace (i - (bits w - 8) + (bits w - 8)) with i by lia.
          rewrite xorb_false_r. reflexivity. }
      rewrite Hsplit.
      assert (Hhigh : is_uint w (Z.shiftl idx (bits w - 8)))
        by (apply (byte_in_is_uint false w idx Hidx)).
      assert (Hlow : 0 <= wrap (bits w - 8) crc < 2 ^ (bits w - 8))
        by (apply wrap_range; lia).
      assert (Hlow' : is_uint w (wrap (bits w - 8) crc)).
      { unfold is_uint. split; [lia |].
        assert (2 ^ (bits w - 8) <= 2 ^ bits w) by (apply Z.pow_le_mono_r; lia). lia. }
      rewrite (shift_register_n_lxor false w poly 8 _ _ Hpoly Hhigh Hlow').
      rewrite (shift_register_n_unreflected_small w poly 8 (wrap (bits w - 8) crc))
        by (change (Z.of_nat 8) with 8; lia).
      pose proof (shift_register_n_is_uint false w poly 8 _ Hpoly Hhigh) as Hentry.
      set (entry := shift_register_n false w poly 8 (Z.shiftl idx (bits w - 8))) in *.
      change (Z.of_nat 8) with 8.
      bitwise.
      destruct (Z.ltb_spec i (bits w)); simpl.
      * destruct (Z.ltb_spec (i - 8) (bits w - 8)); [reflexivity | lia].
      * rewrite (is_uint_testbit_high w entry) by assumption.
        destruct (Z.ltb_spec (i - 8) (bits w - 8)); [lia | reflexivity].
Qed.

(** The register stays a [uint<WIDTH>] under the bit-by-bit update. *)
Lemma bbb_update_is_uint (crc b : Z) :
  is_uint w crc -> 0 <= b < 256 -> is_uint w (bbb_update REF w poly crc b 8).
Proof using Hpoly.
  intros Hcrc Hb. rewrite bbb_update_eq by assumption.
  apply shift_register_n_is_uint; auto using is_uint_lxor, byte_in_is_uint.
Qed.

Lemma tableless_update_is_uint (data : list Z) (crc : Z) :
  is_uint w crc -> is_bytes data -> is_uint w (tableless_update REF w poly crc data).
Proof using Hpoly.
  intros Hcrc Hdata. revert crc Hcrc.
  induction Hdata as [| b data Hb Hdata IH]; intros crc Hcrc; [exact Hcrc |].
  apply IH. apply bbb_update_is_uint; assumption.
Qed.

Lemma table_based_update_eq (data : list Z) (crc : Z) :
  is_uint w crc -> is_bytes data ->
  table_based_update REF w crc data table = tableless_update REF w poly crc data.
Proof using Hpoly Htable.
  intros Hcrc Hdata. revert crc Hcrc.
  induction Hdata as [| b data Hb Hdata IH]; intros crc Hcrc; [reflexivity |].
  unfold table_based_update, tableless_update, for_bytes in *. simpl.
  rewrite table_based_crc_updater_eq by assumption.
  apply IH. apply bbb_update_is_uint; assumption.
Qed.
End TableStep.

(** ** The five modes *)

Lemma for_bytes_app {S : Type} (body : Z -> S -> S) (a b : list Z) (s : S) :
  for_bytes body (a ++ b) s = for_bytes body b (for_bytes body a s).
Proof. apply fold_left_app. Qed.

Lemma ACTUAL_POLY_is_uint (c : cfg) : cfg_ok c -> is_uint (WIDTH c) (ACTUAL_POLY c).
Proof. intros (Hpoly & _). apply conditional_reflect_is_uint, Hpoly. Qed.

Lemma ACTUAL_INIT_is_uint (c : cfg) : cfg_ok c -> is_uint (WIDTH c) (ACTUAL_INIT c).
Proof. intros (_ & Hinit & _). apply conditional_reflect_is_uint, Hinit. Qed.

Lemma reverse_bits8_range (b : Z) : 0 <= b < 256 -> 0 <= reverse_bits8 b < 256.
Proof. apply (reverse_bits_is_uint W8). Qed.

Lemma is_bytes_reverse (data : list Z) : is_bytes data -> is_bytes (map reverse_bits8 data).
Proof.
  intros Hdata. induction Hdata as [| b data Hb Hdata IH]; constructor;
    auto using reverse_bits8_range.
Qed.

Lemma is_bytes_kernel (REVERSE : bool) (data : list Z) :
  is_bytes data -> is_bytes (kernel_bytes REVERSE data).
Proof. destruct REVERSE; simpl; auto using is_bytes_reverse. Qed.

Section Modes.
Variable c : tbl_cfg.
Hypothesis Hpoly : is_uint (tbl_WIDTH c) (tbl_ACTUAL_POLY c).

Lemma updater_update_tableless (u : updater) (crc : Z) (data : list Z) :
  is_uint (tbl_WIDTH c) crc -> is_bytes data ->
  updater_update u c crc data =
  tableless_update (tbl_REF_REG c) (tbl_WIDTH c) (tbl_ACTUAL_POLY c) crc data.
Proof using Hpoly.
  intros Hcrc Hdata. destruct u; simpl; [reflexivity | |];
    apply table_based_update_eq; auto; intros i Hi;
    [apply table_subscript | apply small_table_subscript]; assumption.
Qed.

Lemma updater_ext_update_tableless (u : updater_ext) (crc : Z) (data : list Z) :
  is_uint (tbl_WIDTH c) crc -> is_bytes data ->
  updater_ext_update u c crc data (table_type_default u c) =
  tableless_update (tbl_REF_REG c) (tbl_WIDTH c) (tbl_ACTUAL_POLY c) crc data.
Proof using Hpoly.
  intros Hcrc Hdata. destruct u; simpl;
    apply table_based_update_eq; auto; intros i Hi;
    [apply table_subscript | apply small_table_subscript]; assumption.
Qed.

Lemma reversed_bytes_tableless (step : Z -> list Z -> Z) (crc : Z) (data : list Z) :
  (forall crc data, is_uint (tbl_WIDTH c) crc -> is_bytes data ->
     step crc data
     = tableless_update (tbl_REF_REG c) (tbl_WIDTH c) (tbl_ACTUAL_POLY c) crc data) ->
  is_uint (tbl_WIDTH c) crc -> is_bytes data ->
  for_bytes (fun p crc => let b := reverse_bits8 p in step crc [b]) data crc =
  tableless_update (tbl_REF_REG c) (tbl_WIDTH c) (tbl_ACTUAL_POLY c) crc
                   (map reverse_bits8 data).
Proof using Hpoly.
  intros Hstep Hcrc Hdata. revert crc Hcrc.
  induction Hdata as [| b data Hb Hdata IH]; intros crc Hcrc; [reflexivity |].
  assert (Hone : is_bytes [reverse_bits8 b])
    by (constructor; [apply reverse_bits8_range, Hb | constructor]).
  simpl. rewrite Hstep by assumption.
  unfold tableless_update at 2. simpl. apply IH.
  apply (bbb_update_is_uint _ _ _ Hpoly); auto using reverse_bits8_range.
Qed.

Lemma impl_input_reverser_tableless (u : updater) (REVERSE : bool) (crc : Z) (data : list Z) :
  is_uint (tbl_WIDTH c) crc -> is_bytes data ->
  impl_input_reverser u c REVERSE crc data =
  tableless_update (tbl_REF_REG c) (tbl_WIDTH c) (tbl_ACTUAL_POLY c) crc
                   (kernel_bytes REVERSE data).
Proof using Hpoly.
  intros Hcrc Hdata. unfold impl_input_reverser, kernel_bytes. destruct REVERSE.
  - apply (reversed_bytes_tableless (updater_update u c)); auto.
    intros; apply updater_update_tableless; assumption.
  - apply updater_update_tableless; assumption.
Qed.

Lemma impl_ext_input_reverser_tableless (u : updater_ext) (REVERSE : bool)
    (crc : Z) (data : list Z) :
  is_uint (tbl_WIDTH c) crc -> is_bytes data ->
  impl_ext_input_reverser u c REVERSE crc data (table_type_default u c) =
  tableless_update (tbl_REF_REG c) (tbl_WIDTH c) (tbl_ACTUAL_POLY c) crc
                   (kernel_bytes REVERSE data).
Proof using Hpoly.
  intros Hcrc Hdata. unfold impl_ext_input_reverser, kernel_bytes. destruct REVERSE.
  - apply (reversed_bytes_tableless
             (fun crc data => updater_ext_update u c crc data (table_type_default u c)));
      auto.
    intros; apply updater_ext_update_tableless; assumption.
  - apply updater_ext_update_tableless; assumption.
Qed.
End Modes.

Lemma mode_update_kernel (c : cfg) (m : mode) (data : list Z) (this : impl) :
  cfg_ok c -> is_uint (WIDTH c) (_crc this) -> is_bytes data ->
  _crc (mode_update c m data this) = kernel_update c (_crc this) data.
Proof.
  intros Hc Hcrc Hdata. pose proof (ACTUAL_POLY_is_uint c Hc) as Hpoly.
  destruct m; simpl;
    first [ apply (impl_input_reverser_tableless (TBL_CFG c) Hpoly)
          | apply (impl_ext_input_reverser_tableless (TBL_CFG c) Hpoly) ];
    assumption.
Qed.

Lemma kernel_update_is_uint (c : cfg) (crc : Z) (data : list Z) :
  cfg_ok c -> is_uint (WIDTH c) crc -> is_bytes data ->
  is_uint (WIDTH c) (kernel_update c crc data).
Proof.
  intros Hc Hcrc Hdata. apply tableless_update_is_uint;
    auto using ACTUAL_POLY_is_uint, is_bytes_kernel.
Qed.

Lemma mode_calculate_final (c : cfg) (m : mode) (data : list Z) :
  mode_calculate c m data = final c (mode_update c m data (impl_new c)).
Proof. destruct m; reflexivity. Qed.

Lemma mode_calculate_kernel (c : cfg) (m : mode) (data : list Z) :
  cfg_ok c -> is_bytes data ->
  mode_calculate c m data =
  Z.lxor (conditional_reflect (WIDTH c) (negb (eqb (REF_REG c) (REF_OUT c)))
                              (kernel_update c (ACTUAL_INIT c) data))
         (XOR_OUT c).
Proof.
  intros Hc Hdata. rewrite mode_calculate_final. unfold final, residue.
  rewrite mode_update_kernel by (auto; apply ACTUAL_INIT_is_uint, Hc).
  reflexivity.
Qed.

(** ** The two register conventions *)

Lemma byte_in_reverse (w : width) (b : Z) :
  0 <= b < 256 -> reverse_bits w (byte_in false w b) = reverse_bits8 b.
Proof.
  intros Hb. pose proof (bits_pos w) as Hw.
  apply (uint_bits_eq w).
  - apply reverse_bits_is_uint, byte_in_is_uint, Hb.
  - apply (byte_in_is_uint true w), reverse_bits8_range, Hb.
  - intros i Hi.
    rewrite reverse_bits_testbit by (auto using byte_in_is_uint; lia).
    change (reverse_bits8 b) with (reverse_bits W8 b).
    rewrite (reverse_bits_testbit W8 b i) by (auto; lia).
    unfold byte_in. simpl bits.
    destruct (Z.ltb_spec i (bits w)); [simpl | lia].
    destruct (Z.ltb_spec i 8); simpl.
    + rewrite Z.shiftl_spec by lia. f_equal. lia.
    + rewrite Z.shiftl_spec by lia. apply Z.testbit_neg_r. lia.
Qed.

Lemma bbb_update_reverse (w : width) (poly crc b : Z) :
  is_uint w poly -> is_uint w crc -> 0 <= b < 256 ->
  reverse_bits w (bbb_update false w poly crc b 8) =
  bbb_update true w (reverse_bits w poly) (reverse_bits w crc) (reverse_bits8 b) 8.
Proof.
  intros Hpoly Hcrc Hb.
  rewrite !bbb_update_eq by auto using reverse_bits_is_uint, reverse_bits8_range.
  rewrite shift_register_n_reverse by auto using is_uint_lxor, byte_in_is_uint.
  rewrite reverse_bits_lxor by auto using byte_in_is_uint.
  rewrite byte_in_reverse by exact Hb. reflexivity.
Qed.

Lemma tableless_update_reverse (w : width) (poly : Z) (data : list Z) (crc : Z) :
  is_uint w poly -> is_uint w crc -> is_bytes data ->
  reverse_bits w (tableless_update false w poly crc data) =
  tableless_update true w (reverse_bits w poly) (reverse_bits w crc) (map reverse_bits8 data).
Proof.
  intros Hpoly Hcrc Hdata. revert crc Hcrc.
  induction Hdata as [| b data Hb Hdata IH]; intros crc Hcrc; [reflexivity |].
  unfold tableless_update in *. simpl.
  rewrite <- bbb_update_reverse by assumption.
  apply IH. apply (bbb_update_is_uint false w poly Hpoly); assumption.
Qed.

Lemma reverse_bits8_involutive (b : Z) : 0 <= b < 256 -> reverse_bits8 (reverse_bits8 b) = b.
Proof. apply (reverse_bits_involutive W8). Qed.

Lemma map_reverse_bits8_involutive (data : list Z) :
  is_bytes data -> map reverse_bits8 (map reverse_bits8 data) = data.
Proof.
  intros Hdata. induction Hdata as [| b data Hb Hdata IH]; simpl; [reflexivity |].
  rewrite reverse_bits8_involutive, IH by exact Hb. reflexivity.
Qed.

Lemma with_REF_REG_ok (c : cfg) (r : bool) : cfg_ok c -> cfg_ok (with_REF_REG c r).
Proof. intros Hc. exact Hc. Qed.

(** The reflected register is the mirror image of the unreflected one
    after the same input. *)
Lemma kernel_update_reflect (c : cfg) (crc : Z) (data : list Z) :
  cfg_ok c -> is_uint (WIDTH c) crc -> is_bytes data ->
  reverse_bits (WIDTH c) (kernel_update (with_REF_REG c false) crc data) =
  kernel_update (with_REF_REG c true) (reverse_bits (WIDTH c) crc) data.
Proof.
  intros Hc Hcrc Hdata. destruct Hc as (Hpoly & _).
  unfold kernel_update, ACTUAL_POLY. simpl.
  rewrite tableless_update_reverse by auto using is_bytes_kernel.
  f_equal. destruct (REF_IN c); simpl; [apply map_reverse_bits8_involutive, Hdata | reflexivity].
Qed.

(** The result of [calculate] does not depend on the register convention. *)
Lemma mode_calculate_REF_REG (c : cfg) (m : mode) (data : list Z) :
  cfg_ok c -> is_bytes data ->
  mode_calculate (with_REF_REG c false) m data = mode_calculate (with_REF_REG c true) m data.
Proof.
  intros Hc Hdata.
  rewrite !mode_calculate_kernel by auto using with_REF_REG_ok.
  assert (Hinit : is_uint (WIDTH c) (INIT c)) by apply Hc.
  pose proof (kernel_update_is_uint (with_REF_REG c false) (INIT c) data Hc Hinit Hdata) as Hk.
  unfold ACTUAL_INIT. simpl in *.
  rewrite <- kernel_update_reflect by assumption.
  f_equal. destruct (REF_OUT c); simpl; [reflexivity |].
  symmetry. apply reverse_bits_involutive. exact Hk.
Qed.

(** ** Codewords *)

Lemma is_bytes_big_endian (n : nat) (v : Z) : is_bytes (big_endian n v).
Proof.
  induction n as [| n IH]; simpl; constructor; [apply (wrap_range 8); lia | exact IH].
Qed.

Lemma is_bytes_little_endian (n : nat) (v : Z) : is_bytes (little_endian n v).
Proof.
  revert v. induction n as [| n IH]; intros v; simpl; constructor;
    [apply (wrap_range 8); lia | apply IH].
Qed.

Lemma append_big_endian_eq (w : width) (v : Z) (dataword : list Z) :
  append_big_endian w v dataword = dataword ++ big_endian (Z.to_nat (bits w / 8)) v.
Proof.
  destruct w; cbv [append_big_endian for_range for_loop bits];
    repeat match goal with
           | |- context [Z.to_nat ?e] =>
               let n := eval vm_compute in (Z.to_nat e) in change (Z.to_nat e) with n
           end;
    cbv [for_loop big_endian]; rewrite <- ?app_assoc; reflexivity.
Qed.

Lemma append_little_endian_eq (w : width) (v : Z) (dataword : list Z) :
  append_little_endian w v dataword = dataword ++ little_endian (Z.to_nat (bits w / 8)) v.
Proof.
  destruct w; cbv [append_little_endian for_range for_loop bits];
    repeat match goal with
           | |- context [Z.to_nat ?e] =>
               let n := eval vm_compute in (Z.to_nat e) in change (Z.to_nat e) with n
           end;
    cbv [for_loop little_endian]; rewrite <- ?app_assoc; simpl app;
    rewrite ?Z.shiftr_shiftr by lia; reflexivity.
Qed.

Lemma tableless_update_cons (REF : bool) (w : width) (poly crc b : Z) (data : list Z) :
  tableless_update REF w poly crc (b :: data) =
  tableless_update REF w poly (bbb_update REF w poly crc b 8) data.
Proof. reflexivity. Qed.

Lemma tableless_update_app (REF : bool) (w : width) (poly crc : Z) (a b : list Z) :
  tableless_update REF w poly crc (a ++ b) =
  tableless_update REF w poly (tableless_update REF w poly crc a) b.
Proof. apply for_bytes_app. Qed.

(** The bytes of a word, fed in big endian order to the unreflected
    kernel, act like one wide update with the word. *)
Lemma tableless_update_big_endian (w : width) (poly : Z) (n : nat) (v crc : Z) :
  is_uint w poly -> is_uint w crc -> 8 * Z.of_nat n <= bits w ->
  tableless_update false w poly crc (big_endian n v) =
  shift_register_n false w poly (8 * n)
    (Z.lxor crc (Z.shiftl (wrap (8 * Z.of_nat n) v) (bits w - 8 * Z.of_nat n))).
Proof.
  intros Hpoly. revert crc. induction n as [| n IH]; intros crc Hcrc Hn.
  - simpl. unfold wrap. rewrite Z.mod_1_r, Z.shiftl_0_l, Z.lxor_0_r. reflexivity.
  - cbn [big_endian]. rewrite tableless_update_cons.
    set (b := to_uint8 (Z.shiftr v (8 * Z.of_nat n))).
    assert (Hb : 0 <= b < 256) by (apply (wrap_range 8); lia).
    rewrite IH by (try apply (bbb_update_is_uint false w poly Hpoly); auto; lia).
    rewrite bbb_update_eq by assumption. change (Z.to_nat 8) with 8%nat.
    replace (8 * S n)%nat with (8 * n + 8)%nat by lia.
    rewrite shift_register_n_add. f_equal.
    set (low := wrap (8 * Z.of_nat n) v).
    assert (Hlow : 0 <= low < 2 ^ (8 * Z.of_nat n)) by (apply wrap_range; lia).
    assert (Hsmall : 0 <= Z.shiftl low (bits w - 8 * Z.of_nat (S n)) < 2 ^ (bits w - 8)).
    { apply (range_of_testbit (bits w - 8)); [lia |]. intros i Hi.
      rewrite Z.shiftl_spec by lia.
      apply (range_testbit_high (8 * Z.of_nat n)); lia. }
    assert (Hsmall' : is_uint w (Z.shiftl low (bits w - 8 * Z.of_nat (S n)))).
    { split; [lia |].
      assert (2 ^ (bits w - 8) <= 2 ^ bits w) by (apply Z.pow_le_mono_r; lia). lia. }
    assert (Hsplit :
      Z.lxor crc (Z.shiftl (wrap (8 * Z.of_nat (S n)) v) (bits w - 8 * Z.of_nat (S n)))
      = Z.lxor (Z.lxor crc (byte_in false w b))
               (Z.shiftl low (bits w - 8 * Z.of_nat (S n)))).
    { rewrite Z.lxor_assoc. f_equal. unfold byte_in, b, low, to_uint8. bitwise.
      destruct (Z.ltb_spec (i - (bits w - 8 * Z.of_nat (S n))) (8 * Z.of_nat (S n)));
        destruct (Z.ltb_spec (i - (bits w - 8)) 8);
        destruct (Z.ltb_spec (i - (bits w - 8 * Z.of_nat (S n))) (8 * Z.of_nat n));
        simpl; try lia;
        rewrite ?xorb_false_r, ?xorb_false_l; try reflexivity.
      - rewrite (Z.testbit_neg_r _ (i - (bits w - 8))) by lia. reflexivity.
      - rewrite Z.shiftr_spec by lia. f_equal. lia. }
    rewrite Hsplit.
    rewrite (shift_register_n_lxor false w poly 8 (Z.lxor crc (byte_in false w b))
               (Z.shiftl low (bits w - 8 * Z.of_nat (S n))))
      by auto using is_uint_lxor, byte_in_is_uint.
    f_equal.
    rewrite shift_register_n_unreflected_small by (change (Z.of_nat 8) with 8; lia).
    rewrite Z.shiftl_shiftl by lia. f_equal. lia.
Qed.

(** The bytes of a word, fed in little endian order to the reflected
    kernel, act like one wide update with the word. *)
Lemma tableless_update_little_endian (w : width) (poly : Z) (n : nat) (v crc : Z) :
  is_uint w poly -> is_uint w crc -> 8 * Z.of_nat n <= bits w ->
  tableless_update true w poly crc (little_endian n v) =
  shift_register_n true w poly (8 * n) (Z.lxor crc (wrap (8 * Z.of_nat n) v)).
Proof.
  intros Hpoly. revert v crc. induction n as [| n IH]; intros v crc Hcrc Hn.
  - simpl. unfold wrap. rewrite Z.mod_1_r, Z.lxor_0_r. reflexivity.
  - cbn [little_endian]. rewrite tableless_update_cons.
    set (b := to_uint8 v).
    assert (Hb : 0 <= b < 256) by (apply (wrap_range 8); lia).
    rewrite IH by (try apply (bbb_update_is_uint true w poly Hpoly); auto; lia).
    rewrite bbb_update_eq by assumption. change (Z.to_nat 8) with 8%nat.
    replace (8 * S n)%nat with (8 * n + 8)%nat by lia.
    rewrite shift_register_n_add. f_equal.
    set (high := wrap (8 * Z.of_nat n) (Z.shiftr v 8)).
    assert (Hhigh : 0 <= high < 2 ^ (8 * Z.of_nat n)) by (apply wrap_range; lia).
    assert (Hhigh' : is_uint w (Z.shiftl high 8)).
    { apply is_uint_of_testbit. intros i Hi. rewrite Z.shiftl_spec by lia.
      apply (range_testbit_high (8 * Z.of_nat n)); lia. }
    assert (Hsplit :
      Z.lxor crc (wrap (8 * Z.of_nat (S n)) v)
      = Z.lxor (Z.lxor crc (byte_in true w b)) (Z.shiftl high 8)).
    { rewrite Z.lxor_assoc. f_equal. unfold byte_in, b, high, to_uint8. bitwise.
      destruct (Z.ltb_spec i (8 * Z.of_nat (S n)));
        destruct (Z.ltb_spec i 8);
        destruct (Z.ltb_spec (i - 8) (8 * Z.of_nat n));
        simpl; try lia;
        rewrite ?xorb_false_r, ?xorb_false_l; try reflexivity.
      - rewrite (Z.testbit_neg_r _ (i - 8)), xorb_false_r by lia. reflexivity.
      - rewrite Z.shiftr_spec by lia. f_equal. lia. }
    rewrite Hsplit.
    rewrite (shift_register_n_lxor true w poly 8 (Z.lxor crc (byte_in true w b))
               (Z.shiftl high 8))
      by auto using is_uint_lxor, byte_in_is_uint.
    f_equal. symmetry. apply (shift_register_n_reflected_low w poly 8).
Qed.

(** ** The residue *)

Lemma with_REF_REG_same (c : cfg) : with_REF_REG c (REF_REG c) = c.
Proof. destruct c; reflexivity. Qed.

Lemma bbb_update_wide_eq (REF : bool) (w : width) (poly crc : Z) :
  bbb_update_wide REF w poly crc 0 =
  shift_register_n REF w poly (Z.to_nat (bits w)) crc.
Proof.
  unfold bbb_update_wide. rewrite Z.lxor_0_r, for_range_iter, Z.sub_0_r. reflexivity.
Qed.

Lemma conditional_reflect_involutive (w : width) (cond : bool) (v : Z) :
  is_uint w v -> conditional_reflect w cond (conditional_reflect w cond v) = v.
Proof. destruct cond; simpl; auto using reverse_bits_involutive. Qed.

Lemma conditional_reflect_lxor (w : width) (cond : bool) (x y : Z) :
  is_uint w x -> is_uint w y ->
  conditional_reflect w cond (Z.lxor x y) =
  Z.lxor (conditional_reflect w cond x) (conditional_reflect w cond y).
Proof. destruct cond; simpl; auto using reverse_bits_lxor. Qed.

(** [residue()] after an update does not depend on the register
    convention. *)
Lemma residue_REF_REG (c : cfg) (m : mode) (data : list Z) :
  cfg_ok c -> is_bytes data ->
  residue (with_REF_REG c false)
          (mode_update (with_REF_REG c false) m data (impl_new (with_REF_REG c false)))
  = residue (with_REF_REG c true)
            (mode_update (with_REF_REG c true) m data (impl_new (with_REF_REG c true))).
Proof.
  intros Hc Hdata.
  assert (Hinit : is_uint (WIDTH c) (INIT c)) by apply Hc.
  unfold residue.
  rewrite !mode_update_kernel
    by (auto using with_REF_REG_ok;
        apply (ACTUAL_INIT_is_uint (with_REF_REG c _)), with_REF_REG_ok, Hc).
  pose proof (kernel_update_is_uint (with_REF_REG c false) (INIT c) data Hc Hinit Hdata) as Hk.
  unfold impl_new, impl_from, ACTUAL_INIT. simpl in *.
  rewrite <- kernel_update_reflect by assumption.
  destruct (REF_OUT c); simpl; [reflexivity |].
  symmetry. apply reverse_bits_involutive. exact Hk.
Qed.

(** The residue constant does not depend on the register convention. *)
Lemma RESIDUE_REF_REG (c : cfg) :
  cfg_ok c -> RESIDUE (with_REF_REG c false) = RESIDUE (with_REF_REG c true).
Proof.
  intros (Hpoly & _ & Hxor). unfold RESIDUE, residue_const, ACTUAL_POLY.
  rewrite !bbb_update_wide_eq.
  assert (Hkey : forall y, is_uint (WIDTH c) y ->
            shift_register_n true (WIDTH c) (reverse_bits (WIDTH c) (POLY c))
              (Z.to_nat (bits (WIDTH c))) y
            = reverse_bits (WIDTH c)
                (shift_register_n false (WIDTH c) (POLY c) (Z.to_nat (bits (WIDTH c)))
                   (reverse_bits (WIDTH c) y))).
  { intros y Hy.
    rewrite shift_register_n_reverse, reverse_bits_involutive
      by auto using reverse_bits_is_uint.
    reflexivity. }
  simpl. destruct (REF_IN c), (REF_OUT c); simpl;
    rewrite Hkey by auto using reverse_bits_is_uint;
    rewrite ?reverse_bits_involutive
      by auto using reverse_bits_is_uint, shift_register_n_is_uint;
    reflexivity.
Qed.

Lemma codeword_is_bytes (c : cfg) (dataword : list Z) (crc_val : Z) :
  is_bytes dataword -> is_bytes (codeword c dataword crc_val).
Proof.
  intros Hdata. unfold codeword.
  destruct (REF_IN c); rewrite ?append_little_endian_eq, ?append_big_endian_eq;
    apply Forall_app; (split; [exact Hdata |]);
    [apply is_bytes_little_endian | apply is_bytes_big_endian].
Qed.

Lemma bits_bytes (w : width) :
  (8 * Z.to_nat (bits w / 8))%nat = Z.to_nat (bits w)
  /\ 8 * Z.of_nat (Z.to_nat (bits w / 8)) = bits w.
Proof. destruct w; split; reflexivity. Qed.

(** The register after a codeword, for a register in the convention of
    the input. *)
Lemma residue_of_codeword_natural (c : cfg) (m : mode) (dataword : list Z) :
  cfg_ok c -> REF_REG c = REF_IN c -> is_bytes dataword ->
  residue_of_codeword c m dataword =
  conditional_reflect (WIDTH c) (negb (eqb (REF_IN c) (REF_OUT c))) (RESIDUE c).
Proof.
  intros Hc Hreg Hdata. pose proof Hc as (Hpoly & Hinit & Hxor).
  pose proof (ACTUAL_POLY_is_uint c Hc) as Hapoly.
  pose proof (ACTUAL_INIT_is_uint c Hc) as Hainit.
  destruct (bits_bytes (WIDTH c)) as [Hn Hn'].
  unfold residue_of_codeword, residue.
  rewrite mode_update_kernel by auto using codeword_is_bytes.
  rewrite mode_calculate_kernel by assumption.
  unfold RESIDUE, residue_const. rewrite bbb_update_wide_eq.
  unfold kernel_update, codeword. rewrite Hreg, eqb_reflx. simpl kernel_bytes.
  set (x := negb (eqb (REF_IN c) (REF_OUT c))).
  set (reg := tableless_update (REF_IN c) (WIDTH c) (ACTUAL_POLY c) (ACTUAL_INIT c) dataword).
  assert (Hregu : is_uint (WIDTH c) reg)
    by (apply tableless_update_is_uint; assumption).
  set (crc_val :=
         if x then reverse_bits (WIDTH c)
                     (Z.lxor (conditional_reflect (WIDTH c) x reg) (XOR_OUT c))
         else Z.lxor (conditional_reflect (WIDTH c) x reg) (XOR_OUT c)).
  assert (Hcrc : crc_val = Z.lxor reg (conditional_reflect (WIDTH c) x (XOR_OUT c))).
  { change crc_val with
      (conditional_reflect (WIDTH c) x
         (Z.lxor (conditional_reflect (WIDTH c) x reg) (XOR_OUT c))).
    rewrite conditional_reflect_lxor by auto using conditional_reflect_is_uint.
    rewrite conditional_reflect_involutive by assumption. reflexivity. }
  assert (Hcrcu : is_uint (WIDTH c) crc_val).
  { rewrite Hcrc. apply is_uint_lxor; auto using conditional_reflect_is_uint. }
  f_equal. simpl conditional_reflect.
  assert (Hcancel : Z.lxor reg crc_val = conditional_reflect (WIDTH c) x (XOR_OUT c)).
  { rewrite Hcrc, <- Z.lxor_assoc, Z.lxor_nilpotent. apply Z.lxor_0_l. }
  destruct (REF_IN c).
  - rewrite append_little_endian_eq, tableless_update_app.
    change (tableless_update _ (WIDTH c) (ACTUAL_POLY c) (_crc (impl_new c)) dataword)
      with reg.
    rewrite tableless_update_little_endian by (auto; lia).
    rewrite Hn, Hn', (wrap_small _ crc_val) by exact Hcrcu.
    rewrite Hcancel. reflexivity.
  - rewrite append_big_endian_eq, tableless_update_app.
    change (tableless_update _ (WIDTH c) (ACTUAL_POLY c) (_crc (impl_new c)) dataword)
      with reg.
    rewrite tableless_update_big_endian by (auto; lia).
    rewrite Hn, Hn', (wrap_small _ crc_val) by exact Hcrcu.
    rewrite Z.sub_diag, Z.shiftl_0_r, Hcancel. reflexivity.
Qed.

Lemma residue_of_codeword_REF_REG (c : cfg) (m : mode) (dataword : list Z) :
  cfg_ok c -> is_bytes dataword ->
  residue_of_codeword (with_REF_REG c false) m dataword =
  residue_of_codeword (with_REF_REG c true) m dataword.
Proof.
  intros Hc Hdata. unfold residue_of_codeword.
  rewrite <- mode_calculate_REF_REG by assumption.
  change (codeword (with_REF_REG c true)) with (codeword (with_REF_REG c false)).
  apply residue_REF_REG; auto.
  apply (codeword_is_bytes (with_REF_REG c false)), Hdata.
Qed.

(** The value of [residue()] after a codeword, for every model: the
    residue constant, bit-reversed when [REF_IN != REF_OUT]. *)
Lemma residue_of_codeword_spec (c : cfg) (m : mode) (dataword : list Z) :
  cfg_ok c -> is_bytes dataword ->
  residue_of_codeword c m dataword =
  conditional_reflect (WIDTH c) (negb (eqb (REF_IN c) (REF_OUT c))) (RESIDUE c).
Proof.
  intros Hc Hdata.
  pose proof (residue_of_codeword_natural (with_REF_REG c (REF_IN c)) m dataword
                (with_REF_REG_ok c _ Hc) eq_refl Hdata) as Hnat.
  pose proof (residue_of_codeword_REF_REG c m dataword Hc Hdata) as Hres.
  pose proof (RESIDUE_REF_REG c Hc) as Hconst.
  destruct c as [w poly init xor_out ref_in ref_out ref_reg].
  unfold with_REF_REG in *.
  cbn [WIDTH POLY INIT XOR_OUT REF_IN REF_OUT REF_REG] in *.
  destruct ref_reg, ref_in; congruence.
Qed.

Lemma bbb_update_wide_lxor (REF : bool) (w : width) (poly crc b : Z) :
  bbb_update_wide REF w poly crc b =
  shift_register_n REF w poly (Z.to_nat (bits w)) (Z.lxor crc b).
Proof. unfold bbb_update_wide. rewrite for_range_iter, Z.sub_0_r. reflexivity. Qed.

(** The formula that [residue_const] keeps in a comment, the one in use
    before the short formula, is the value of [residue()] after a codeword
    for every model. *)
Lemma residue_of_codeword_codeword_form (c : cfg) (m : mode) (dataword : list Z) :
  cfg_ok c -> is_bytes dataword ->
  residue_of_codeword c m dataword = residue_const_codeword c.
Proof.
  intros Hc Hdata. pose proof Hc as (Hpoly & Hinit & Hxor).
  rewrite residue_of_codeword_spec by assumption.
  unfold RESIDUE, residue_const, residue_const_codeword.
  rewrite bbb_update_wide_eq, bbb_update_wide_lxor.
  rewrite <- Z.lxor_assoc, Z.lxor_nilpotent, Z.lxor_0_l.
  set (x := conditional_reflect (WIDTH c) (negb (eqb (REF_REG c) (REF_OUT c))) (XOR_OUT c)).
  assert (Hs : is_uint (WIDTH c)
                 (shift_register_n (REF_REG c) (WIDTH c) (ACTUAL_POLY c)
                    (Z.to_nat (bits (WIDTH c))) x)).
  { apply shift_register_n_is_uint;
      [apply ACTUAL_POLY_is_uint, Hc | apply conditional_reflect_is_uint, Hxor]. }
  destruct (REF_REG c), (REF_IN c), (REF_OUT c); simpl;
    rewrite ?reverse_bits_involutive by exact Hs; reflexivity.
Qed.

(** The residue law for the models with [REF_IN == REF_OUT]: after a
    codeword [residue()] returns the residue constant. *)
Lemma residue_law_same_endian (c : cfg) (m : mode) (dataword : list Z) :
  cfg_ok c -> REF_IN c = REF_OUT c -> is_bytes dataword ->
  residue_of_codeword c m dataword = RESIDUE c.
Proof.
  intros Hc Hsame Hdata. rewrite residue_of_codeword_spec by assumption.
  rewrite Hsame, eqb_reflx. reflexivity.
Qed.

(** ** The mini library *)

(** A loop that stores [f i] at every index fills the array with [f]. *)
Lemma for_loop_fill (f : Z -> Z) (trips : nat) (i : Z) (done : list Z) :
  0 <= i -> length done = Z.to_nat i ->
  for_loop trips i (fun i entries => <[Z.to_nat i := f i]> entries)
           (done ++ replicate trips 0)
  = done ++ (f <$> seqZ i (Z.of_nat trips)).
Proof.
  revert i done. induction trips as [| trips IH]; intros i done Hi Hlen.
  - reflexivity.
  - cbn [for_loop replicate].
    rewrite <- Hlen, <- (Nat.add_0_r (length done)), insert_app_r. cbn [insert list_insert].
    rewrite (cons_middle (f i)), app_assoc.
    rewrite IH by (rewrite ?length_app; simpl; lia).
    rewrite <- app_assoc. f_equal.
    rewrite (seqZ_cons i (Z.of_nat (S trips))) by lia.
    cbn [fmap list_fmap app]. do 3 f_equal; lia.
Qed.

Lemma for_range_fill (f : Z -> Z) (n : Z) :
  0 <= n ->
  for_range 0 n (fun i entries => <[Z.to_nat i := f i]> entries) (replicate (Z.to_nat n) 0)
  = f <$> seqZ 0 n.
Proof.
  intros Hn. unfold for_range. rewrite Z.sub_0_r.
  change (replicate (Z.to_nat n) 0) with ([] ++ replicate (Z.to_nat n) 0).
  rewrite (for_loop_fill f (Z.to_nat n) 0 []) by (auto; lia).
  simpl. f_equal. f_equal. lia.
Qed.

Lemma mini_reverse_bits8_eq (v : Z) : mini.reverse_bits8 v = reverse_bits8 v.
Proof. reflexivity. Qed.

(** Reversing the two halves of a word and exchanging them reverses the
    word. *)
Lemma reverse_halves_testbit (h : Z) (rb : Z -> Z) (v i : Z) :
  0 < h ->
  (forall x j, 0 <= x < 2 ^ h -> 0 <= j ->
     Z.testbit (rb x) j = (j <? h) && Z.testbit x (h - 1 - j)) ->
  0 <= i ->
  Z.testbit (Z.lor (Z.shiftl (rb (wrap h v)) h) (rb (wrap h (Z.shiftr v h)))) i
  = (i <? 2 * h) && Z.testbit v (2 * h - 1 - i).
Proof.
  intros Hh Hrb Hi.
  rewrite Z.lor_spec, Z.shiftl_spec by lia.
  rewrite (Hrb (wrap h (Z.shiftr v h)) i) by (auto using wrap_range; try apply wrap_range; lia).
  destruct (Z.ltb_spec i h).
  - rewrite Z.testbit_neg_r by lia. simpl.
    rewrite wrap_testbit, Z.shiftr_spec by lia.
    destruct (Z.ltb_spec (h - 1 - i) h); [| lia].
    destruct (Z.ltb_spec i (2 * h)); [| lia].
    simpl. f_equal. lia.
  - rewrite (Hrb (wrap h v) (i - h)) by (try apply wrap_range; lia).
    rewrite wrap_testbit by lia. simpl. rewrite orb_false_r.
    destruct (Z.ltb_spec (i - h) h); destruct (Z.ltb_spec i (2 * h)); try lia; simpl.
    destruct (Z.ltb_spec (h - 1 - (i - h)) h); [| lia]. simpl. f_equal. lia.
Qed.

Lemma mini_reverse_bits_testbit (w : width) (v i : Z) :
  is_uint w v -> 0 <= i ->
  Z.testbit (mini.reverse_bits w v) i = (i <? bits w) && Z.testbit v (bits w - 1 - i).
Proof.
  intros Hv Hi.
  assert (H8 : forall x j, 0 <= x < 2 ^ 8 -> 0 <= j ->
            Z.testbit (mini.reverse_bits8 x) j = (j <? 8) && Z.testbit x (8 - 1 - j)).
  { intros x j Hx Hj. apply (reverse_bits_testbit W8 x j Hx Hj). }
  assert (H16 : forall x j, 0 <= x < 2 ^ 16 -> 0 <= j ->
            Z.testbit (mini.reverse_bits16 x) j = (j <? 16) && Z.testbit x (16 - 1 - j)).
  { intros x j Hx Hj. unfold mini.reverse_bits16, to_uint8.
    rewrite (reverse_halves_testbit 8 mini.reverse_bits8 x j) by (assumption || lia).
    reflexivity. }
  assert (H32 : forall x j, 0 <= x < 2 ^ 32 -> 0 <= j ->
            Z.testbit (mini.reverse_bits32 x) j = (j <? 32) && Z.testbit x (32 - 1 - j)).
  { intros x j Hx Hj. unfold mini.reverse_bits32.
    rewrite (reverse_halves_testbit 16 mini.reverse_bits16 x j) by (assumption || lia).
    reflexivity. }
  destruct w; cbn [mini.reverse_bits bits].
  - apply H8; assumption.
  - apply H16; assumption.
  - apply H32; assumption.
  - unfold mini.reverse_bits64.
    rewrite (reverse_halves_testbit 32 mini.reverse_bits32 v i) by (assumption || lia).
    reflexivity.
Qed.

(** The two libraries reverse bits alike. *)
Lemma mini_reverse_bits_eq (w : width) (v : Z) :
  is_uint w v -> mini.reverse_bits w v = reverse_bits w v.
Proof.
  intros Hv. apply (uint_bits_eq w).
  - apply is_uint_of_testbit. intros i Hi. pose proof (bits_pos w).
    rewrite mini_reverse_bits_testbit by (auto; lia).
    destruct (Z.ltb_spec i (bits w)); [lia | reflexivity].
  - apply reverse_bits_is_uint, Hv.
  - intros i Hi.
    rewrite mini_reverse_bits_testbit, reverse_bits_testbit by (auto; lia). reflexivity.
Qed.

Lemma mini_lookup_table_shape (T : width) (REF_POLY : Z) (REF : bool) :
  mini.lookup_table T REF_POLY REF = mini_entry T REF_POLY REF <$> seqZ 0 256.
Proof. apply (for_range_fill (mini_entry T REF_POLY REF) 256). lia. Qed.

Lemma mini_entry_eq (w : width) (poly : Z) (REF : bool) (index : Z) :
  is_uint w poly -> 0 <= index < 256 ->
  mini_entry w (mini.reverse_bits w poly) REF index
  = table_entry REF w (conditional_reflect w REF poly) index 0.
Proof.
  intros Hpoly Hi. unfold mini_entry.
  rewrite mini_reverse_bits_eq by exact Hpoly.
  rewrite table_entry_eq by exact Hi.
  change (for_range 0 8 _ ?x)
    with (for_range 0 8 (fun _ crc => shift_register true w (reverse_bits w poly) crc) x).
  rewrite for_range_iter. change (Z.to_nat (8 - 0)) with 8%nat.
  change (Nat.iter 8 (shift_register true w (reverse_bits w poly)))
    with (shift_register_n true w (reverse_bits w poly) 8).
  destruct REF; [reflexivity |].
  rewrite to_uint8_small, mini_reverse_bits8_eq by exact Hi.
  cbn [conditional_reflect].
  rewrite <- (byte_in_reverse w index Hi).
  rewrite <- shift_register_n_reverse by auto using byte_in_is_uint.
  assert (Hs : is_uint w (shift_register_n false w poly 8 (byte_in false w index)))
    by auto using shift_register_n_is_uint, byte_in_is_uint.
  rewrite mini_reverse_bits_eq by auto using reverse_bits_is_uint.
  apply reverse_bits_involutive, Hs.
Qed.

Lemma mini_table_lookup (c : mini.cfg) (index : Z) :
  mini_cfg_ok c -> 0 <= index < 256 ->
  mini.table c !!! Z.to_nat index
  = table_entry (mini.REF_IN c) (mini.WIDTH c)
                (tbl_ACTUAL_POLY (TBL_CFG (cfg_of_mini c))) index 0.
Proof.
  intros (Hpoly & _) Hi. unfold mini.table, static_table.
  rewrite mini_lookup_table_shape, lookup_total_fmap_seqZ by exact Hi.
  apply mini_entry_eq; assumption.
Qed.

(** The lookup table of the mini library is the generated table of the
    full library. *)
Lemma mini_table_eq (c : mini.cfg) :
  mini_cfg_ok c -> mini.table c = entries (table (TBL_CFG (cfg_of_mini c))).
Proof.
  intros Hc. pose proof Hc as (Hpoly & _). unfold mini.table, static_table.
  rewrite mini_lookup_table_shape. unfold table, table_generate. cbn [entries].
  rewrite generate_table_shape. apply list_fmap_ext. intros i x Hx.
  apply lookup_seqZ in Hx as [-> Hlt].
  rewrite mini_entry_eq by (auto; lia).
  symmetry. apply table_shape_entry; [| lia].
  apply (conditional_reflect_is_uint (mini.WIDTH c) (mini.REF_IN c)), Hpoly.
Qed.

Lemma mini_step_eq (c : mini.cfg) (p crc : Z) :
  mini_cfg_ok c -> is_uint (mini.WIDTH c) crc -> 0 <= p < 256 ->
  mini_step c p crc
  = bbb_update (mini.REF_IN c) (mini.WIDTH c)
               (tbl_ACTUAL_POLY (TBL_CFG (cfg_of_mini c))) crc p 8.
Proof.
  intros Hc Hcrc Hp. pose proof Hc as (Hpoly & _).
  assert (Hapoly : is_uint (mini.WIDTH c) (tbl_ACTUAL_POLY (TBL_CFG (cfg_of_mini c))))
    by (apply (conditional_reflect_is_uint (mini.WIDTH c) (mini.REF_IN c)), Hpoly).
  rewrite <- (table_based_crc_updater_eq (mini.REF_IN c) (mini.WIDTH c) _
                (mini.table c) Hapoly (fun i Hi => mini_table_lookup c i Hc Hi))
    by assumption.
  unfold mini_step, table_based_crc_updater, subscript, array_subscript.
  pose proof (bits_pos (mini.WIDTH c)) as Hw.
  rewrite !Z.shiftr_shiftr, !Z.shiftl_shiftl by lia. change (4 + 4) with 8.
  destruct (width_cases (mini.WIDTH c)) as [[-> Hbits] | [-> Hbits]].
  - (* sizeof(T) == 1 *)
    assert (Hcrc' : 0 <= crc < 256)
      by (unfold is_uint in Hcrc; rewrite Hbits in Hcrc; lia).
    pose proof (lxor_byte_range crc p Hcrc' Hp) as Hidx.
    pose proof (table_entry_is_uint (mini.REF_IN c) (mini.WIDTH c) _ (Z.lxor crc p)
                  Hapoly Hidx) as Hentry.
    rewrite <- (mini_table_lookup c _ Hc Hidx) in Hentry.
    destruct (mini.REF_IN c).
    + rewrite to_uint8_small by exact Hcrc'.
      rewrite (Z.shiftr_eq_0 crc 8); [apply Z.lxor_0_r | lia |].
      destruct (Z.eq_dec crc 0) as [-> | Hne]; [reflexivity |].
      apply Z.log2_lt_pow2; lia.
    + rewrite Hbits, Z.sub_diag, Z.shiftr_0_r.
      set (entry := mini.table c !!! Z.to_nat (Z.lxor crc p)) in *.
      rewrite <- (to_uint_small (mini.WIDTH c) entry Hentry) at 2.
      unfold to_uint. rewrite Hbits. bitwise.
      destruct (Z.ltb_spec i 8); simpl; [| reflexivity].
      rewrite (Z.testbit_neg_r crc) by lia. apply xorb_false_r.
  - destruct (mini.REF_IN c).
    + rewrite land_0xff. reflexivity.
    + reflexivity.
Qed.

Lemma mini_update_eq (c : mini.cfg) (data : list Z) (crc : Z) :
  mini_cfg_ok c -> is_uint (mini.WIDTH c) crc -> is_bytes data ->
  mini.base_calculate c data true crc
  = tableless_update (mini.REF_IN c) (mini.WIDTH c)
                     (tbl_ACTUAL_POLY (TBL_CFG (cfg_of_mini c))) crc data.
Proof.
  intros Hc Hcrc Hdata. pose proof Hc as (Hpoly & _).
  assert (Hapoly : is_uint (mini.WIDTH c) (tbl_ACTUAL_POLY (TBL_CFG (cfg_of_mini c))))
    by (apply (conditional_reflect_is_uint (mini.WIDTH c) (mini.REF_IN c)), Hpoly).
  assert (Hloop : for_bytes (mini_step c) data crc
                  = tableless_update (mini.REF_IN c) (mini.WIDTH c)
                      (tbl_ACTUAL_POLY (TBL_CFG (cfg_of_mini c))) crc data).
  { revert crc Hcrc. induction Hdata as [| b data Hb Hdata IH]; intros crc Hcrc;
      [reflexivity |].
    rewrite tableless_update_cons. cbn [for_bytes fold_left].
    rewrite mini_step_eq by assumption.
    apply IH. apply bbb_update_is_uint; assumption. }
  rewrite <- Hloop. unfold mini.base_calculate, mini_step.
  destruct (mini.REF_IN c); reflexivity.
Qed.

(** ** Deciding the side conditions *)

Lemma cfg_okb_spec (c : cfg) : cfg_okb c = true -> cfg_ok c.
Proof.
  unfold cfg_okb, cfg_ok. rewrite !andb_true_iff, !is_uintb_spec. tauto.
Defined.

Lemma is_bytesb_spec (data : list Z) : is_bytesb data = true -> is_bytes data.
Proof.
  unfold is_bytesb, is_bytes. rewrite forallb_forall, List.Forall_forall.
  intros Hall b Hb. specialize (Hall b Hb).
  apply andb_true_iff in Hall. rewrite Z.leb_le, Z.ltb_lt in Hall. exact Hall.
Defined.

(** The loop over the rows of [generate_table] ends by its condition
    after fifteen rounds, whatever is left of its allowance. *)
Lemma generate_table_rows_fuel (REF : bool) (w : width) (poly : Z) (extra : nat) :
  generate_table_rows (15 + extra) REF w poly 0 (replicate 256 0) =
  generate_table_rows 15 REF w poly 0 (replicate 256 0).
Proof. destruct REF; cbv -[table_entry]; reflexivity. Qed.

(** The loop of the simple generator ends by its condition after 255
    rounds. *)
Lemma generate_table_simple_loop_fuel (REF : bool) (w : width) (poly : Z) (extra : nat) :
  generate_table_simple_loop (255 + extra) REF w poly 1 (replicate 256 0) =
  generate_table_simple_loop 255 REF w poly 1 (replicate 256 0).
Proof. cbv -[table_entry]; reflexivity. Qed.

(** The simple generator fills the same table. *)
Lemma generate_table_simple_eq (REF : bool) (w : width) (poly : Z) :
  is_uint w poly ->
  generate_table_simple REF w poly (replicate 256 0) =
  generate_table REF w poly (replicate 256 0).
Proof.
  intros Hpoly.
  assert (Hshape : generate_table_simple REF w poly (replicate 256 0)
                   = (fun b => if b =? 0 then 0 else table_entry REF w poly b 0)
                       <$> seqZ 0 256)
    by (cbv -[table_entry]; reflexivity).
  rewrite Hshape, generate_table_shape. apply list_fmap_ext. intros i x Hx.
  apply lookup_seqZ in Hx as [-> Hlt].
  rewrite table_shape_entry by (auto; lia).
  destruct (Z.eqb_spec (0 + Z.of_nat i) 0) as [-> | _]; [| reflexivity].
  rewrite <- (table_shape_entry REF w poly 0) by (auto; lia). reflexivity.
Qed.

(** ** The source against the words of the specification *)

Lemma spec_bit_reverse_testbit (n : nat) (v i : Z) :
  0 <= i ->
  Z.testbit (spec_bit_reverse n v) i = (i <? Z.of_nat n) && Z.testbit v (Z.of_nat n - 1 - i).
Proof.
  intros Hi. revert v. induction n as [| n IH]; intros v.
  - cbn [spec_bit_reverse]. rewrite Z.testbit_0_l.
    destruct (Z.ltb_spec i (Z.of_nat 0)); [lia | reflexivity].
  - cbn [spec_bit_reverse]. rewrite Z.lor_spec, Z.shiftl_spec, IH by lia.
    destruct (Z.ltb_spec i (Z.of_nat n)); destruct (Z.ltb_spec i (Z.of_nat (S n))); try lia;
      cbn [andb].
    + rewrite Z.shiftr_spec by lia.
      rewrite (Z.testbit_neg_r _ (i - Z.of_nat n)) by lia. cbn [orb]. f_equal. lia.
    + rewrite orb_false_r. replace (i - Z.of_nat n) with 0 by lia.
      replace (Z.of_nat (S n) - 1 - i) with 0 by lia. apply Z.b2z_bit0.
    + rewrite orb_false_r. destruct (Z.testbit v 0); cbn [Z.b2z].
      * apply Z.bits_above_log2; [lia | change (Z.log2 1) with 0; lia].
      * apply Z.testbit_0_l.
Qed.

(** [reverse_bits] of the source is the bit reflection of the
    specification. *)
Lemma reverse_bits_spec_bit_reverse (w : width) (v : Z) :
  is_uint w v -> reverse_bits w v = spec_bit_reverse (Z.to_nat (bits w)) v.
Proof.
  intros Hv. pose proof (bits_pos w) as Hw. apply Z.bits_inj'. intros i Hi.
  rewrite reverse_bits_testbit, spec_bit_reverse_testbit by assumption.
  rewrite Z2Nat.id by lia. reflexivity.
Qed.

(** [shift_register] of the source is the step of the specification. *)
Lemma shift_register_spec_kernel_step (REF : bool) (w : width) (poly crc : Z) :
  shift_register REF w poly crc = spec_kernel_step REF (bits w) poly crc.
Proof.
  unfold shift_register, spec_kernel_step. destruct REF.
  - rewrite land_1_eqb, negb_involutive. reflexivity.
  - rewrite MSB_MASK_eqb, negb_involutive. reflexivity.
Qed.

(** [bbb_update_wide] of the source is the wide variant of the
    specification. *)
Lemma bbb_update_wide_spec_kernel_wide (REF : bool) (w : width) (poly crc : Z) :
  bbb_update_wide REF w poly crc 0
  = spec_kernel_wide REF (Z.to_nat (bits w)) poly crc 0.
Proof.
  pose proof (bits_pos w) as Hw.
  rewrite bbb_update_wide_eq. unfold spec_kernel_wide, shift_register_n.
  rewrite Z.lxor_0_r, Z2Nat.id by lia.
  induction (Z.to_nat (bits w)) as [| n IH]; [reflexivity |].
  rewrite !Nat.iter_succ, IH. apply shift_register_spec_kernel_step.
Qed.

(** * Main results *)

(** C1 (catalog check): for the seven models of the scenario table the
    one-shot [calculate] of ["123456789"] is the listed check value and
    the constant [RESIDUE] is the listed residue. *)
Theorem catalog_check :
  parametric_calculate crc8_smbus check_data = 0xF4
  /\ RESIDUE crc8_smbus = 0x00
  /\ parametric_calculate crc8_sae_j1850 check_data = 0x4B
  /\ RESIDUE crc8_sae_j1850 = 0xC4
  /\ parametric_calculate crc16_kermit check_data = 0x2189
  /\ RESIDUE crc16_kermit = 0x0000
  /\ parametric_calculate crc16_ibm_sdlc check_data = 0x906E
  /\ RESIDUE crc16_ibm_sdlc = 0xF0B8
  /\ parametric_calculate crc32_iso_hdlc check_data = 0xCBF43926
  /\ RESIDUE crc32_iso_hdlc = 0xDEBB20E3
  /\ parametric_calculate crc32_bzip2 check_data = 0xFC891918
  /\ RESIDUE crc32_bzip2 = 0xC704DD7B
  /\ parametric_calculate crc64_xz check_data = 0x995DC9BBDF1939FA
  /\ RESIDUE crc64_xz = 0x49958C9ABD7D353F.
Proof. repeat split; vm_compute; reflexivity. Qed.

(** C2 (strategy equivalence): any two of the five modes hold the same
    register, read with [interim], after every prefix of the input, and
    return the same [final] after the whole input. *)
Theorem strategy_equivalence (c : cfg) (m1 m2 : mode) (data : list Z) :
  cfg_ok c -> is_bytes data ->
  (forall prefix rest, data = prefix ++ rest ->
     interim (mode_update c m1 prefix (impl_new c))
     = interim (mode_update c m2 prefix (impl_new c)))
  /\ final c (mode_update c m1 data (impl_new c))
     = final c (mode_update c m2 data (impl_new c)).
Proof.
  intros Hc Hdata. pose proof (ACTUAL_INIT_is_uint c Hc) as Hinit. split.
  - intros prefix rest ->. apply Forall_app in Hdata as [Hprefix _].
    unfold interim. rewrite !mode_update_kernel by assumption. reflexivity.
  - unfold final, residue. rewrite !mode_update_kernel by assumption. reflexivity.
Qed.

Lemma strategy_equivalence_witness :
  cfg_ok crc32_iso_hdlc /\ is_bytes check_data
  /\ (forall prefix rest, check_data = prefix ++ rest ->
        interim (mode_update crc32_iso_hdlc tableless prefix (impl_new crc32_iso_hdlc))
        = interim (mode_update crc32_iso_hdlc ext_small_table_based prefix
                               (impl_new crc32_iso_hdlc)))
  /\ final crc32_iso_hdlc (mode_update crc32_iso_hdlc tableless check_data
                                       (impl_new crc32_iso_hdlc))
     = final crc32_iso_hdlc (mode_update crc32_iso_hdlc ext_small_table_based check_data
                                         (impl_new crc32_iso_hdlc)).
Proof.
  assert (Hc : cfg_ok crc32_iso_hdlc) by (apply cfg_okb_spec; reflexivity).
  assert (Hdata : is_bytes check_data) by (apply is_bytesb_spec; reflexivity).
  split; [exact Hc |]. split; [exact Hdata |].
  exact (strategy_equivalence crc32_iso_hdlc tableless ext_small_table_based check_data
           Hc Hdata).
Defined.

(** C3 (register-convention invariance): [calculate] returns the same
    value with [REF_REG = REF_IN] and with [REF_REG = !REF_IN], in every
    mode.  With [REF_REG = REF_IN] the bytes reach the updater as they
    are; with [REF_REG = !REF_IN] each byte goes through [reverse_bits]
    first, and the updater works with the table of the other register
    convention. *)
Theorem register_convention_invariance (c : cfg) (m : mode) (data : list Z) :
  cfg_ok c -> is_bytes data ->
  let same := with_REF_REG c (REF_IN c) in
  let other := with_REF_REG c (negb (REF_IN c)) in
  mode_calculate same m data = mode_calculate other m data
  /\ (forall u this,
        interim (update same u data this) = updater_update u (TBL_CFG same) (_crc this) data)
  /\ (forall u this,
        interim (update other u data this)
        = for_bytes (fun p crc => updater_update u (TBL_CFG other) crc [reverse_bits8 p])
                    data (_crc this)).
Proof.
  intros Hc Hdata same other. split; [| split].
  - pose proof (mode_calculate_REF_REG c m data Hc Hdata) as Heq.
    unfold same, other. destruct (REF_IN c); simpl negb; congruence.
  - intros u this. unfold interim, update, same. cbn [_crc REF_IN REF_REG with_REF_REG].
    rewrite eqb_reflx. reflexivity.
  - intros u this. unfold interim, update, other. cbn [_crc REF_IN REF_REG with_REF_REG].
    destruct (REF_IN c); reflexivity.
Qed.

Lemma register_convention_invariance_witness :
  cfg_ok crc16_kermit /\ is_bytes check_data
  /\ mode_calculate (with_REF_REG crc16_kermit true) table_based check_data
     = mode_calculate (with_REF_REG crc16_kermit false) table_based check_data.
Proof.
  assert (Hc : cfg_ok crc16_kermit) by (apply cfg_okb_spec; reflexivity).
  assert (Hdata : is_bytes check_data) by (apply is_bytesb_spec; reflexivity).
  split; [exact Hc |]. split; [exact Hdata |].
  exact (proj1 (register_convention_invariance crc16_kermit table_based check_data
                  Hc Hdata)).
Defined.

(** C4 (residue law): it fails for a model with [REF_IN != REF_OUT].
    After the codeword of ["123456789"], [residue()] returns 0xCF in every
    mode while [RESIDUE] is 0xF3, its mirror image. *)
Theorem residue_law_crossed_endian :
  RESIDUE crossed_endian_model = 0xF3
  /\ forall m, residue_of_codeword crossed_endian_model m check_data = 0xCF.
Proof. split; [| intros m; destruct m]; vm_compute; reflexivity. Qed.

(** C5 (residue derivation): for every model whose parameters are of its
    type, [RESIDUE] is the result of the derivation of the specification:
    [xor_out], bit-reversed within [width] iff [ref_reg != ref_out], put
    through [width] steps of the shift register with [actual_poly], and
    bit-reversed iff [ref_reg != ref_in]; where the bit reversal, the
    step and [actual_poly] are those of the specification and not the
    functions of the source. *)
Theorem residue_derivation_correct (c : cfg) :
  cfg_ok c -> RESIDUE c = residue_derivation c.
Proof.
  intros Hc. pose proof Hc as (Hpoly & _ & Hxor).
  unfold RESIDUE, residue_const, residue_derivation. cbv zeta.
  assert (Hapoly : ACTUAL_POLY c
                   = if REF_REG c
                     then spec_bit_reverse (Z.to_nat (bits (WIDTH c))) (POLY c)
                     else POLY c).
  { unfold ACTUAL_POLY, conditional_reflect.
    destruct (REF_REG c); [apply reverse_bits_spec_bit_reverse, Hpoly | reflexivity]. }
  rewrite <- Hapoly.
  assert (Hfirst : conditional_reflect (WIDTH c) (negb (eqb (REF_REG c) (REF_OUT c))) (XOR_OUT c)
                   = if xorb (REF_REG c) (REF_OUT c)
                     then spec_bit_reverse (Z.to_nat (bits (WIDTH c))) (XOR_OUT c)
                     else XOR_OUT c).
  { unfold conditional_reflect.
    destruct (REF_REG c), (REF_OUT c); cbn [eqb negb xorb];
      first [reflexivity | apply reverse_bits_spec_bit_reverse, Hxor]. }
  rewrite <- Hfirst.
  set (r := conditional_reflect (WIDTH c) (negb (eqb (REF_REG c) (REF_OUT c))) (XOR_OUT c)).
  assert (Hr : is_uint (WIDTH c) r) by (apply conditional_reflect_is_uint, Hxor).
  rewrite <- bbb_update_wide_spec_kernel_wide.
  assert (Hwide : is_uint (WIDTH c)
                    (bbb_update_wide (REF_REG c) (WIDTH c) (ACTUAL_POLY c) r 0)).
  { rewrite bbb_update_wide_eq.
    apply shift_register_n_is_uint; [apply ACTUAL_POLY_is_uint, Hc | exact Hr]. }
  unfold conditional_reflect.
  destruct (REF_REG c), (REF_IN c); cbn [eqb negb xorb];
    first [reflexivity | apply reverse_bits_spec_bit_reverse, Hwide].
Qed.

Lemma residue_derivation_correct_witness :
  cfg_ok crc32_iso_hdlc /\ RESIDUE crc32_iso_hdlc = residue_derivation crc32_iso_hdlc.
Proof.
  assert (Hc : cfg_ok crc32_iso_hdlc) by (apply cfg_okb_spec; reflexivity).
  split; [exact Hc |].
  exact (residue_derivation_correct crc32_iso_hdlc Hc).
Defined.

(** C6 (small table <-> full table): for every byte [b] the value that
    the small table yields, [first_row[b & 0x0F] ^ first_column[b >> 4]],
    is entry [b] of the full table generated for the same width,
    polynomial and register convention; so for the arrays that the
    generators fill and for the default constructed [small_table] and
    [table] of any [tbl_cfg]. *)
Theorem small_table_full_table (REF : bool) (w : width) (poly b : Z) (c : tbl_cfg) :
  0 <= b < 256 ->
  (let small := generate_small_table REF w poly (replicate 16 0) (replicate 16 0) in
   let full := generate_table REF w poly (replicate 256 0) in
   Z.lxor (fst small !!! Z.to_nat (Z.land b 0x0F)) (snd small !!! Z.to_nat (Z.shiftr b 4))
   = full !!! Z.to_nat b)
  /\ Z.lxor (first_row (small_table c) !!! Z.to_nat (Z.land b 0x0F))
            (first_column (small_table c) !!! Z.to_nat (Z.shiftr b 4))
     = entries (table c) !!! Z.to_nat b
  /\ subscript (small_table c) b = subscript (table c) b.
Proof.
  intros Hb. destruct (nibbles b Hb) as (Hi & Hk & _).
  assert (Hgen : forall REF w poly,
            let small := generate_small_table REF w poly (replicate 16 0) (replicate 16 0) in
            Z.lxor (fst small !!! Z.to_nat (Z.land b 0x0F))
                   (snd small !!! Z.to_nat (Z.shiftr b 4))
            = generate_table REF w poly (replicate 256 0) !!! Z.to_nat b).
  { intros REF' w' poly' small. unfold small.
    rewrite generate_small_table_shape, generate_table_shape. cbn [fst snd].
    rewrite !lookup_total_fmap_seqZ by assumption.
    apply small_table_entry, Hb. }
  assert (Hobj : Z.lxor (first_row (small_table c) !!! Z.to_nat (Z.land b 0x0F))
                        (first_column (small_table c) !!! Z.to_nat (Z.shiftr b 4))
                 = entries (table c) !!! Z.to_nat b).
  { specialize (Hgen (tbl_REF_REG c) (tbl_WIDTH c) (tbl_ACTUAL_POLY c)).
    unfold small_table, small_table_generate, table, table_generate.
    cbn [entries first_row first_column].
    destruct (generate_small_table (tbl_REF_REG c) (tbl_WIDTH c) (tbl_ACTUAL_POLY c)
                (replicate 16 0) (replicate 16 0)) as [row column].
    exact Hgen. }
  split; [apply Hgen |]. split; [exact Hobj |].
  unfold subscript, basic_small_table_subscript, basic_table_subscript.
  cbv zeta. rewrite to_uint8_small by exact Hb. exact Hobj.
Qed.

Lemma small_table_full_table_witness :
  0 <= 0xA7 < 256
  /\ (let small := generate_small_table true W32 0xEDB88320 (replicate 16 0) (replicate 16 0) in
      let full := generate_table true W32 0xEDB88320 (replicate 256 0) in
      Z.lxor (fst small !!! Z.to_nat (Z.land 0xA7 0x0F))
             (snd small !!! Z.to_nat (Z.shiftr 0xA7 4))
      = full !!! Z.to_nat 0xA7).
Proof.
  assert (Hb : 0 <= 0xA7 < 256) by lia.
  split; [exact Hb |].
  exact (proj1 (small_table_full_table true W32 0xEDB88320 0xA7
                  (TBL_CFG crc32_iso_hdlc) Hb)).
Defined.

Lemma impl_input_reverser_app (u : updater) (c : tbl_cfg) (REVERSE : bool)
    (crc : Z) (a b : list Z) :
  impl_input_reverser u c REVERSE crc (a ++ b) =
  impl_input_reverser u c REVERSE (impl_input_reverser u c REVERSE crc a) b.
Proof.
  unfold impl_input_reverser. destruct REVERSE; [apply for_bytes_app |].
  destruct u; apply for_bytes_app.
Qed.

Lemma impl_ext_input_reverser_app (u : updater_ext) (c : tbl_cfg) (REVERSE : bool)
    (crc : Z) (a b : list Z) (table : table_type u c) :
  impl_ext_input_reverser u c REVERSE crc (a ++ b) table =
  impl_ext_input_reverser u c REVERSE (impl_ext_input_reverser u c REVERSE crc a table) b table.
Proof.
  unfold impl_ext_input_reverser. destruct REVERSE; [apply for_bytes_app |].
  destruct u; apply for_bytes_app.
Qed.

(** C7 (streaming associativity): in every mode, [update(A)] followed by
    [update(B)] leaves the instance in the state of one [update(A ++ B)]
    from the same starting register, and [final] returns the same. *)
Theorem streaming_associativity (c : cfg) (m : mode) (A B : list Z) (this : impl) :
  mode_update c m B (mode_update c m A this) = mode_update c m (A ++ B) this
  /\ final c (mode_update c m B (mode_update c m A this))
     = final c (mode_update c m (A ++ B) this).
Proof.
  assert (Hreg : mode_update c m B (mode_update c m A this) = mode_update c m (A ++ B) this).
  { destruct m; unfold mode_update, update, update_ext; cbn [_crc]; f_equal;
      symmetry; first [apply impl_input_reverser_app | apply impl_ext_input_reverser_app]. }
  split; [exact Hreg | rewrite Hreg; reflexivity].
Qed.

(** C8 (finalization): [final] is [residue] xor [XOR_OUT], and [residue]
    is the register, with its bits reversed iff [REF_OUT != REF_REG]; in
    the mini library, whose register convention is [REF_IN], the same
    with [REF_IN] for [REF_REG].  Both are functions of the instance that
    return a value only: the register they read stays as it is. *)
Theorem finalization (c : cfg) (this : impl) (mc : mini.cfg) (mthis : mini.parametric) :
  final c this = Z.lxor (residue c this) (XOR_OUT c)
  /\ residue c this
     = (if xorb (REF_OUT c) (REF_REG c) then reverse_bits (WIDTH c) (interim this)
        else interim this)
  /\ mini.final mc mthis = Z.lxor (mini.residue mc mthis) (mini.XOR_OUT mc)
  /\ mini.residue mc mthis
     = (if xorb (mini.REF_OUT mc) (mini.REF_IN mc)
        then mini.reverse_bits (mini.WIDTH mc) (mini.interim mthis)
        else mini.interim mthis).
Proof.
  repeat split.
  - unfold residue, conditional_reflect, interim.
    destruct (REF_OUT c), (REF_REG c); reflexivity.
  - unfold mini.residue, mini.interim.
    destruct (mini.REF_OUT mc), (mini.REF_IN mc); reflexivity.
Qed.

(** C9 (mini library): with the same parameters the mini library computes
    what the [table_based] mode of the full library computes with
    [REF_REG = REF_IN]: [calculate], the register after [update], the
    register of a new instance, [residue] and [final]; and its lookup
    table is the generated table of the full library. *)
Theorem mini_equivalence (c : mini.cfg) (data : list Z) (r : Z) :
  mini_cfg_ok c -> is_uint (mini.WIDTH c) r -> is_bytes data ->
  let full := cfg_of_mini c in
  mini.calculate c data = calculate full updater_table_based data
  /\ mini.interim (mini.update c data (mini.parametric_from r))
     = interim (update full updater_table_based data (impl_from r))
  /\ mini.interim (mini.parametric_new c) = interim (impl_new full)
  /\ mini.residue c (mini.parametric_from r) = residue full (impl_from r)
  /\ mini.final c (mini.parametric_from r) = final full (impl_from r)
  /\ mini.table c = entries (table (TBL_CFG full)).
Proof.
  intros Hc Hr Hdata full. pose proof Hc as (Hpoly & Hinit & Hxor).
  assert (Hfull : cfg_ok full) by exact Hc.
  assert (Hnew : mini.initial c = ACTUAL_INIT full).
  { unfold mini.initial, ACTUAL_INIT, conditional_reflect, full. cbn [REF_REG cfg_of_mini WIDTH INIT].
    destruct (mini.REF_IN c); [apply mini_reverse_bits_eq, Hinit | reflexivity]. }
  assert (Hupdate : forall crc, is_uint (mini.WIDTH c) crc ->
            mini.base_calculate c data true crc
            = _crc (update full updater_table_based data (impl_from crc))).
  { intros crc Hcrc. rewrite mini_update_eq by assumption.
    change (update full updater_table_based data (impl_from crc))
      with (mode_update full table_based data (impl_from crc)).
    rewrite mode_update_kernel by assumption.
    unfold kernel_update, full. cbn [REF_IN REF_REG cfg_of_mini WIDTH].
    rewrite eqb_reflx. reflexivity. }
  assert (Hresidue : forall crc, is_uint (mini.WIDTH c) crc ->
            mini.residue c (mini.parametric_from crc) = residue full (impl_from crc)).
  { intros crc Hcrc. unfold mini.residue, residue, conditional_reflect, full.
    cbn [REF_OUT REF_REG cfg_of_mini WIDTH mini._crc mini.parametric_from _crc impl_from].
    destruct (negb (eqb (mini.REF_IN c) (mini.REF_OUT c)));
      [apply mini_reverse_bits_eq, Hcrc | reflexivity]. }
  repeat split.
  - assert (Hinit' : is_uint (mini.WIDTH c) (mini.initial c))
      by (rewrite Hnew; apply (ACTUAL_INIT_is_uint full Hfull)).
    transitivity
      (mini.final c (mini.parametric_from (mini.base_calculate c data true (mini.initial c)))).
    { unfold mini.calculate, mini.base_calculate, mini.final, mini.residue.
      cbn [mini._crc mini.parametric_from].
      destruct (mini.REF_IN c), (mini.REF_OUT c); reflexivity. }
    unfold mini.final. rewrite Hresidue.
    + rewrite Hupdate, Hnew by exact Hinit'. reflexivity.
    + rewrite mini_update_eq by assumption.
      apply tableless_update_is_uint; auto.
      apply (conditional_reflect_is_uint (mini.WIDTH c) (mini.REF_IN c)), Hpoly.
  - apply Hupdate, Hr.
  - exact Hnew.
  - apply Hresidue, Hr.
  - unfold mini.final, final. rewrite Hresidue by exact Hr. reflexivity.
  - apply mini_table_eq, Hc.
Qed.

Lemma mini_equivalence_witness :
  mini_cfg_ok mini_crc32_bzip2 /\ is_uint W32 0x12345678 /\ is_bytes check_data
  /\ mini.calculate mini_crc32_bzip2 check_data
     = calculate (cfg_of_mini mini_crc32_bzip2) updater_table_based check_data.
Proof.
  assert (Hc : mini_cfg_ok mini_crc32_bzip2) by (apply (cfg_okb_spec crc32_bzip2); reflexivity).
  assert (Hr : is_uint W32 0x12345678) by (apply is_uintb_spec; reflexivity).
  assert (Hdata : is_bytes check_data) by (apply is_bytesb_spec; reflexivity).
  split; [exact Hc |]. split; [exact Hr |]. split; [exact Hdata |].
  exact (proj1 (mini_equivalence mini_crc32_bzip2 check_data 0x12345678 Hc Hr Hdata)).
Defined.

(** C10 (empty input): in every mode an update with an empty byte range
    leaves the instance as it is, and [calculate] of the empty sequence
    is the initial register ([INIT], reversed iff [REF_REG]), reversed iff
    [REF_REG != REF_OUT], xor [XOR_OUT]. *)
Theorem empty_update (c : cfg) (m : mode) (this : impl) :
  mode_update c m [] this = this
  /\ mode_calculate c m []
     = Z.lxor
         (let actual_init :=
            if REF_REG c then reverse_bits (WIDTH c) (INIT c) else INIT c in
          if xorb (REF_REG c) (REF_OUT c)
          then reverse_bits (WIDTH c) actual_init
          else actual_init)
         (XOR_OUT c).
Proof.
  assert (Hreg : forall this, mode_update c m [] this = this).
  { intros [crc]. destruct m; unfold mode_update, update, update_ext,
      impl_input_reverser, impl_ext_input_reverser; cbn [_crc];
      destruct (negb (eqb (REF_IN c) (REF_REG c))); reflexivity. }
  split; [apply Hreg |].
  rewrite mode_calculate_final, Hreg.
  unfold final, residue, impl_new, impl_from, ACTUAL_INIT, conditional_reflect. cbn [_crc].
  destruct (REF_REG c), (REF_OUT c); reflexivity.
Qed.

(** * Further properties of the source *)

(** ** Bit reversal *)

(** X1: [reverse_bits] of each of the four widths moves bit [i] to bit
    [WIDTH - 1 - i], returns a value of the type, and is its own inverse:
    [reverse_bits(reverse_bits(v)) == v]. *)
Theorem reverse_bits_mirrors (w : width) (v i : Z) :
  is_uint w v -> 0 <= i < bits w ->
  Z.testbit (reverse_bits w v) i = Z.testbit v (bits w - 1 - i)
  /\ is_uint w (reverse_bits w v)
  /\ reverse_bits w (reverse_bits w v) = v.
Proof.
  intros Hv Hi. split; [| split].
  - rewrite reverse_bits_testbit by (auto; lia).
    destruct (Z.ltb_spec i (bits w)); [reflexivity | lia].
  - apply reverse_bits_is_uint, Hv.
  - apply reverse_bits_involutive, Hv.
Qed.

Lemma reverse_bits_mirrors_witness :
  is_uint W16 0x1234 /\ 0 <= 3 < bits W16
  /\ Z.testbit (reverse_bits W16 0x1234) 3 = Z.testbit 0x1234 (bits W16 - 1 - 3)
  /\ is_uint W16 (reverse_bits W16 0x1234)
  /\ reverse_bits W16 (reverse_bits W16 0x1234) = 0x1234.
Proof.
  assert (Hv : is_uint W16 0x1234) by (apply is_uintb_spec; reflexivity).
  assert (Hi : 0 <= 3 < bits W16) by (simpl; lia).
  split; [exact Hv |]. split; [exact Hi |].
  exact (reverse_bits_mirrors W16 0x1234 3 Hv Hi).
Defined.

(** X2: the three ways to provide [reverse_bits(uint8)], by arithmetic, by
    the table of 16 nibbles and by the table of 256 bytes, return the same
    value for every byte. *)
Theorem reverse_bits8_provisioning (v : Z) :
  0 <= v < 256 ->
  reverse_bits8_arith v = reverse_bits8 v /\ reverse_bits8_nibble v = reverse_bits8 v.
Proof.
  intros Hv. destruct (reverse_bits8_modes v Hv) as [Htable Hnibble].
  split; congruence.
Qed.

Lemma reverse_bits8_provisioning_witness :
  0 <= 0x13 < 256
  /\ reverse_bits8_arith 0x13 = reverse_bits8 0x13
  /\ reverse_bits8_nibble 0x13 = reverse_bits8 0x13.
Proof.
  assert (Hv : 0 <= 0x13 < 256) by lia.
  split; [exact Hv |].
  exact (reverse_bits8_provisioning 0x13 Hv).
Defined.

(** ** Table generation *)

Lemma generate_table_length (REF : bool) (w : width) (poly : Z) :
  length (generate_table REF w poly (replicate 256 0)) = 256%nat.
Proof. rewrite generate_table_shape, length_fmap, length_seqZ. reflexivity. Qed.

Lemma table_entry_bbb_update (REF : bool) (w : width) (poly b : Z) :
  0 <= b < 256 -> table_entry REF w poly b 0 = bbb_update REF w poly 0 b 8.
Proof.
  intros Hb. unfold table_entry. rewrite Z.shiftr_0_r, Z.shiftl_0_r.
  replace (if REF then b else b) with b by (destruct REF; reflexivity).
  rewrite to_uint8_small by exact Hb. reflexivity.
Qed.

(** X3: the generated table has 256 entries, and entry [b] is the register
    that the bit-by-bit update leaves when it starts from zero and absorbs
    the byte [b]. *)
Theorem generated_table_entry (REF : bool) (w : width) (poly b : Z) :
  is_uint w poly -> 0 <= b < 256 ->
  length (generate_table REF w poly (replicate 256 0)) = 256%nat
  /\ generate_table REF w poly (replicate 256 0) !!! Z.to_nat b
     = bbb_update REF w poly 0 b 8.
Proof.
  intros Hpoly Hb. split; [apply generate_table_length |].
  rewrite generate_table_lookup, table_entry_bbb_update by assumption. reflexivity.
Qed.

Lemma generated_table_entry_witness :
  is_uint W32 0xEDB88320 /\ 0 <= 0x80 < 256
  /\ length (generate_table true W32 0xEDB88320 (replicate 256 0)) = 256%nat
  /\ generate_table true W32 0xEDB88320 (replicate 256 0) !!! Z.to_nat 0x80
     = bbb_update true W32 0xEDB88320 0 0x80 8.
Proof.
  assert (Hpoly : is_uint W32 0xEDB88320) by (apply is_uintb_spec; reflexivity).
  assert (Hb : 0 <= 0x80 < 256) by lia.
  split; [exact Hpoly |]. split; [exact Hb |].
  exact (generated_table_entry true W32 0xEDB88320 0x80 Hpoly Hb).
Defined.

(** X4: the identity [table[i xor j] == table[i] xor table[j]], which the
    generator uses for fifteen of its sixteen rows, holds between any two
    entries of the generated table. *)
Theorem generated_table_xor (REF : bool) (w : width) (poly i j : Z) :
  is_uint w poly -> 0 <= i < 256 -> 0 <= j < 256 ->
  let table := generate_table REF w poly (replicate 256 0) in
  table !!! Z.to_nat (Z.lxor i j) = Z.lxor (table !!! Z.to_nat i) (table !!! Z.to_nat j).
Proof.
  intros Hpoly Hi Hj table. unfold table.
  rewrite !generate_table_lookup by auto using lxor_byte_range.
  apply table_entry_lxor; assumption.
Qed.

Lemma generated_table_xor_witness :
  is_uint W16 0x1021 /\ 0 <= 0x35 < 256 /\ 0 <= 0xC1 < 256
  /\ (let table := generate_table false W16 0x1021 (replicate 256 0) in
      table !!! Z.to_nat (Z.lxor 0x35 0xC1)
      = Z.lxor (table !!! Z.to_nat 0x35) (table !!! Z.to_nat 0xC1)).
Proof.
  assert (Hpoly : is_uint W16 0x1021) by (apply is_uintb_spec; reflexivity).
  assert (Hi : 0 <= 0x35 < 256) by lia.
  assert (Hj : 0 <= 0xC1 < 256) by lia.
  split; [exact Hpoly |]. split; [exact Hi |]. split; [exact Hj |].
  exact (generated_table_xor false W16 0x1021 0x35 0xC1 Hpoly Hi Hj).
Defined.

(** An array is the list of its elements, read by index. *)
Lemma list_of_length (n : Z) (l : list Z) :
  0 <= n -> length l = Z.to_nat n -> exists f : Z -> Z, l = f <$> seqZ 0 n.
Proof.
  intros Hn Hlen. exists (fun i => l !!! Z.to_nat i).
  apply list_eq_same_length with (Z.to_nat n); [ | exact Hlen | ].
  - rewrite length_fmap, length_seqZ. reflexivity.
  - intros i x y Hi Hx Hy.
    rewrite list_lookup_fmap in Hy.
    destruct (seqZ 0 n !! i) as [z |] eqn:Hz; [| discriminate].
    apply lookup_seqZ in Hz as [-> _]. simpl in Hy. injection Hy as <-.
    apply list_lookup_total_correct in Hx. rewrite <- Hx. f_equal. lia.
Qed.

Lemma generate_table_storage (REF : bool) (w : width) (poly : Z) (storage : list Z) :
  length storage = 256%nat ->
  generate_table REF w poly storage = generate_table REF w poly (replicate 256 0).
Proof.
  intros Hlen. destruct (list_of_length 256 storage ltac:(lia) Hlen) as [f ->].
  destruct REF; cbv -[table_entry]; reflexivity.
Qed.

Lemma generate_table_simple_storage (REF : bool) (w : width) (poly : Z) (storage : list Z) :
  length storage = 256%nat ->
  generate_table_simple REF w poly storage
  = generate_table_simple REF w poly (replicate 256 0).
Proof.
  intros Hlen. destruct (list_of_length 256 storage ltac:(lia) Hlen) as [f ->].
  cbv -[table_entry]; reflexivity.
Qed.

Lemma generate_small_table_storage (REF : bool) (w : width) (poly : Z)
    (row column : list Z) :
  length row = 16%nat -> length column = 16%nat ->
  generate_small_table REF w poly row column
  = generate_small_table REF w poly (replicate 16 0) (replicate 16 0).
Proof.
  intros Hrow Hcolumn.
  destruct (list_of_length 16 row ltac:(lia) Hrow) as [f ->].
  destruct (list_of_length 16 column ltac:(lia) Hcolumn) as [g ->].
  destruct REF; cbv -[table_entry]; reflexivity.
Qed.

(** X5: the generator of PARAMETRIC_CRC_SIMPLE_TABLE_GENERATOR, which
    computes every entry with [table_entry], and the default generator,
    which computes 30 entries and combines them, fill an array of 256
    entries alike. *)
Theorem generate_table_simple_same (REF : bool) (w : width) (poly : Z) (storage : list Z) :
  is_uint w poly -> length storage = 256%nat ->
  generate_table_simple REF w poly storage = generate_table REF w poly storage.
Proof.
  intros Hpoly Hlen.
  rewrite generate_table_simple_storage, generate_table_storage by exact Hlen.
  apply generate_table_simple_eq, Hpoly.
Qed.

Lemma generate_table_simple_same_witness :
  is_uint W8 0x07 /\ length (replicate 256 0xAA) = 256%nat
  /\ generate_table_simple false W8 0x07 (replicate 256 0xAA)
     = generate_table false W8 0x07 (replicate 256 0xAA).
Proof.
  assert (Hpoly : is_uint W8 0x07) by (apply is_uintb_spec; reflexivity).
  assert (Hlen : length (replicate 256 0xAA) = 256%nat) by reflexivity.
  split; [exact Hpoly |]. split; [exact Hlen |].
  exact (generate_table_simple_same false W8 0x07 (replicate 256 0xAA) Hpoly Hlen).
Defined.

(** X6: [generate] writes every entry: a table constructed with
    UNINITIALIZED, whatever its storage holds, is after [generate()] the
    default constructed table; so for [table] and for [small_table]. *)
Theorem generate_overwrites_storage (c : tbl_cfg)
    (this : basic_table (tbl_WIDTH c)) (small : basic_small_table (tbl_WIDTH c)) :
  length (entries this) = 256%nat ->
  length (first_row small) = 16%nat -> length (first_column small) = 16%nat ->
  table_generate c this = table c /\ small_table_generate c small = small_table c.
Proof.
  intros Hlen Hrow Hcolumn. split.
  - unfold table, table_generate. cbn [entries].
    rewrite generate_table_storage by exact Hlen. reflexivity.
  - unfold small_table, small_table_generate. cbn [first_row first_column].
    rewrite generate_small_table_storage by assumption. reflexivity.
Qed.

Lemma generate_overwrites_storage_witness :
  let c := TBL_CFG crc32_iso_hdlc in
  let this : basic_table (tbl_WIDTH c) := {| entries := replicate 256 0xDEADBEEF |} in
  let small : basic_small_table (tbl_WIDTH c) :=
    {| first_row := replicate 16 1; first_column := replicate 16 2 |} in
  length (entries this) = 256%nat
  /\ length (first_row small) = 16%nat /\ length (first_column small) = 16%nat
  /\ table_generate c this = table c /\ small_table_generate c small = small_table c.
Proof.
  intros c this small.
  assert (Hlen : length (entries this) = 256%nat) by reflexivity.
  assert (Hrow : length (first_row small) = 16%nat) by reflexivity.
  assert (Hcolumn : length (first_column small) = 16%nat) by reflexivity.
  split; [exact Hlen |]. split; [exact Hrow |]. split; [exact Hcolumn |].
  exact (generate_overwrites_storage c this small Hlen Hrow Hcolumn).
Defined.

(** ** The kernel *)

(** X7: the skipped steps of [table_entry].  For an index whose upper
    nibble is zero the unreflected kernel may skip its first four steps,
    and for an index whose lower nibble is zero the reflected kernel may:
    the entry is the same as without skipping, for any polynomial. *)
Theorem table_entry_skip_bits (w : width) (poly i : Z) :
  0 <= i < 16 ->
  table_entry false w poly i 4 = table_entry false w poly i 0
  /\ table_entry true w poly (Z.shiftl i 4) 4 = table_entry true w poly (Z.shiftl i 4) 0.
Proof.
  intros Hi. split;
    [apply table_entry_skip_unreflected | apply table_entry_skip_reflected]; exact Hi.
Qed.

Lemma table_entry_skip_bits_witness :
  0 <= 0xB < 16
  /\ table_entry false W32 0x04C11DB7 0xB 4 = table_entry false W32 0x04C11DB7 0xB 0
  /\ table_entry true W32 0x04C11DB7 (Z.shiftl 0xB 4) 4
     = table_entry true W32 0x04C11DB7 (Z.shiftl 0xB 4) 0.
Proof.
  assert (Hi : 0 <= 0xB < 16) by lia.
  split; [exact Hi |].
  exact (table_entry_skip_bits W32 0x04C11DB7 0xB Hi).
Defined.

(** X8: a byte may go through [bbb_update] in two pieces.  The
    unreflected kernel takes the [n] upper bits first, the other bits
    zeroed, then the remaining bits moved to the top; the reflected
    kernel takes the [n] lower bits first, then the remaining bits moved
    to the bottom.  The register is that of one update with the byte. *)
Theorem bbb_update_in_two_pieces (REF : bool) (w : width) (poly crc b n : Z) :
  is_uint w poly -> is_uint w crc -> 0 <= b < 256 -> 0 <= n <= 8 ->
  let first :=
    if REF then Z.land b (Z.ones n) else Z.shiftl (Z.shiftr b (8 - n)) (8 - n) in
  let second := if REF then Z.shiftr b n else to_uint8 (Z.shiftl b n) in
  bbb_update REF w poly (bbb_update REF w poly crc first n) second (8 - n)
  = bbb_update REF w poly crc b 8.
Proof.
  intros Hpoly Hcrc Hb Hn first second. pose proof (bits_pos w) as Hw.
  assert (Hfirst : 0 <= first < 256).
  { unfold first. apply (range_of_testbit 8); [lia |]. intros i Hi. destruct REF.
    - rewrite Z.land_spec, (range_testbit_high 8 b i) by lia. reflexivity.
    - rewrite Z.shiftl_spec, Z.shiftr_spec by lia.
      apply (range_testbit_high 8); lia. }
  assert (Hsecond : 0 <= second < 256).
  { unfold second. destruct REF; [| apply (wrap_range 8); lia].
    apply (range_of_testbit 8); [lia |]. intros i Hi.
    rewrite Z.shiftr_spec by lia. apply (range_testbit_high 8); lia. }
  rewrite (bbb_update_eq REF w poly crc first n) by assumption.
  rewrite bbb_update_eq
    by (try apply shift_register_n_is_uint; auto using is_uint_lxor, byte_in_is_uint).
  rewrite (bbb_update_eq REF w poly crc b 8) by assumption.
  replace (Z.to_nat 8) with (Z.to_nat (8 - n) + Z.to_nat n)%nat by lia.
  rewrite shift_register_n_add. f_equal.
  (* the second piece, as it stands before the first [n] steps *)
  set (rest := if REF then Z.shiftl (Z.shiftr b n) n else wrap (8 - n) b).
  assert (Hrest : 0 <= rest < 256).
  { unfold rest. apply (range_of_testbit 8); [lia |]. intros i Hi. destruct REF.
    - rewrite Z.shiftl_spec, Z.shiftr_spec by lia. apply (range_testbit_high 8); lia.
    - rewrite wrap_testbit by lia.
      destruct (Z.ltb_spec i (8 - n)); [lia | reflexivity]. }
  assert (Hsteps : shift_register_n REF w poly (Z.to_nat n) (byte_in REF w rest)
                   = byte_in REF w second).
  { unfold rest, second, byte_in. destruct REF.
    - pose proof (shift_register_n_reflected_low w poly (Z.to_nat n) (Z.shiftr b n))
        as Hlow.
      rewrite Z2Nat.id in Hlow by lia. exact Hlow.
    - rewrite shift_register_n_unreflected_small.
      + rewrite Z2Nat.id by lia. apply Z.bits_inj'. intros i Hi.
        unfold to_uint8.
        rewrite Z.shiftl_shiftl by lia.
        rewrite !Z.shiftl_spec by lia. rewrite !wrap_testbit by lia.
        destruct (Z.le_gt_cases 0 (i - (bits w - 8))) as [Hge | Hlt].
        * rewrite Z.shiftl_spec by lia.
          replace (i - (bits w - 8 + n)) with (i - (bits w - 8) - n) by lia.
          destruct (Z.ltb_spec (i - (bits w - 8) - n) (8 - n));
            destruct (Z.ltb_spec (i - (bits w - 8)) 8); try lia; reflexivity.
        * rewrite (Z.testbit_neg_r _ (i - (bits w - 8))) by lia.
          rewrite (Z.testbit_neg_r _ (i - (bits w - 8 + n))) by lia.
          rewrite !andb_false_r. reflexivity.
      + lia.
      + rewrite Z2Nat.id by lia. split; [apply Z.shiftl_nonneg, wrap_range; lia |].
        apply (range_of_testbit (bits w - n)); [lia |]. intros i Hi.
        rewrite Z.shiftl_spec, wrap_testbit by lia.
        destruct (Z.ltb_spec (i - (bits w - 8)) (8 - n)); [lia | reflexivity]. }
  rewrite <- Hsteps.
  rewrite <- shift_register_n_lxor by auto using is_uint_lxor, byte_in_is_uint.
  f_equal. rewrite Z.lxor_assoc. f_equal. rewrite <- byte_in_lxor. f_equal.
  unfold first, rest. apply Z.bits_inj'. intros i Hi. destruct REF.
  - rewrite Z.lxor_spec, Z.land_spec, Z.testbit_ones_nonneg, Z.shiftl_spec by lia.
    destruct (Z.ltb_spec i n); simpl.
    + rewrite (Z.testbit_neg_r _ (i - n)) by lia.
      rewrite andb_true_r, xorb_false_r. reflexivity.
    + rewrite Z.shiftr_spec by lia. rewrite andb_false_r. simpl. f_equal. lia.
  - rewrite Z.lxor_spec, Z.shiftl_spec, wrap_testbit by lia.
    destruct (Z.ltb_spec i (8 - n)); simpl.
    + rewrite (Z.testbit_neg_r _ (i - (8 - n))) by lia. reflexivity.
    + rewrite Z.shiftr_spec by lia. rewrite xorb_false_r. f_equal. lia.
Qed.

Lemma bbb_update_in_two_pieces_witness :
  is_uint W16 0x1021 /\ is_uint W16 0xBEEF /\ 0 <= 0xA5 < 256 /\ 0 <= 3 <= 8
  /\ bbb_update false W16 0x1021
       (bbb_update false W16 0x1021 0xBEEF (Z.shiftl (Z.shiftr 0xA5 (8 - 3)) (8 - 3)) 3)
       (to_uint8 (Z.shiftl 0xA5 3)) (8 - 3)
     = bbb_update false W16 0x1021 0xBEEF 0xA5 8.
Proof.
  assert (Hpoly : is_uint W16 0x1021) by (apply is_uintb_spec; reflexivity).
  assert (Hcrc : is_uint W16 0xBEEF) by (apply is_uintb_spec; reflexivity).
  assert (Hb : 0 <= 0xA5 < 256) by lia.
  assert (Hn : 0 <= 3 <= 8) by lia.
  split; [exact Hpoly |]. split; [exact Hcrc |]. split; [exact Hb |]. split; [exact Hn |].
  exact (bbb_update_in_two_pieces false W16 0x1021 0xBEEF 0xA5 3 Hpoly Hcrc Hb Hn).
Defined.

(** X9: [bbb_update_wide] with a word is the byte-by-byte update with
    the bytes of the word in the order of the register: most significant
    byte first for the unreflected register, least significant byte first
    for the reflected one. *)
Theorem bbb_update_wide_bytes (REF : bool) (w : width) (poly crc b : Z) :
  is_uint w poly -> is_uint w crc -> is_uint w b ->
  bbb_update_wide REF w poly crc b
  = tableless_update REF w poly crc
      (if REF then append_little_endian w b [] else append_big_endian w b []).
Proof.
  intros Hpoly Hcrc Hb. destruct (bits_bytes w) as [Hn Hn'].
  rewrite bbb_update_wide_lxor. destruct REF.
  - rewrite append_little_endian_eq. cbn [app].
    rewrite tableless_update_little_endian by (auto; lia).
    rewrite Hn, Hn', wrap_small by exact Hb. reflexivity.
  - rewrite append_big_endian_eq. cbn [app].
    rewrite tableless_update_big_endian by (auto; lia).
    rewrite Hn, Hn', wrap_small by exact Hb.
    rewrite Z.sub_diag, Z.shiftl_0_r. reflexivity.
Qed.

Lemma bbb_update_wide_bytes_witness :
  is_uint W32 0x04C11DB7 /\ is_uint W32 0xFFFFFFFF /\ is_uint W32 0x12345678
  /\ bbb_update_wide false W32 0x04C11DB7 0xFFFFFFFF 0x12345678
     = tableless_update false W32 0x04C11DB7 0xFFFFFFFF
         (append_big_endian W32 0x12345678 []).
Proof.
  assert (Hpoly : is_uint W32 0x04C11DB7) by (apply is_uintb_spec; reflexivity).
  assert (Hcrc : is_uint W32 0xFFFFFFFF) by (apply is_uintb_spec; reflexivity).
  assert (Hb : is_uint W32 0x12345678) by (apply is_uintb_spec; reflexivity).
  split; [exact Hpoly |]. split; [exact Hcrc |]. split; [exact Hb |].
  exact (bbb_update_wide_bytes false W32 0x04C11DB7 0xFFFFFFFF 0x12345678 Hpoly Hcrc Hb).
Defined.

(** X10: the low level interface.  With a plain array of 256 entries
    filled by [generate_table], [core::table_based_update] leaves the
    register that [core::tableless_update] leaves, from any starting
    register and for any polynomial of the type. *)
Theorem core_table_based_update (REF : bool) (w : width) (poly crc : Z) (data : list Z) :
  is_uint w poly -> is_uint w crc -> is_bytes data ->
  let table : list Z := generate_table REF w poly (replicate 256 0) in
  table_based_update REF w crc data table = tableless_update REF w poly crc data.
Proof.
  intros Hpoly Hcrc Hdata table.
  apply table_based_update_eq; auto.
  intros i Hi. unfold subscript, array_subscript, table.
  apply generate_table_lookup; assumption.
Qed.

Lemma core_table_based_update_witness :
  is_uint W16 0x1021 /\ is_uint W16 0 /\ is_bytes check_data
  /\ (let table : list Z := generate_table false W16 0x1021 (replicate 256 0) in
      table_based_update false W16 0 check_data table
      = tableless_update false W16 0x1021 0 check_data).
Proof.
  assert (Hpoly : is_uint W16 0x1021) by (apply is_uintb_spec; reflexivity).
  assert (Hcrc : is_uint W16 0) by (apply is_uintb_spec; reflexivity).
  assert (Hdata : is_bytes check_data) by (apply is_bytesb_spec; reflexivity).
  split; [exact Hpoly |]. split; [exact Hcrc |]. split; [exact Hdata |].
  exact (core_table_based_update false W16 0x1021 0 check_data Hpoly Hcrc Hdata).
Defined.

(** ** Streaming instances *)

(** X11: the register stays a value of [uint<WIDTH>].  From a register of
    the type, an update with bytes in any mode leaves a register of the
    type, and [residue], [final] and [calculate] return values of the
    type. *)
Theorem register_stays_in_type (c : cfg) (m : mode) (data : list Z) (this : impl) :
  cfg_ok c -> is_uint (WIDTH c) (interim this) -> is_bytes data ->
  is_uint (WIDTH c) (interim (mode_update c m data this))
  /\ is_uint (WIDTH c) (residue c (mode_update c m data this))
  /\ is_uint (WIDTH c) (final c (mode_update c m data this))
  /\ is_uint (WIDTH c) (mode_calculate c m data).
Proof.
  intros Hc Hthis Hdata. pose proof Hc as (_ & _ & Hxor).
  assert (Hupdate : forall this, is_uint (WIDTH c) (_crc this) ->
            is_uint (WIDTH c) (_crc (mode_update c m data this))).
  { intros x Hx. rewrite mode_update_kernel by assumption.
    apply kernel_update_is_uint; assumption. }
  assert (Hfinal : forall this, is_uint (WIDTH c) (_crc this) ->
            is_uint (WIDTH c) (final c (mode_update c m data this))).
  { intros x Hx. unfold final, residue.
    apply is_uint_lxor; [apply conditional_reflect_is_uint, Hupdate, Hx | exact Hxor]. }
  split; [apply Hupdate, Hthis |].
  split; [apply conditional_reflect_is_uint, Hupdate, Hthis |].
  split; [apply Hfinal, Hthis |].
  rewrite mode_calculate_final. apply Hfinal, (ACTUAL_INIT_is_uint c Hc).
Qed.

Lemma register_stays_in_type_witness :
  cfg_ok crc64_xz /\ is_uint (WIDTH crc64_xz) (interim (impl_new crc64_xz))
  /\ is_bytes check_data
  /\ is_uint (WIDTH crc64_xz)
       (interim (mode_update crc64_xz small_table_based check_data (impl_new crc64_xz))).
Proof.
  assert (Hc : cfg_ok crc64_xz) by (apply cfg_okb_spec; reflexivity).
  assert (Hthis : is_uint (WIDTH crc64_xz) (interim (impl_new crc64_xz)))
    by (apply is_uintb_spec; reflexivity).
  assert (Hdata : is_bytes check_data) by (apply is_bytesb_spec; reflexivity).
  split; [exact Hc |]. split; [exact Hthis |]. split; [exact Hdata |].
  exact (proj1 (register_stays_in_type crc64_xz small_table_based check_data
                  (impl_new crc64_xz) Hc Hthis Hdata)).
Defined.

Lemma mode_update_byte_eq (c : cfg) (m : mode) (b : Z) (this : impl) :
  mode_update_byte c m b this = mode_update c m [b] this.
Proof. destruct m; reflexivity. Qed.

(** X12: the streaming interface composes.  Bytes given one at a time to
    [update(uint8)] leave the instance that one [update] with the whole
    range leaves; and an instance constructed from the [interim()] of
    another continues its calculation: after the rest of the input its
    [final()] is [calculate] of the whole input. *)
Theorem streaming_byte_by_byte (c : cfg) (m : mode) (A B : list Z) (this : impl) :
  fold_left (fun this b => mode_update_byte c m b this) A this = mode_update c m A this
  /\ final c (mode_update c m B
                (impl_from (interim (mode_update c m A (impl_new c)))))
     = mode_calculate c m (A ++ B).
Proof.
  assert (Happ : forall A B this,
            mode_update c m B (mode_update c m A this) = mode_update c m (A ++ B) this).
  { intros A' B' this'.
    destruct m; unfold mode_update, update, update_ext; cbn [_crc]; f_equal;
      symmetry; first [apply impl_input_reverser_app | apply impl_ext_input_reverser_app]. }
  assert (Hnil : forall this, mode_update c m [] this = this).
  { intros [crc]. destruct m; unfold mode_update, update, update_ext,
      impl_input_reverser, impl_ext_input_reverser; cbn [_crc];
      destruct (negb (eqb (REF_IN c) (REF_REG c))); reflexivity. }
  split.
  - revert this. induction A as [| b A IH]; intros this; cbn [fold_left].
    + symmetry. apply Hnil.
    + rewrite IH, mode_update_byte_eq. apply (Happ [b] A).
  - rewrite mode_calculate_final, <- Happ.
    destruct (mode_update c m A (impl_new c)) as [crc]. reflexivity.
Qed.

(** ** The residue *)

(** X13: the constant [RESIDUE] does not depend on the register
    convention: a model has the same [RESIDUE] with a reflected and with
    an unreflected register, and it is a value of [uint<WIDTH>]. *)
Theorem RESIDUE_any_register (c : cfg) (r1 r2 : bool) :
  cfg_ok c ->
  RESIDUE (with_REF_REG c r1) = RESIDUE (with_REF_REG c r2)
  /\ is_uint (WIDTH c) (RESIDUE c).
Proof.
  intros Hc. split.
  - pose proof (RESIDUE_REF_REG c Hc). destruct r1, r2; congruence.
  - pose proof Hc as (_ & _ & Hxor). unfold RESIDUE, residue_const.
    rewrite bbb_update_wide_eq.
    apply conditional_reflect_is_uint, shift_register_n_is_uint;
      [apply ACTUAL_POLY_is_uint, Hc | apply conditional_reflect_is_uint, Hxor].
Qed.

Lemma RESIDUE_any_register_witness :
  cfg_ok crc32_bzip2
  /\ RESIDUE (with_REF_REG crc32_bzip2 false) = RESIDUE (with_REF_REG crc32_bzip2 true)
  /\ is_uint (WIDTH crc32_bzip2) (RESIDUE crc32_bzip2).
Proof.
  assert (Hc : cfg_ok crc32_bzip2) by (apply cfg_okb_spec; reflexivity).
  split; [exact Hc |].
  exact (RESIDUE_any_register crc32_bzip2 false true Hc).
Defined.

(** X14: the residue law as the code keeps it.  For every model, mode and
    dataword, [residue()] after the codeword that [run_one] forms is
    [RESIDUE] when [REF_IN == REF_OUT], and the bit-reversed [RESIDUE]
    when [REF_IN != REF_OUT]. *)
Theorem residue_after_codeword (c : cfg) (m : mode) (dataword : list Z) :
  cfg_ok c -> is_bytes dataword ->
  residue_of_codeword c m dataword
  = (if eqb (REF_IN c) (REF_OUT c) then RESIDUE c else reverse_bits (WIDTH c) (RESIDUE c)).
Proof.
  intros Hc Hdata. rewrite residue_of_codeword_spec by assumption.
  destruct (eqb (REF_IN c) (REF_OUT c)); reflexivity.
Qed.

Lemma residue_after_codeword_witness :
  cfg_ok crc16_ibm_sdlc /\ is_bytes STR1
  /\ residue_of_codeword crc16_ibm_sdlc tableless STR1
     = (if eqb (REF_IN crc16_ibm_sdlc) (REF_OUT crc16_ibm_sdlc)
        then RESIDUE crc16_ibm_sdlc
        else reverse_bits (WIDTH crc16_ibm_sdlc) (RESIDUE crc16_ibm_sdlc)).
Proof.
  assert (Hc : cfg_ok crc16_ibm_sdlc) by (apply cfg_okb_spec; reflexivity).
  assert (Hdata : is_bytes STR1) by (apply is_bytesb_spec; reflexivity).
  split; [exact Hc |]. split; [exact Hdata |].
  exact (residue_after_codeword crc16_ibm_sdlc tableless STR1 Hc Hdata).
Defined.

(** ** Linearity *)

Lemma bbb_update_lxor (REF : bool) (w : width) (poly crc1 crc2 b1 b2 : Z) :
  is_uint w poly -> is_uint w crc1 -> is_uint w crc2 ->
  0 <= b1 < 256 -> 0 <= b2 < 256 ->
  bbb_update REF w poly (Z.lxor crc1 crc2) (Z.lxor b1 b2) 8
  = Z.lxor (bbb_update REF w poly crc1 b1 8) (bbb_update REF w poly crc2 b2 8).
Proof.
  intros Hpoly H1 H2 Hb1 Hb2.
  rewrite !bbb_update_eq by auto using is_uint_lxor, lxor_byte_range.
  rewrite <- shift_register_n_lxor by auto using is_uint_lxor, byte_in_is_uint.
  rewrite byte_in_lxor.
  replace (Z.lxor (Z.lxor crc1 crc2) (Z.lxor (byte_in REF w b1) (byte_in REF w b2)))
    with (Z.lxor (Z.lxor crc1 (byte_in REF w b1)) (Z.lxor crc2 (byte_in REF w b2)));
    [reflexivity |].
  rewrite !Z.lxor_assoc, <- (Z.lxor_assoc (byte_in REF w b1)),
    (Z.lxor_comm (byte_in REF w b1) crc2), !Z.lxor_assoc.
  reflexivity.
Qed.

Lemma tableless_update_lxor (REF : bool) (w : width) (poly : Z) (a b : list Z) :
  is_uint w poly -> is_bytes a -> is_bytes b -> length a = length b ->
  forall crc1 crc2, is_uint w crc1 -> is_uint w crc2 ->
  tableless_update REF w poly (Z.lxor crc1 crc2) (zip_with Z.lxor a b)
  = Z.lxor (tableless_update REF w poly crc1 a) (tableless_update REF w poly crc2 b).
Proof.
  intros Hpoly Ha. revert b. induction Ha as [| x a Hx Ha IH]; intros b Hb Hlen crc1 crc2 H1 H2.
  - destruct b; [reflexivity | discriminate].
  - destruct Hb as [| y b Hy Hb]; [discriminate |].
    cbn [zip_with]. rewrite !tableless_update_cons.
    rewrite bbb_update_lxor by assumption.
    apply IH; try assumption; [cbn in Hlen; congruence | |]; apply bbb_update_is_uint; assumption.
Qed.

Lemma kernel_bytes_zip (REVERSE : bool) (a b : list Z) :
  is_bytes a -> is_bytes b ->
  kernel_bytes REVERSE (zip_with Z.lxor a b)
  = zip_with Z.lxor (kernel_bytes REVERSE a) (kernel_bytes REVERSE b).
Proof.
  intros Ha. destruct REVERSE; [| reflexivity]. cbn [kernel_bytes].
  revert b. induction Ha as [| x a Hx Ha IH]; intros b Hb; [reflexivity |].
  destruct Hb as [| y b Hy Hb]; [reflexivity |].
  cbn [zip_with map]. rewrite IH by exact Hb. f_equal.
  apply (reverse_bits_lxor W8 x y Hx Hy).
Qed.

Lemma kernel_bytes_length (REVERSE : bool) (data : list Z) :
  length (kernel_bytes REVERSE data) = length data.
Proof. destruct REVERSE; [apply length_map | reflexivity]. Qed.

(** X15: an update is linear over exclusive or.  For two inputs of the
    same length, the register after the bytewise xor of the inputs, from
    the xor of two starting registers, is the xor of the registers after
    each input from its starting register; in every mode. *)
Theorem update_linear (c : cfg) (m : mode) (a b : list Z) (r1 r2 : Z) :
  cfg_ok c -> is_uint (WIDTH c) r1 -> is_uint (WIDTH c) r2 ->
  is_bytes a -> is_bytes b -> length a = length b ->
  interim (mode_update c m (zip_with Z.lxor a b) (impl_from (Z.lxor r1 r2)))
  = Z.lxor (interim (mode_update c m a (impl_from r1)))
           (interim (mode_update c m b (impl_from r2))).
Proof.
  intros Hc H1 H2 Ha Hb Hlen.
  assert (Hzip : is_bytes (zip_with Z.lxor a b)).
  { clear Hlen. revert b Hb. induction Ha as [| x a Hx Ha IH]; intros b Hb; [constructor |].
    destruct Hb as [| y b Hy Hb]; [constructor |].
    cbn [zip_with]. constructor; [apply lxor_byte_range; assumption | apply IH, Hb]. }
  unfold interim.
  rewrite !mode_update_kernel
    by (try assumption; unfold impl_from; cbn [_crc]; auto using is_uint_lxor).
  unfold kernel_update, impl_from. cbn [_crc].
  rewrite kernel_bytes_zip by assumption.
  apply tableless_update_lxor; auto using ACTUAL_POLY_is_uint, is_bytes_kernel.
  rewrite !kernel_bytes_length. exact Hlen.
Qed.

Lemma update_linear_witness :
  cfg_ok crc32_iso_hdlc /\ is_uint (WIDTH crc32_iso_hdlc) 0x12345678
  /\ is_uint (WIDTH crc32_iso_hdlc) 0x9abcdef0
  /\ is_bytes STR2 /\ is_bytes [1; 2; 3; 4] /\ length STR2 = length [1; 2; 3; 4]
  /\ interim (mode_update crc32_iso_hdlc table_based (zip_with Z.lxor STR2 [1; 2; 3; 4])
                          (impl_from (Z.lxor 0x12345678 0x9abcdef0)))
     = Z.lxor (interim (mode_update crc32_iso_hdlc table_based STR2 (impl_from 0x12345678)))
              (interim (mode_update crc32_iso_hdlc table_based [1; 2; 3; 4]
                                    (impl_from 0x9abcdef0))).
Proof.
  assert (Hc : cfg_ok crc32_iso_hdlc) by (apply cfg_okb_spec; reflexivity).
  assert (H1 : is_uint (WIDTH crc32_iso_hdlc) 0x12345678)
    by (apply is_uintb_spec; reflexivity).
  assert (H2 : is_uint (WIDTH crc32_iso_hdlc) 0x9abcdef0)
    by (apply is_uintb_spec; reflexivity).
  assert (Ha : is_bytes STR2) by (apply is_bytesb_spec; reflexivity).
  assert (Hb : is_bytes [1; 2; 3; 4]) by (apply is_bytesb_spec; reflexivity).
  assert (Hlen : length STR2 = length [1; 2; 3; 4]) by reflexivity.
  split; [exact Hc |]. split; [exact H1 |]. split; [exact H2 |].
  split; [exact Ha |]. split; [exact Hb |]. split; [exact Hlen |].
  exact (update_linear crc32_iso_hdlc table_based STR2 [1; 2; 3; 4]
           0x12345678 0x9abcdef0 Hc H1 H2 Ha Hb Hlen).
Defined.

(** ** The tables of the two register conventions *)

(** X16: the table of the reflected register is the mirror image of the
    table of the unreflected register: its entry at the bit-reversed
    index is the bit-reversed entry. *)
Theorem reflected_table_mirrors (w : width) (poly i : Z) :
  is_uint w poly -> 0 <= i < 256 ->
  let unreflected := table {| tbl_WIDTH := w; tbl_POLY := poly; tbl_REF_REG := false |} in
  let reflected := table {| tbl_WIDTH := w; tbl_POLY := poly; tbl_REF_REG := true |} in
  subscript reflected (reverse_bits8 i) = reverse_bits w (subscript unreflected i).
Proof.
  intros Hpoly Hi unreflected reflected. unfold unreflected, reflected.
  rewrite !table_subscript
    by (auto using reverse_bits8_range;
        apply (conditional_reflect_is_uint w _ poly Hpoly)).
  cbn [tbl_REF_REG tbl_WIDTH]. unfold tbl_ACTUAL_POLY, conditional_reflect.
  cbn [tbl_REF_REG tbl_WIDTH tbl_POLY].
  rewrite !table_entry_eq by auto using reverse_bits8_range.
  rewrite shift_register_n_reverse by auto using byte_in_is_uint.
  rewrite byte_in_reverse by exact Hi. reflexivity.
Qed.

Lemma reflected_table_mirrors_witness :
  is_uint W32 0x04C11DB7 /\ 0 <= 0x01 < 256
  /\ (let unreflected :=
        table {| tbl_WIDTH := W32; tbl_POLY := 0x04C11DB7; tbl_REF_REG := false |} in
      let reflected :=
        table {| tbl_WIDTH := W32; tbl_POLY := 0x04C11DB7; tbl_REF_REG := true |} in
      subscript reflected (reverse_bits8 0x01)
      = reverse_bits W32 (subscript unreflected 0x01)).
Proof.
  assert (Hpoly : is_uint W32 0x04C11DB7) by (apply is_uintb_spec; reflexivity).
  assert (Hi : 0 <= 0x01 < 256) by lia.
  split; [exact Hpoly |]. split; [exact Hi |].
  exact (reflected_table_mirrors W32 0x04C11DB7 0x01 Hpoly Hi).
Defined.

(** ** The catalogue and the test drivers *)

Lemma mode_calculate_any (c : cfg) (m1 m2 : mode) (r1 r2 : bool) (data : list Z) :
  cfg_ok c -> is_bytes data ->
  mode_calculate (with_REF_REG c r1) m1 data = mode_calculate (with_REF_REG c r2) m2 data.
Proof.
  intros Hc Hdata.
  assert (Hm : forall r m, mode_calculate (with_REF_REG c r) m data
                           = mode_calculate (with_REF_REG c false) tableless data).
  { intros r m. transitivity (mode_calculate (with_REF_REG c r) tableless data).
    - rewrite !mode_calculate_kernel by auto using with_REF_REG_ok. reflexivity.
    - destruct r; [symmetry; apply mode_calculate_REF_REG; assumption | reflexivity]. }
  rewrite (Hm r1 m1), (Hm r2 m2). reflexivity.
Qed.

Lemma RESIDUE_any (c : cfg) (r : bool) :
  cfg_ok c -> RESIDUE (with_REF_REG c r) = RESIDUE c.
Proof.
  intros Hc. pose proof (RESIDUE_REF_REG c Hc) as H.
  rewrite <- (with_REF_REG_same c) at 2. destruct r, (REF_REG c); congruence.
Qed.

(** The checks of the catalogue, by evaluation. *)
Lemma catalogue_entries_ok : forallb catalogue_entry_ok TEST_CRC_list = true.
Proof. vm_compute. reflexivity. Qed.

Lemma catalogue_entry_facts (c : cfg) (check_value residue_const : Z) :
  catalogue_entry_ok (c, check_value, residue_const) = true ->
  cfg_ok c /\ REF_IN c = REF_OUT c
  /\ parametric_calculate c check_data = check_value /\ RESIDUE c = residue_const.
Proof.
  unfold catalogue_entry_ok. rewrite !andb_true_iff.
  intros [[[Hc Hsame] Hcheck] Hres].
  apply cfg_okb_spec in Hc. apply eqb_prop in Hsame.
  apply Z.eqb_eq in Hcheck. apply Z.eqb_eq in Hres. auto.
Qed.

(** X17: every model of the catalogue gives the values listed for it.
    For each of the 69 lines [TEST_CRC(name, check, residue)]: the
    parameters fit the width, [REF_IN = REF_OUT], and in every mode and
    with either register convention [calculate] of ["123456789"] is
    [check], [RESIDUE] is [residue], and [residue()] after the codeword of
    any dataword is [residue]. *)
Theorem catalogue_verified :
  Forall (fun '(c, check_value, residue_const) =>
            cfg_ok c /\ REF_IN c = REF_OUT c
            /\ forall (m : mode) (r : bool),
                 mode_calculate (with_REF_REG c r) m check_data = check_value
                 /\ RESIDUE (with_REF_REG c r) = residue_const
                 /\ forall dataword, is_bytes dataword ->
                      residue_of_codeword (with_REF_REG c r) m dataword = residue_const)
         TEST_CRC_list.
Proof.
  pose proof catalogue_entries_ok as Hall.
  rewrite forallb_forall in Hall. apply List.Forall_forall.
  intros [[c check_value] residue_const] Hin. specialize (Hall _ Hin).
  apply catalogue_entry_facts in Hall as (Hc & Hsame & Hcheck & Hres).
  assert (Hdata : is_bytes check_data) by (apply is_bytesb_spec; reflexivity).
  split; [exact Hc |]. split; [exact Hsame |]. intros m r.
  assert (HR : RESIDUE (with_REF_REG c r) = residue_const)
    by (rewrite RESIDUE_any by exact Hc; exact Hres).
  split; [| split; [exact HR |]].
  - rewrite <- Hcheck. change (parametric_calculate c check_data)
      with (mode_calculate c table_based check_data).
    rewrite <- (with_REF_REG_same c) at 2. apply mode_calculate_any; assumption.
  - intros dataword Hword. rewrite <- HR.
    apply residue_law_same_endian; [apply with_REF_REG_ok, Hc | exact Hsame | exact Hword].
Qed.

Lemma mode_calculate_is_uint (c : cfg) (m : mode) (data : list Z) :
  cfg_ok c -> is_bytes data -> is_uint (WIDTH c) (mode_calculate c m data).
Proof.
  intros Hc Hdata. pose proof Hc as (_ & _ & Hxor).
  rewrite mode_calculate_kernel by assumption.
  apply is_uint_lxor; [| exact Hxor].
  apply conditional_reflect_is_uint, kernel_update_is_uint;
    auto using ACTUAL_INIT_is_uint.
Qed.

(** What [run_one] returns, for a model with either register convention
    in any mode. *)
Lemma run_one_any (c : cfg) (m : mode) (r : bool) (check_value residue_const : Z) :
  cfg_ok c -> is_uint (WIDTH c) check_value ->
  run_one (with_REF_REG c r) m check_value residue_const
  = if (parametric_calculate c check_data =? check_value)
       && (RESIDUE c =? residue_const)
       && (conditional_reflect (WIDTH c) (negb (eqb (REF_IN c) (REF_OUT c))) (RESIDUE c)
           =? residue_const)
    then 0 else 1.
Proof.
  intros Hc Hcheck.
  assert (Hdata : is_bytes check_data) by (apply is_bytesb_spec; reflexivity).
  pose proof (with_REF_REG_ok c r Hc) as Hcr.
  unfold run_one. cbv zeta. rewrite <- !mode_calculate_final.
  change (residue (with_REF_REG c r)
            (mode_update (with_REF_REG c r) m
               (codeword (with_REF_REG c r) check_data
                  (mode_calculate (with_REF_REG c r) m check_data))
               (impl_new (with_REF_REG c r))))
    with (residue_of_codeword (with_REF_REG c r) m check_data).
  rewrite residue_of_codeword_spec by assumption.
  rewrite RESIDUE_any by exact Hc.
  rewrite (mode_calculate_any c m table_based r (REF_REG c)) by assumption.
  rewrite with_REF_REG_same.
  change (WIDTH (with_REF_REG c r)) with (WIDTH c).
  change (REF_IN (with_REF_REG c r)) with (REF_IN c).
  change (REF_OUT (with_REF_REG c r)) with (REF_OUT c).
  rewrite to_uint_small by exact Hcheck.
  change (mode_calculate c table_based check_data) with (parametric_calculate c check_data).
  destruct (parametric_calculate c check_data =? check_value); [| reflexivity].
  destruct (RESIDUE c =? residue_const); [| reflexivity].
  destruct (conditional_reflect (WIDTH c) (negb (eqb (REF_IN c) (REF_OUT c))) (RESIDUE c)
            =? residue_const); reflexivity.
Qed.

(** What [test_constexpr] returns. *)
Lemma test_constexpr_eq (c : cfg) (check_value : Z) :
  cfg_ok c ->
  test_constexpr c check_value = (parametric_calculate c check_data =? check_value).
Proof.
  intros Hc.
  assert (Hdata : is_bytes check_data) by (apply is_bytesb_spec; reflexivity).
  assert (Hstream : forall m,
            final c (mode_update c m STR2 (mode_update c m STR1 (impl_new c)))
            = parametric_calculate c check_data).
  { intros m. change (parametric_calculate c check_data)
      with (mode_calculate c table_based check_data).
    rewrite <- (with_REF_REG_same c) at 5.
    rewrite <- (mode_calculate_any c m table_based (REF_REG c) (REF_REG c)) by assumption.
    rewrite with_REF_REG_same, mode_calculate_final.
    change check_data with (STR1 ++ STR2).
    destruct m; unfold mode_update, update, update_ext; cbn [_crc];
      rewrite ?impl_input_reverser_app, ?impl_ext_input_reverser_app; reflexivity. }
  unfold test_constexpr. cbv zeta.
  change (update c updater_table_based STR2 (update c updater_table_based STR1 (impl_new c)))
    with (mode_update c table_based STR2 (mode_update c table_based STR1 (impl_new c))).
  change (update_ext c updater_ext_small_table_based STR2
            (table_type_default updater_ext_small_table_based (TBL_CFG c))
            (update_ext c updater_ext_small_table_based STR1
               (table_type_default updater_ext_small_table_based (TBL_CFG c)) (impl_new c)))
    with (mode_update c ext_small_table_based STR2
            (mode_update c ext_small_table_based STR1 (impl_new c))).
  rewrite !Hstream.
  change (calculate c updater_table_based check_data) with (parametric_calculate c check_data).
  destruct (parametric_calculate c check_data =? check_value); reflexivity.
Qed.



(** ** The mini library *)

(** X19: the bit reversal of the mini library, which goes through a table
    of reversed bytes, is the bit reversal of the full library: bit [i] of
    the result is bit [WIDTH - 1 - i] of the argument, and reversing twice
    gives the argument back. *)
Theorem mini_bit_reversal (w : width) (v : Z) :
  is_uint w v ->
  mini.reverse_bits w v = reverse_bits w v
  /\ (forall i, 0 <= i < bits w ->
        Z.testbit (mini.reverse_bits w v) i = Z.testbit v (bits w - 1 - i))
  /\ is_uint w (mini.reverse_bits w v)
  /\ mini.reverse_bits w (mini.reverse_bits w v) = v.
Proof.
  intros Hv. pose proof (mini_reverse_bits_eq w v Hv) as Heq.
  pose proof (reverse_bits_is_uint w v Hv) as Hrange.
  split; [exact Heq |]. split; [| split].
  - intros i Hi. rewrite mini_reverse_bits_testbit by (auto; lia).
    destruct (Z.ltb_spec i (bits w)); [reflexivity | lia].
  - rewrite Heq. exact Hrange.
  - rewrite Heq, mini_reverse_bits_eq by exact Hrange.
    apply reverse_bits_involutive, Hv.
Qed.

Lemma mini_bit_reversal_witness :
  is_uint W64 0x42F0E1EBA9EA3693
  /\ mini.reverse_bits W64 0x42F0E1EBA9EA3693 = reverse_bits W64 0x42F0E1EBA9EA3693.
Proof.
  assert (Hv : is_uint W64 0x42F0E1EBA9EA3693) by (apply is_uintb_spec; reflexivity).
  split; [exact Hv |].
  exact (proj1 (mini_bit_reversal W64 0x42F0E1EBA9EA3693 Hv)).
Defined.

Lemma mini_calculate_final (c : mini.cfg) (data : list Z) :
  mini.calculate c data = mini.final c (mini.update c data (mini.parametric_new c)).
Proof.
  unfold mini.calculate, mini.final, mini.residue, mini.update, mini.parametric_new,
    mini.parametric_from, mini.base_calculate.
  cbn [mini._crc]. destruct (mini.REF_IN c), (mini.REF_OUT c); reflexivity.
Qed.

Lemma mini_update_app (c : mini.cfg) (A B : list Z) (this : mini.parametric) :
  mini.update c B (mini.update c A this) = mini.update c (A ++ B) this.
Proof.
  unfold mini.update, mini.base_calculate. cbn [mini._crc].
  destruct (mini.REF_IN c); rewrite for_bytes_app; reflexivity.
Qed.

(** X20: the streaming interface of the mini library composes.  Two
    updates in a row are one update with the concatenated input, an
    update with no bytes changes nothing, [calculate] is [final] after one
    update of a new instance, and an instance constructed from the
    [interim()] of another continues its calculation. *)
Theorem mini_streaming (c : mini.cfg) (A B : list Z) (this : mini.parametric) :
  mini.update c B (mini.update c A this) = mini.update c (A ++ B) this
  /\ mini.update c [] this = this
  /\ mini.calculate c A = mini.final c (mini.update c A (mini.parametric_new c))
  /\ mini.final c (mini.update c B
                     (mini.parametric_from
                        (mini.interim (mini.update c A (mini.parametric_new c)))))
     = mini.calculate c (A ++ B).
Proof.
  split; [apply mini_update_app |]. split; [| split].
  - destruct this as [crc]. unfold mini.update, mini.base_calculate. cbn [mini._crc].
    destruct (mini.REF_IN c); reflexivity.
  - apply mini_calculate_final.
  - rewrite mini_calculate_final, <- mini_update_app.
    destruct (mini.update c A (mini.parametric_new c)) as [crc]. reflexivity.
Qed.

(** *** The codeword of test_mini.cpp *)

(** [reverse_bytes] puts byte [k] of its argument at the place of byte
    [WIDTH / 8 - 1 - k], with the bits of each byte in their order. *)
Lemma reverse_bytes16_testbit (x j : Z) :
  0 <= x < 2 ^ 16 -> 0 <= j ->
  Z.testbit (reverse_bytes16 x) j = (j <? 16) && Z.testbit x (16 - 8 - j + 2 * (j mod 8)).
Proof.
  intros Hx Hj. unfold reverse_bytes16.
  rewrite wrap_testbit, Z.lor_spec, Z.shiftr_spec, Z.shiftl_spec by lia.
  destruct (Z.ltb_spec j 16); [| reflexivity]. cbn [andb].
  destruct (Z.ltb_spec j 8).
  - rewrite (Z.testbit_neg_r x (j - 8)), orb_false_r by lia.
    rewrite Z.mod_small by lia. f_equal. lia.
  - rewrite (range_testbit_high 16 x (j + 8)) by (assumption || lia). cbn [orb].
    replace (j mod 8) with (j - 8); [f_equal; lia |].
    apply (Z.mod_unique j 8 1); lia.
Qed.

Lemma swap_halves_bytes_testbit (h : Z) (rb : Z -> Z) (v i : Z) :
  0 < h -> h mod 8 = 0 ->
  (forall x j, 0 <= x < 2 ^ h -> 0 <= j ->
     Z.testbit (rb x) j = (j <? h) && Z.testbit x (h - 8 - j + 2 * (j mod 8))) ->
  0 <= i ->
  Z.testbit (Z.lor (Z.shiftl (rb (wrap h v)) h) (rb (wrap h (Z.shiftr v h)))) i
  = (i <? 2 * h) && Z.testbit v (2 * h - 8 - i + 2 * (i mod 8)).
Proof.
  intros Hh H8 Hrb Hi.
  pose proof (Z.mod_pos_bound i 8 ltac:(lia)) as Hr.
  pose proof (Z.div_mod i 8 ltac:(lia)) as Hq.
  pose proof (Z.div_mod h 8 ltac:(lia)) as Hhq. rewrite H8, Z.add_0_r in Hhq.
  rewrite Z.lor_spec, Z.shiftl_spec by lia.
  rewrite (Hrb (wrap h (Z.shiftr v h)) i) by (try apply wrap_range; lia).
  destruct (Z.ltb_spec i h).
  - rewrite Z.testbit_neg_r by lia. cbn [orb andb].
    rewrite wrap_testbit, Z.shiftr_spec by lia.
    destruct (Z.ltb_spec (h - 8 - i + 2 * (i mod 8)) h); [| lia].
    destruct (Z.ltb_spec i (2 * h)); [| lia].
    cbn [andb]. f_equal. lia.
  - rewrite (Hrb (wrap h v) (i - h)) by (try apply wrap_range; lia).
    rewrite wrap_testbit by lia. cbn [andb]. rewrite orb_false_r.
    assert (Hmod : (i - h) mod 8 = i mod 8).
    { symmetry. apply (Z.mod_unique (i - h) 8 (i / 8 - h / 8)); lia. }
    rewrite Hmod.
    destruct (Z.ltb_spec (i - h) h); destruct (Z.ltb_spec i (2 * h)); try lia;
      cbn [andb]; try reflexivity.
    destruct (Z.ltb_spec (h - 8 - (i - h) + 2 * (i mod 8)) h); [| lia].
    cbn [andb]. f_equal. lia.
Qed.

Lemma reverse_bytes_testbit (w : width) (v i : Z) :
  is_uint w v -> 0 <= i ->
  Z.testbit (reverse_bytes w v) i
  = (i <? bits w) && Z.testbit v (bits w - 8 - i + 2 * (i mod 8)).
Proof.
  intros Hv Hi.
  assert (H32 : forall x j, 0 <= x < 2 ^ 32 -> 0 <= j ->
            Z.testbit (reverse_bytes32 x) j
            = (j <? 32) && Z.testbit x (32 - 8 - j + 2 * (j mod 8))).
  { intros x j Hx Hj. unfold reverse_bytes32.
    rewrite (swap_halves_bytes_testbit 16 reverse_bytes16 x j)
      by (first [exact reverse_bytes16_testbit | reflexivity | lia]).
    reflexivity. }
  destruct w; cbn [reverse_bytes bits].
  - unfold reverse_bytes8. destruct (Z.ltb_spec i 8); cbn [andb].
    + rewrite Z.mod_small by lia. f_equal. lia.
    + apply (range_testbit_high 8); (assumption || lia).
  - apply reverse_bytes16_testbit; assumption.
  - apply H32; assumption.
  - unfold reverse_bytes64.
    rewrite (swap_halves_bytes_testbit 32 reverse_bytes32 v i)
      by (first [exact H32 | reflexivity | lia]).
    reflexivity.
Qed.

(** Byte [k] of [reverse_bytes v], counted from the least significant. *)
Lemma reverse_bytes_byte (w : width) (v k : Z) :
  is_uint w v -> 0 <= k < bits w -> k mod 8 = 0 ->
  to_uint8 (Z.shiftr (reverse_bytes w v) k) = to_uint8 (Z.shiftr v (bits w - 8 - k)).
Proof.
  intros Hv Hk Hmod. unfold to_uint8. apply Z.bits_inj'. intros i Hi.
  rewrite !wrap_testbit, !Z.shiftr_spec by lia.
  destruct (Z.ltb_spec i 8); [| reflexivity]. cbn [andb].
  rewrite reverse_bytes_testbit by (assumption || lia).
  assert (Hbits : bits w mod 8 = 0) by (destruct w; reflexivity).
  pose proof (Z.div_mod k 8 ltac:(lia)) as Hkq. rewrite Hmod, Z.add_0_r in Hkq.
  pose proof (Z.div_mod (bits w) 8 ltac:(lia)) as Hbq. rewrite Hbits, Z.add_0_r in Hbq.
  assert (Him : (i + k) mod 8 = i).
  { symmetry. apply (Z.mod_unique (i + k) 8 (k / 8)); lia. }
  rewrite Him.
  destruct (Z.ltb_spec (i + k) (bits w)); [| lia]. cbn [andb]. f_equal. lia.
Qed.

(** The bytes that [test_one] gives to [update]. *)
Lemma test_one_codeword_bytes (c : mini.cfg) (check_value : Z) :
  is_uint (mini.WIDTH c) check_value ->
  take (Z.to_nat (9 + bits (mini.WIDTH c) / 8)) (test_one_codeword c check_value)
  = codeword (cfg_of_mini c) check_data check_value.
Proof.
  intros Hcheck. unfold test_one_codeword, codeword. cbv zeta.
  change (REF_IN (cfg_of_mini c)) with (mini.REF_IN c).
  change (REF_OUT (cfg_of_mini c)) with (mini.REF_OUT c).
  change (WIDTH (cfg_of_mini c)) with (mini.WIDTH c).
  set (x := if negb (eqb (mini.REF_IN c) (mini.REF_OUT c))
            then reverse_bits (mini.WIDTH c) check_value else check_value).
  assert (Hx : is_uint (mini.WIDTH c) x).
  { unfold x. destruct (negb (eqb (mini.REF_IN c) (mini.REF_OUT c)));
      [apply reverse_bits_is_uint |]; exact Hcheck. }
  replace (if negb (eqb (mini.REF_IN c) (mini.REF_OUT c))
           then mini.reverse_bits (mini.WIDTH c) check_value else check_value) with x
    by (unfold x; rewrite mini_reverse_bits_eq by exact Hcheck; reflexivity).
  clearbody x.
  rewrite append_little_endian_eq, append_big_endian_eq.
  replace (Z.to_nat (9 + bits (mini.WIDTH c) / 8))
    with (length check_data + Z.to_nat (bits (mini.WIDTH c) / 8))%nat
    by (destruct (mini.WIDTH c); reflexivity).
  rewrite take_app_add.
  destruct (mini.REF_IN c); cbn [negb].
  - destruct (mini.WIDTH c); cbn [bits];
      repeat match goal with
             | |- context [Z.to_nat ?e] =>
                 let n := eval vm_compute in (Z.to_nat e) in change (Z.to_nat e) with n
             end;
      cbn [take little_endian]; rewrite ?Z.shiftr_shiftr by lia; reflexivity.
  - assert (H0 : to_uint8 (reverse_bytes (mini.WIDTH c) x)
                 = to_uint8 (Z.shiftr (reverse_bytes (mini.WIDTH c) x) 0)) by reflexivity.
    rewrite H0. clear H0.
    destruct (mini.WIDTH c); cbn [bits];
      repeat match goal with
             | |- context [Z.to_nat ?e] =>
                 let n := eval vm_compute in (Z.to_nat e) in change (Z.to_nat e) with n
             end;
      cbn [take big_endian];
      repeat match goal with
             | |- context [to_uint8 (Z.shiftr (reverse_bytes ?w x) ?k)] =>
                 rewrite (reverse_bytes_byte w x k Hx)
                   by (cbn [bits]; first [reflexivity | lia])
             end;
      reflexivity.
Qed.


Lemma reverse_bytes_is_uint (w : width) (v : Z) :
  is_uint w v -> is_uint w (reverse_bytes w v).
Proof.
  intros Hv. apply is_uint_of_testbit. intros i Hi. pose proof (bits_pos w).
  rewrite reverse_bytes_testbit by (assumption || lia).
  destruct (Z.ltb_spec i (bits w)); [lia | reflexivity].
Qed.

(** X21: [reverse_bytes] of test_mini.cpp, and the codeword made with it.
    Byte [k] of [reverse_bytes(v)] is byte [sizeof(v) - 1 - k] of [v], and
    reversing twice gives [v] back.  So the first
    [9 + sizeof(value_type)] bytes of the array that [test_one] fills,
    with [reverse_bytes] and eight shifts of a 64 bit value, are the bytes
    of ["123456789"] followed by the check value as [run_one] of test.cpp
    appends it: bit-reversed when [REF_IN != REF_OUT], least significant
    byte first when [REF_IN] and most significant byte first otherwise. *)
Theorem test_one_codeword_same (c : mini.cfg) (check_value : Z) :
  is_uint (mini.WIDTH c) check_value ->
  let w := mini.WIDTH c in
  (forall k, 0 <= k < bits w / 8 ->
     to_uint8 (Z.shiftr (reverse_bytes w check_value) (8 * k))
     = to_uint8 (Z.shiftr check_value (8 * (bits w / 8 - 1 - k))))
  /\ reverse_bytes w (reverse_bytes w check_value) = check_value
  /\ take (Z.to_nat (9 + bits w / 8)) (test_one_codeword c check_value)
     = codeword (cfg_of_mini c) check_data check_value.
Proof.
  intros Hcheck w. pose proof (bits_bytes w) as [Hn Hn'].
  assert (Hdiv : bits w = 8 * (bits w / 8)) by (destruct w; reflexivity).
  split; [| split].
  - intros k Hk. rewrite reverse_bytes_byte.
    + f_equal. f_equal. lia.
    + exact Hcheck.
    + lia.
    + rewrite Z.mul_comm. apply Z.mod_mul. lia.
  - pose proof (reverse_bytes_is_uint w check_value Hcheck) as Hrange.
    apply (uint_bits_eq w); [apply reverse_bytes_is_uint, Hrange | exact Hcheck |].
    intros i Hi.
    pose proof (Z.mod_pos_bound i 8 ltac:(lia)) as Hr.
    pose proof (Z.div_mod i 8 ltac:(lia)) as Hq.
    assert (Hmod : (bits w - 8 - i + 2 * (i mod 8)) mod 8 = i mod 8).
    { symmetry. apply (Z.mod_unique _ 8 (bits w / 8 - 1 - i / 8)); lia. }
    rewrite !reverse_bytes_testbit by (assumption || lia). rewrite Hmod.
    destruct (Z.ltb_spec i (bits w)); [| lia].
    destruct (Z.ltb_spec (bits w - 8 - i + 2 * (i mod 8)) (bits w)); [| lia].
    cbn [andb]. f_equal. lia.
  - apply test_one_codeword_bytes, Hcheck.
Qed.

Lemma test_one_codeword_same_witness :
  is_uint (mini.WIDTH mini_crc32_bzip2) 0xFC891918
  /\ reverse_bytes W32 (reverse_bytes W32 0xFC891918) = 0xFC891918
  /\ take (Z.to_nat (9 + bits W32 / 8)) (test_one_codeword mini_crc32_bzip2 0xFC891918)
     = codeword (cfg_of_mini mini_crc32_bzip2) check_data 0xFC891918.
Proof.
  assert (Hcheck : is_uint (mini.WIDTH mini_crc32_bzip2) 0xFC891918)
    by (apply is_uintb_spec; reflexivity).
  split; [exact Hcheck |].
  exact (proj2 (test_one_codeword_same mini_crc32_bzip2 0xFC891918 Hcheck)).
Defined.

(** *** The mini library through the kernel of the full library *)

Lemma mini_initial_eq (c : mini.cfg) :
  mini_cfg_ok c -> mini.initial c = ACTUAL_INIT (cfg_of_mini c).
Proof.
  intros (_ & Hinit & _). unfold mini.initial, ACTUAL_INIT, conditional_reflect.
  cbn [REF_REG cfg_of_mini WIDTH INIT].
  destruct (mini.REF_IN c); [apply mini_reverse_bits_eq, Hinit | reflexivity].
Qed.

Lemma mini_update_kernel (c : mini.cfg) (data : list Z) (crc : Z) :
  mini_cfg_ok c -> is_uint (mini.WIDTH c) crc -> is_bytes data ->
  mini.base_calculate c data true crc = kernel_update (cfg_of_mini c) crc data.
Proof.
  intros Hc Hcrc Hdata. rewrite mini_update_eq by assumption.
  unfold kernel_update. cbn [REF_IN REF_REG cfg_of_mini WIDTH].
  rewrite eqb_reflx. reflexivity.
Qed.

Lemma mini_residue_eq (c : mini.cfg) (crc : Z) :
  is_uint (mini.WIDTH c) crc ->
  mini.residue c (mini.parametric_from crc) = residue (cfg_of_mini c) (impl_from crc).
Proof.
  intros Hcrc. unfold mini.residue, residue, conditional_reflect.
  cbn [REF_OUT REF_REG cfg_of_mini WIDTH mini._crc mini.parametric_from _crc impl_from].
  destruct (negb (eqb (mini.REF_IN c) (mini.REF_OUT c)));
    [apply mini_reverse_bits_eq, Hcrc | reflexivity].
Qed.

(** An update of the mini library, in terms of an update of the full
    library in any mode. *)
Lemma mini_update_mode (c : mini.cfg) (m : mode) (data : list Z) (crc : Z) :
  mini_cfg_ok c -> is_uint (mini.WIDTH c) crc -> is_bytes data ->
  mini.update c data (mini.parametric_from crc)
  = mini.parametric_from (_crc (mode_update (cfg_of_mini c) m data (impl_from crc)))
  /\ is_uint (mini.WIDTH c) (_crc (mode_update (cfg_of_mini c) m data (impl_from crc))).
Proof.
  intros Hc Hcrc Hdata.
  assert (Hfull : cfg_ok (cfg_of_mini c)) by exact Hc.
  rewrite mode_update_kernel by assumption. cbn [_crc impl_from]. split.
  - unfold mini.update, mini.parametric_from. cbn [mini._crc].
    rewrite mini_update_kernel by assumption. reflexivity.
  - apply (kernel_update_is_uint (cfg_of_mini c)); assumption.
Qed.

Lemma mini_calculate_mode (c : mini.cfg) (m : mode) (data : list Z) :
  mini_cfg_ok c -> is_bytes data ->
  mini.calculate c data = mode_calculate (cfg_of_mini c) m data.
Proof.
  intros Hc Hdata.
  assert (Hfull : cfg_ok (cfg_of_mini c)) by exact Hc.
  pose proof (ACTUAL_INIT_is_uint _ Hfull) as Hinit.
  rewrite mini_calculate_final, mode_calculate_final.
  unfold mini.parametric_new, impl_new. rewrite mini_initial_eq by exact Hc.
  destruct (mini_update_mode c m data _ Hc Hinit Hdata) as [-> Hrange].
  unfold mini.final, final. rewrite mini_residue_eq by exact Hrange.
  destruct (mode_update (cfg_of_mini c) m data (impl_from (ACTUAL_INIT (cfg_of_mini c))))
    as [crc].
  reflexivity.
Qed.

Lemma mini_residue_of_codeword (c : mini.cfg) (dataword : list Z) :
  mini_cfg_ok c -> is_bytes dataword ->
  mini.residue c (mini.update c (codeword (cfg_of_mini c) dataword (mini.calculate c dataword))
                              (mini.parametric_new c))
  = conditional_reflect (mini.WIDTH c) (negb (eqb (mini.REF_IN c) (mini.REF_OUT c)))
                        (RESIDUE (cfg_of_mini c)).
Proof.
  intros Hc Hdata.
  assert (Hfull : cfg_ok (cfg_of_mini c)) by exact Hc.
  pose proof (ACTUAL_INIT_is_uint _ Hfull) as Hinit.
  rewrite (mini_calculate_mode c tableless) by assumption.
  unfold mini.parametric_new. rewrite mini_initial_eq by exact Hc.
  destruct (mini_update_mode c tableless
              (codeword (cfg_of_mini c) dataword
                 (mode_calculate (cfg_of_mini c) tableless dataword))
              _ Hc Hinit (codeword_is_bytes _ _ _ Hdata)) as [-> Hrange].
  rewrite mini_residue_eq by exact Hrange.
  pose proof (residue_of_codeword_spec (cfg_of_mini c) tableless dataword Hfull Hdata) as Hlaw.
  unfold residue_of_codeword, impl_new in Hlaw. cbv zeta in Hlaw.
  destruct (mode_update (cfg_of_mini c) tableless
              (codeword (cfg_of_mini c) dataword
                 (mode_calculate (cfg_of_mini c) tableless dataword))
              (impl_from (ACTUAL_INIT (cfg_of_mini c)))) as [crc].
  exact Hlaw.
Qed.

(** X22: the residue law of the mini library.  After an update of a new
    instance with a dataword followed by its CRC (bit-reversed when
    [REF_IN != REF_OUT], least significant byte first when [REF_IN], most
    significant byte first otherwise), [residue()] is the constant
    [RESIDUE] of the full library for the same parameters when
    [REF_IN == REF_OUT], and its bit reversal when [REF_IN != REF_OUT]. *)
Theorem mini_residue_law (c : mini.cfg) (dataword : list Z) :
  mini_cfg_ok c -> is_bytes dataword ->
  mini.residue c (mini.update c (codeword (cfg_of_mini c) dataword (mini.calculate c dataword))
                              (mini.parametric_new c))
  = (if eqb (mini.REF_IN c) (mini.REF_OUT c)
     then RESIDUE (cfg_of_mini c)
     else reverse_bits (mini.WIDTH c) (RESIDUE (cfg_of_mini c))).
Proof.
  intros Hc Hdata. rewrite mini_residue_of_codeword by assumption.
  destruct (eqb (mini.REF_IN c) (mini.REF_OUT c)); reflexivity.
Qed.

Lemma mini_residue_law_witness :
  mini_cfg_ok mini_crc32_bzip2 /\ is_bytes check_data
  /\ mini.residue mini_crc32_bzip2
       (mini.update mini_crc32_bzip2
          (codeword (cfg_of_mini mini_crc32_bzip2) check_data
             (mini.calculate mini_crc32_bzip2 check_data))
          (mini.parametric_new mini_crc32_bzip2))
     = (if eqb (mini.REF_IN mini_crc32_bzip2) (mini.REF_OUT mini_crc32_bzip2)
        then RESIDUE (cfg_of_mini mini_crc32_bzip2)
        else reverse_bits (mini.WIDTH mini_crc32_bzip2)
                          (RESIDUE (cfg_of_mini mini_crc32_bzip2))).
Proof.
  assert (Hc : mini_cfg_ok mini_crc32_bzip2) by (apply (cfg_okb_spec crc32_bzip2); reflexivity).
  assert (Hdata : is_bytes check_data) by (apply is_bytesb_spec; reflexivity).
  split; [exact Hc |]. split; [exact Hdata |].
  exact (mini_residue_law mini_crc32_bzip2 check_data Hc Hdata).
Defined.

(** What [test_one] returns. *)
Lemma test_one_eq (c : mini.cfg) (check_value residue_const : Z) :
  mini_cfg_ok c ->
  test_one c check_value residue_const
  = (mini.calculate c check_data =? to_uint (mini.WIDTH c) check_value)
    && (conditional_reflect (mini.WIDTH c) (negb (eqb (mini.REF_IN c) (mini.REF_OUT c)))
                            (RESIDUE (cfg_of_mini c))
        =? to_uint (mini.WIDTH c) residue_const).
Proof.
  intros Hc.
  assert (Hdata : is_bytes check_data) by (apply is_bytesb_spec; reflexivity).
  pose proof (to_uint_is_uint (mini.WIDTH c) check_value) as Hcheck.
  unfold test_one. cbv zeta.
  set (cv := to_uint (mini.WIDTH c) check_value) in *.
  set (rc := to_uint (mini.WIDTH c) residue_const).
  rewrite mini_update_app. change (STR1 ++ STR2) with check_data.
  rewrite <- mini_calculate_final.
  rewrite test_one_codeword_bytes by exact Hcheck.
  destruct (Z.eqb_spec (mini.calculate c check_data) cv) as [Hcalc | Hcalc];
    cbn [negb andb]; [| reflexivity].
  rewrite <- Hcalc. rewrite mini_residue_of_codeword by assumption.
  match goal with
  | |- context [?a =? rc] => destruct (a =? rc)
  end; reflexivity.
Qed.

(** X23: what the test of one model of the mini library checks.  For
    parameters that fit the width, [test_one] of test_mini.cpp returns
    true exactly when [calculate] of ["123456789"] is [check], and
    [residue] is the constant [RESIDUE] of the full library for the same
    parameters, bit-reversed when [REF_IN != REF_OUT]; [check] and
    [residue] being the arguments converted to [CRC::value_type], as the
    call converts them. *)
Theorem test_one_characterised (c : mini.cfg) (check_value residue_const : Z) :
  mini_cfg_ok c ->
  test_one c check_value residue_const = true
  <-> mini.calculate c check_data = to_uint (mini.WIDTH c) check_value
      /\ (if eqb (mini.REF_IN c) (mini.REF_OUT c)
          then RESIDUE (cfg_of_mini c)
          else reverse_bits (mini.WIDTH c) (RESIDUE (cfg_of_mini c)))
         = to_uint (mini.WIDTH c) residue_const.
Proof.
  intros Hc. rewrite test_one_eq by assumption. unfold conditional_reflect.
  rewrite andb_true_iff, !Z.eqb_eq.
  destruct (eqb (mini.REF_IN c) (mini.REF_OUT c)); cbn [negb]; reflexivity.
Qed.

Lemma test_one_characterised_witness :
  mini_cfg_ok mini_crc32_bzip2
  /\ (test_one mini_crc32_bzip2 0xFC891918 0x1C704DD7B = true
      <-> mini.calculate mini_crc32_bzip2 check_data = to_uint W32 0xFC891918
          /\ (if eqb (mini.REF_IN mini_crc32_bzip2) (mini.REF_OUT mini_crc32_bzip2)
              then RESIDUE (cfg_of_mini mini_crc32_bzip2)
              else reverse_bits (mini.WIDTH mini_crc32_bzip2)
                                (RESIDUE (cfg_of_mini mini_crc32_bzip2)))
             = to_uint W32 0x1C704DD7B).
Proof.
  assert (Hc : mini_cfg_ok mini_crc32_bzip2) by (apply (cfg_okb_spec crc32_bzip2); reflexivity).
  split; [exact Hc |].
  exact (test_one_characterised mini_crc32_bzip2 0xFC891918 0x1C704DD7B Hc).
Defined.

(** ** Registers never merge *)

(** With a polynomial whose constant term is set, only the zero register
    steps to the zero register. *)
Lemma shift_register_zero (REF : bool) (w : width) (poly x : Z) :
  is_uint w poly -> Z.odd poly = true -> is_uint w x ->
  shift_register REF w (conditional_reflect w REF poly) x = 0 -> x = 0.
Proof.
  intros Hpoly Hodd Hx Hzero. pose proof (bits_pos w) as Hw.
  assert (Hbits : forall i, 0 <= i ->
            Z.testbit (shift_register REF w (conditional_reflect w REF poly) x) i = false)
    by (intros i Hi; rewrite Hzero; apply Z.testbit_0_l).
  rewrite <- Z.bit0_odd in Hodd.
  apply (uint_bits_eq w); [exact Hx | apply is_uint_0 |].
  intros i Hi. rewrite Z.testbit_0_l.
  destruct REF; cbn [conditional_reflect] in Hbits.
  - assert (H0 : Z.testbit x 0 = false).
    { pose proof (Hbits (bits w - 1) ltac:(lia)) as Hb.
      rewrite shift_register_testbit in Hb by lia.
      rewrite reverse_bits_testbit in Hb by (assumption || lia).
      replace (bits w - 1 - (bits w - 1)) with 0 in Hb by lia.
      replace (bits w - 1 + 1) with (bits w) in Hb by lia.
      rewrite (is_uint_testbit_high w x (bits w)), Hodd in Hb by (assumption || lia).
      destruct (Z.ltb_spec (bits w - 1) (bits w)); [| lia].
      destruct (Z.testbit x 0); [discriminate Hb | reflexivity]. }
    destruct (Z.eq_dec i 0) as [-> | Hne]; [exact H0 |].
    pose proof (Hbits (i - 1) ltac:(lia)) as Hb.
    rewrite shift_register_testbit in Hb by lia.
    rewrite H0 in Hb. cbn [andb] in Hb. rewrite xorb_false_r in Hb.
    replace (i - 1 + 1) with i in Hb by lia. exact Hb.
  - assert (Hmsb : Z.testbit x (bits w - 1) = false).
    { pose proof (Hbits 0 ltac:(lia)) as Hb.
      rewrite shift_register_testbit in Hb by lia.
      rewrite (Z.testbit_neg_r x (0 - 1)), Hodd in Hb by lia.
      destruct (Z.ltb_spec 0 (bits w)); [| lia].
      destruct (Z.testbit x (bits w - 1)); [discriminate Hb | reflexivity]. }
    destruct (Z.eq_dec i (bits w - 1)) as [-> | Hne]; [exact Hmsb |].
    pose proof (Hbits (i + 1) ltac:(lia)) as Hb.
    rewrite shift_register_testbit in Hb by lia.
    rewrite Hmsb in Hb. cbn [andb] in Hb. rewrite xorb_false_r in Hb.
    replace (i + 1 - 1) with i in Hb by lia.
    destruct (Z.ltb_spec (i + 1) (bits w)); [exact Hb | lia].
Qed.

Lemma lxor_eq_0 (x y : Z) : Z.lxor x y = 0 -> x = y.
Proof. apply Z.lxor_eq. Qed.

Lemma shift_register_n_injective (REF : bool) (w : width) (poly : Z) (n : nat) (x y : Z) :
  is_uint w poly -> Z.odd poly = true -> is_uint w x -> is_uint w y ->
  shift_register_n REF w (conditional_reflect w REF poly) n x
  = shift_register_n REF w (conditional_reflect w REF poly) n y ->
  x = y.
Proof.
  intros Hpoly Hodd Hx Hy.
  pose proof (conditional_reflect_is_uint w REF poly Hpoly) as Hapoly.
  induction n as [| n IH]; [intros H; exact H |].
  rewrite !shift_register_n_S. intros Heq. apply IH.
  apply lxor_eq_0.
  apply (shift_register_zero REF w poly);
    auto using is_uint_lxor, shift_register_n_is_uint.
  rewrite shift_register_lxor by auto using shift_register_n_is_uint.
  rewrite Heq. apply Z.lxor_nilpotent.
Qed.

Lemma tableless_update_injective (REF : bool) (w : width) (poly : Z) (data : list Z) :
  is_uint w poly -> Z.odd poly = true -> is_bytes data ->
  forall x y, is_uint w x -> is_uint w y ->
  tableless_update REF w (conditional_reflect w REF poly) x data
  = tableless_update REF w (conditional_reflect w REF poly) y data ->
  x = y.
Proof.
  intros Hpoly Hodd Hdata.
  pose proof (conditional_reflect_is_uint w REF poly Hpoly) as Hapoly.
  induction Hdata as [| b data Hb Hdata IH]; intros x y Hx Hy Heq; [exact Heq |].
  rewrite !tableless_update_cons in Heq.
  apply IH in Heq; try (apply bbb_update_is_uint; assumption).
  rewrite !bbb_update_eq in Heq by assumption.
  apply shift_register_n_injective in Heq;
    auto using is_uint_lxor, byte_in_is_uint.
  assert (Hcancel : forall a, Z.lxor (Z.lxor a (byte_in REF w b)) (byte_in REF w b) = a)
    by (intros a; rewrite Z.lxor_assoc, Z.lxor_nilpotent, Z.lxor_0_r; reflexivity).
  rewrite <- (Hcancel x), Heq. apply Hcancel.
Qed.

(** X24: registers never merge.  For a model whose polynomial has the
    constant term, two instances that hold different registers still
    hold different registers after an update with the same bytes, in
    every mode; so two inputs whose registers differ at some point and
    which continue alike have different CRCs. *)
Theorem update_injective (c : cfg) (m : mode) (data : list Z) (r1 r2 : Z) :
  cfg_ok c -> Z.odd (POLY c) = true ->
  is_uint (WIDTH c) r1 -> is_uint (WIDTH c) r2 -> is_bytes data ->
  r1 <> r2 ->
  interim (mode_update c m data (impl_from r1)) <> interim (mode_update c m data (impl_from r2))
  /\ final c (mode_update c m data (impl_from r1)) <> final c (mode_update c m data (impl_from r2)).
Proof.
  intros Hc Hodd H1 H2 Hdata Hne. pose proof Hc as (Hpoly & _).
  assert (Hinterim : _crc (mode_update c m data (impl_from r1))
                     <> _crc (mode_update c m data (impl_from r2))).
  { intros Heq. apply Hne. rewrite !mode_update_kernel in Heq by assumption.
    unfold kernel_update, impl_from, ACTUAL_POLY in Heq. cbn [_crc] in Heq.
    apply tableless_update_injective in Heq; auto using is_bytes_kernel. }
  split; [exact Hinterim |].
  intros Heq. apply Hinterim. unfold final, residue in Heq.
  apply (f_equal (fun v => Z.lxor v (XOR_OUT c))) in Heq.
  rewrite !Z.lxor_assoc, !Z.lxor_nilpotent, !Z.lxor_0_r in Heq.
  assert (Hr : forall r, is_uint (WIDTH c) r ->
            is_uint (WIDTH c) (_crc (mode_update c m data (impl_from r)))).
  { intros r Hr. rewrite mode_update_kernel by assumption.
    apply kernel_update_is_uint; assumption. }
  rewrite <- (conditional_reflect_involutive (WIDTH c) (negb (eqb (REF_REG c) (REF_OUT c)))
                (_crc (mode_update c m data (impl_from r1)))) by (apply Hr, H1).
  rewrite Heq. apply conditional_reflect_involutive, Hr, H2.
Qed.

Lemma update_injective_witness :
  cfg_ok crc16_kermit /\ Z.odd (POLY crc16_kermit) = true
  /\ is_uint (WIDTH crc16_kermit) 0x1234 /\ is_uint (WIDTH crc16_kermit) 0x4321
  /\ is_bytes check_data /\ 0x1234 <> 0x4321
  /\ interim (mode_update crc16_kermit tableless check_data (impl_from 0x1234))
     <> interim (mode_update crc16_kermit tableless check_data (impl_from 0x4321)).
Proof.
  assert (Hc : cfg_ok crc16_kermit) by (apply cfg_okb_spec; reflexivity).
  assert (Hodd : Z.odd (POLY crc16_kermit) = true) by reflexivity.
  assert (H1 : is_uint (WIDTH crc16_kermit) 0x1234) by (apply is_uintb_spec; reflexivity).
  assert (H2 : is_uint (WIDTH crc16_kermit) 0x4321) by (apply is_uintb_spec; reflexivity).
  assert (Hdata : is_bytes check_data) by (apply is_bytesb_spec; reflexivity).
  assert (Hne : 0x1234 <> 0x4321) by discriminate.
  split; [exact Hc |]. split; [exact Hodd |]. split; [exact H1 |]. split; [exact H2 |].
  split; [exact Hdata |]. split; [exact Hne |].
  exact (proj1 (update_injective crc16_kermit tableless check_data 0x1234 0x4321
                  Hc Hodd H1 H2 Hdata Hne)).
Defined.

(** ** The catalogue of the mini library *)

Lemma cfg_of_mini_model (c : cfg) : cfg_of_mini (mini_model c) = with_REF_REG c (REF_IN c).
Proof. destruct c; reflexivity. Qed.

(** X25: every model of the catalogue of the mini library gives the
    values listed for it.  For each of the 69 lines
    [TEST_CRC(name, check, residue)] of test_mini.cpp: the parameters fit
    the width, [calculate] of ["123456789"] is [check], and [residue()]
    after any dataword followed by its CRC is [residue]. *)
Theorem mini_models_verified :
  Forall (fun '(c, check_value, residue_const) =>
            let CRC := mini_model c in
            mini_cfg_ok CRC
            /\ mini.calculate CRC check_data = check_value
            /\ forall dataword, is_bytes dataword ->
                 mini.residue CRC
                   (mini.update CRC
                      (codeword (cfg_of_mini CRC) dataword (mini.calculate CRC dataword))
                      (mini.parametric_new CRC))
                 = residue_const)
         TEST_CRC_list.
Proof.
  pose proof catalogue_entries_ok as Hall.
  rewrite forallb_forall in Hall. apply List.Forall_forall.
  intros [[c check_value] residue_const] Hin. specialize (Hall _ Hin).
  apply catalogue_entry_facts in Hall as (Hc & Hsame & Hcheck & Hres).
  assert (Hdata : is_bytes check_data) by (apply is_bytesb_spec; reflexivity).
  assert (Hmini : mini_cfg_ok (mini_model c)) by exact Hc.
  cbv zeta. split; [exact Hmini |]. split.
  - rewrite (mini_calculate_mode _ table_based) by assumption.
    rewrite cfg_of_mini_model, <- Hcheck.
    change (parametric_calculate c check_data) with (mode_calculate c table_based check_data).
    rewrite <- (with_REF_REG_same c) at 3. apply mode_calculate_any; assumption.
  - intros dataword Hword. rewrite mini_residue_of_codeword by assumption.
    change (mini.REF_IN (mini_model c)) with (REF_IN c).
    change (mini.REF_OUT (mini_model c)) with (REF_OUT c).
    rewrite Hsame, eqb_reflx, cfg_of_mini_model. cbn [negb conditional_reflect].
    rewrite RESIDUE_any by exact Hc. exact Hres.
Qed.

(** ** The test programs *)

Lemma TEST_CRC_passes (c : cfg) (check_value residue_const : Z) :
  catalogue_entry_ok (c, check_value, residue_const) = true ->
  TEST_CRC c check_value residue_const = 0.
Proof.
  intros Hok. apply catalogue_entry_facts in Hok as (Hc & Hsame & Hcheck & Hres).
  assert (Hdata : is_bytes check_data) by (apply is_bytesb_spec; reflexivity).
  assert (Hrange : is_uint (WIDTH c) check_value).
  { rewrite <- Hcheck. apply (mode_calculate_is_uint c table_based); assumption. }
  unfold TEST_CRC, test_modes. cbv zeta.
  rewrite !run_one_any, test_constexpr_eq by assumption.
  rewrite Hcheck, Hres, Hsame, eqb_reflx. cbn [negb conditional_reflect].
  rewrite !Z.eqb_refl. reflexivity.
Qed.

Lemma RESIDUE_is_uint (c : cfg) : cfg_ok c -> is_uint (WIDTH c) (RESIDUE c).
Proof.
  intros Hc. pose proof Hc as (_ & _ & Hxor). unfold RESIDUE, residue_const.
  rewrite bbb_update_wide_eq.
  apply conditional_reflect_is_uint, shift_register_n_is_uint;
    [apply ACTUAL_POLY_is_uint, Hc | apply conditional_reflect_is_uint, Hxor].
Qed.

Lemma test_one_passes (c : cfg) (check_value residue_const : Z) :
  catalogue_entry_ok (c, check_value, residue_const) = true ->
  test_one (mini_model c) check_value residue_const = true.
Proof.
  intros Hok. apply catalogue_entry_facts in Hok as (Hc & Hsame & Hcheck & Hres).
  assert (Hdata : is_bytes check_data) by (apply is_bytesb_spec; reflexivity).
  assert (Hmini : mini_cfg_ok (mini_model c)) by exact Hc.
  assert (Hcalc : mini.calculate (mini_model c) check_data = check_value).
  { rewrite (mini_calculate_mode _ table_based) by assumption.
    rewrite cfg_of_mini_model, <- Hcheck.
    change (parametric_calculate c check_data) with (mode_calculate c table_based check_data).
    rewrite <- (with_REF_REG_same c) at 3. apply mode_calculate_any; assumption. }
  assert (Hrange : is_uint (WIDTH c) check_value).
  { rewrite <- Hcheck. apply (mode_calculate_is_uint c table_based); assumption. }
  assert (Hresidue : is_uint (WIDTH c) residue_const)
    by (rewrite <- Hres; apply RESIDUE_is_uint, Hc).
  rewrite test_one_eq by assumption.
  change (mini.WIDTH (mini_model c)) with (WIDTH c).
  change (mini.REF_IN (mini_model c)) with (REF_IN c).
  change (mini.REF_OUT (mini_model c)) with (REF_OUT c).
  rewrite !to_uint_small by assumption.
  rewrite Hcalc, Hsame, eqb_reflx, cfg_of_mini_model. cbn [negb conditional_reflect].
  rewrite RESIDUE_any, Hres by exact Hc. rewrite !Z.eqb_refl. reflexivity.
Qed.

(** X26: the test programs succeed.  [main] of test.cpp, which runs
    [run_one] in the five modes with both register conventions and
    [test_constexpr] for each of the 69 models, returns 0; and [main] of
    test_mini.cpp, which runs [test_one] for each of them, returns 0. *)
Theorem test_programs_succeed : test_main = 0 /\ test_mini_main = 0.
Proof.
  assert (Hfull : forall l errors,
            forallb catalogue_entry_ok l = true ->
            fold_left (fun errors '(c, check_value, residue_const) =>
                         errors + TEST_CRC c check_value residue_const) l errors
            = errors).
  { induction l as [| [[c check_value] residue_const] l IH]; intros errors Hl;
      [reflexivity |].
    cbn [forallb] in Hl. rewrite andb_true_iff in Hl. destruct Hl as [He Hl].
    cbn [fold_left]. rewrite IH by exact Hl.
    rewrite (TEST_CRC_passes c check_value residue_const He). apply Z.add_0_r. }
  assert (Hmini : forall l errors,
            forallb catalogue_entry_ok l = true ->
            fold_left (fun errors '(c, check_value, residue_const) =>
                         if test_one (mini_model c) check_value residue_const
                         then errors else errors + 1) l errors
            = errors).
  { induction l as [| [[c check_value] residue_const] l IH]; intros errors Hl;
      [reflexivity |].
    cbn [forallb] in Hl. rewrite andb_true_iff in Hl. destruct Hl as [He Hl].
    cbn [fold_left]. rewrite IH by exact Hl.
    rewrite (test_one_passes c check_value residue_const He). reflexivity. }
  unfold test_main, test_mini_main. cbv zeta.
  rewrite Hfull, Hmini by exact catalogue_entries_ok. split; reflexivity.
Qed.
